(** * sotools: the distance engine of [cython/distances_core.c]

    A shallow embedding of the C functions [find_edges],
    [find_edges_labeled], [distance_from_points],
    [distance_from_points_separable], [distance_transform],
    [dist_vincenty_helper] and [distance_from_points_treerings_separable],
    the properties of them that the specification states, and further
    properties read off the code.

    Conventions of the embedding.
    - A C array is a [list]; a read or a write outside of it is undefined
      behaviour in C and is a fault here: [zget] and [zset] return [None].
    - An [inum] value is a [Z] ([inum] is the signed index type that
      [distances_core.h] declares, wide enough for every index formed in
      it). An [int] value is a [Z] in the range of a 32-bit integer. The
      propagator takes [ny] and [nx] as [int]s and forms two expressions
      in [int] that can leave that range, [ny*nx] of the fill loop and
      [y2*ny+x2] of the propagation: they wrap around as the machine does
      ([int32]); C leaves that case undefined. The point indices kept in
      the [int] arrays [areas] and [domains] are taken to fit. A [uint8_t]
      of the mask is a [Z] too, and only compared with 0.
    - A [double] is a real number, and [cos], [sin], [sqrt] and [atan2] of
      the C library are the real functions of these names.
    - [realloc]/[free] only manage storage; a growable buffer is a list
      together with the capacity the code keeps for it.
    - [wall_time] and the [fprintf(stderr, ...)] lines only report timings. *)

From Stdlib Require Import ZArith Reals Lra Lia.
From stdpp Require Import base list numbers.

Open Scope Z_scope.

(** ** Arrays indexed by C integers *)

Definition zget {A} (l : list A) (i : Z) : option A :=
  if i <? 0 then None else l !! Z.to_nat i.

Definition zset {A} (l : list A) (i : Z) (v : A) : option (list A) :=
  if (0 <=? i) && (i <? Z.of_nat (length l))
  then Some (<[Z.to_nat i := v]> l) else None.

(** [for_each body idx s]: the loop [for (i in idx) s = body(i, s)], which
    stops at the first fault. *)
Fixpoint for_each {I S} (body : I -> S -> option S) (idx : list I) (s : S)
  : option S :=
  match idx with
  | [] => Some s
  | i :: rest =>
      match body i s with
      | Some s' => for_each body rest s'
      | None => None
      end
  end.

(** The indices visited by [for (i = start; i < stop; i += step)], for a
    positive [step] (for which [stop - start] rounds are always enough). *)
Fixpoint range_from (fuel : nat) (i stop step : Z) : list Z :=
  match fuel with
  | O => []
  | S f => if i <? stop then i :: range_from f (i + step) stop step else []
  end.

Definition range (start stop step : Z) : list Z :=
  range_from (Z.to_nat (stop - start)) start stop step.

(** ** BoundaryExtractor: [find_edges] *)

(** The growable index buffer of [find_edges]: [edges_], [capacity], and
    [n] as the length of [iv_items]. *)
Record ivec := IVec { iv_cap : Z; iv_items : list Z }.

(** [#define push(vec,cap,n,i)] *)
Definition push (e : ivec) (i : Z) : ivec :=
  {| iv_cap := if Z.of_nat (length (iv_items e)) >=? iv_cap e
               then iv_cap e * 2 else iv_cap e;
     iv_items := iv_items e ++ [i] |}.

(** [if(mask[i] == 0) push(edges_, capacity, n, i);] *)
Definition push_if_zero (mask : list Z) (i : Z) (e : ivec) : option ivec :=
  m ← zget mask i;
  Some (if m =? 0 then push e i else e).

(** The body of the interior loop; [&&] and [||] read lazily, left to
    right. *)
Definition push_if_interior_edge (nx : Z) (mask : list Z) (i : Z) (e : ivec)
  : option ivec :=
  m ← zget mask i;
  if negb (m =? 0) then Some e else
  a ← zget mask (i - 1);
  if negb (a =? 0) then Some (push e i) else
  b ← zget mask (i + 1);
  if negb (b =? 0) then Some (push e i) else
  c ← zget mask (i - nx);
  if negb (c =? 0) then Some (push e i) else
  d ← zget mask (i + nx);
  if negb (d =? 0) then Some (push e i) else Some e.

Definition find_edges (ny nx : Z) (mask : list Z) : option (list Z) :=
  let e0 := {| iv_cap := 0x100; iv_items := [] |} in
  e1 ← for_each (push_if_zero mask) (range 0 nx 1) e0;
  e2 ← for_each (push_if_zero mask) (range ((ny - 1) * nx) (nx * nx) 1) e1;
  e3 ← for_each (push_if_zero mask) (range nx (ny * nx) nx) e2;
  e4 ← for_each (push_if_zero mask) (range (nx - 1) (ny * nx) nx) e3;
  e5 ← for_each
         (fun y => for_each (fun x => push_if_interior_edge nx mask (y * nx + x))
                            (range 1 (nx - 1) 1))
         (range 1 (ny - 1) 1) e4;
  Some (iv_items e5).

(** The boundary pixels in the words of the specification: a pixel of value
    0 that lies on the outer border of the grid (top row, bottom row, left
    column, right column) or has a 4-neighbour of nonzero value. For a
    pixel that is not on the border, the flat indices [i-1], [i+1], [i-nx]
    and [i+nx] are its four neighbours. *)
Definition on_border (ny nx i : Z) : bool :=
  (i / nx =? 0) || (i / nx =? ny - 1) || (i mod nx =? 0) || (i mod nx =? nx - 1).

Definition nonzero_at (mask : list Z) (i : Z) : bool :=
  match zget mask i with Some m => negb (m =? 0) | None => false end.

Definition has_nonzero_neighbour (nx : Z) (mask : list Z) (i : Z) : bool :=
  nonzero_at mask (i - 1) || nonzero_at mask (i + 1)
  || nonzero_at mask (i - nx) || nonzero_at mask (i + nx).

Definition boundary_pixel_spec (ny nx : Z) (mask : list Z) (i : Z) : bool :=
  (0 <=? i) && (i <? ny * nx)
  && match zget mask i with Some m => m =? 0 | None => false end
  && (on_border ny nx i || has_nonzero_neighbour nx mask i).

(** ** GeodesicMetric: [dist_vincenty_helper] *)

(** The comparison [a < b] of two doubles. *)
Definition Rltb (a b : R) : bool := if Rlt_dec a b then true else false.

(** [atan2] of the C library on real numbers: the angle of the point
    [(x, y)] in [(-PI, PI]], and 0 at the origin. *)
Definition atan2 (y x : R) : R :=
  if Rlt_dec 0 x then atan (y / x)
  else if Rlt_dec x 0 then
    if Rle_dec 0 y then atan (y / x) + PI else atan (y / x) - PI
  else if Rlt_dec 0 y then PI / 2
  else if Rlt_dec y 0 then - (PI / 2)
  else 0.

Definition dist_vincenty_helper
  (ra1 cos_dec1 sin_dec1 ra2 cos_dec2 sin_dec2 : R) : R :=
  let dra := (ra2 - ra1)%R in
  let cos_dra := cos dra in
  let sin_dra := sin dra in
  let y1 := (cos_dec1 * sin_dra)%R in
  let y2 := (cos_dec2 * sin_dec1 - sin_dec2 * cos_dec1 * cos_dra)%R in
  let y := sqrt (y1 * y1 + y2 * y2) in
  let x := (sin_dec2 * sin_dec1 + cos_dec2 * cos_dec1 * cos_dra)%R in
  let d := atan2 y x in
  d.

(** The angular distance between the point of latitude [dec1] and longitude
    [ra1] and the point [(dec2, ra2)], as every caller obtains it: the
    cosines and sines of the two latitudes go to the helper. *)
Definition vincenty (dec1 ra1 dec2 ra2 : R) : R :=
  dist_vincenty_helper ra1 (cos dec1) (sin dec1) ra2 (cos dec2) (sin dec2).

(** A latitude lies between the two poles. *)
Definition latitude (dec : R) : Prop := (- (PI / 2) <= dec <= PI / 2)%R.

(** Two longitudes that are equal modulo [2 * PI]. *)
Definition same_longitude (ra1 ra2 : R) : Prop :=
  exists k : Z, (ra2 - ra1 = 2 * IZR k * PI)%R.

(** ** BruteForceAssigner *)

(** The outputs of the brute-force functions: [dists], and [areas] when the
    caller passed a non-null pointer. *)
Definition outputs : Type := list R * option (list Z).

(** [if(j == 0 || d < dists[i]) { dists[i] = d; if(areas) areas[i] = j; }] *)
Definition keep_nearest (i j : Z) (d : R) (out : outputs) : option outputs :=
  let store :=
    dists' ← zset out.1 i d;
    match out.2 with
    | None => Some (dists', None)
    | Some areas => areas' ← zset areas i j; Some (dists', Some areas')
    end in
  if j =? 0 then store else
  cur ← zget out.1 i;
  if Rltb d cur then store else Some out.

(** The loop that fills [edge_cos_dec] and [edge_sin_dec] from the first
    [npoint] entries of [points]. *)
Definition precompute_trig (arr : list R) (n : Z) : option (list R * list R) :=
  decs ← mapM (zget arr) (range 0 n 1);
  Some (cos <$> decs, sin <$> decs).

Definition distance_from_points (npix : Z) (posmap : list R) (npoint : Z)
  (points : list R) (dists : list R) (areas : option (list Z))
  : option outputs :=
  '(edge_cos_dec, edge_sin_dec) ← precompute_trig points npoint;
  for_each (fun i out =>
    pix_dec ← zget posmap i;
    pix_ra ← zget posmap (i + npix);
    let pix_cos_dec := cos pix_dec in
    let pix_sin_dec := sin pix_dec in
    for_each (fun j out =>
      edge_ra ← zget points (j + npoint);
      ecd ← zget edge_cos_dec j;
      esd ← zget edge_sin_dec j;
      let dra := (pix_ra - edge_ra)%R in
      let cos_dra := cos dra in
      let sin_dra := sin dra in
      let y1 := (ecd * sin_dra)%R in
      let y2 := (pix_cos_dec * esd - pix_sin_dec * ecd * cos_dra)%R in
      let y := sqrt (y1 * y1 + y2 * y2) in
      let x := (pix_sin_dec * esd + pix_cos_dec * ecd * cos_dra)%R in
      let d := atan2 y x in
      keep_nearest i j d out)
      (range 0 npoint 1) out)
    (range 0 npix 1) (dists, areas).

(** The rows of the separable variant are independent of each other (each
    writes its own pixels only), so the parallel loop over [y] is run here
    in row order. *)
Definition distance_from_points_separable (ny nx : Z) (ypos xpos : list R)
  (npoint : Z) (points : list R) (dists : list R) (areas : option (list Z))
  : option outputs :=
  '(edge_cos_dec, edge_sin_dec) ← precompute_trig points npoint;
  for_each (fun y out =>
    pix_dec ← zget ypos y;
    let pix_cos_dec := cos pix_dec in
    let pix_sin_dec := sin pix_dec in
    for_each (fun x out =>
      pix_ra ← zget xpos x;
      let i := y * nx + x in
      for_each (fun j out =>
        edge_ra ← zget points (j + npoint);
        ecd ← zget edge_cos_dec j;
        esd ← zget edge_sin_dec j;
        let dra := (pix_ra - edge_ra)%R in
        let cos_dra := cos dra in
        let sin_dra := sin dra in
        let y1 := (ecd * sin_dra)%R in
        let y2 := (pix_cos_dec * esd - pix_sin_dec * ecd * cos_dra)%R in
        let wy := sqrt (y1 * y1 + y2 * y2) in
        let wx := (pix_sin_dec * esd + pix_cos_dec * ecd * cos_dra)%R in
        let d := atan2 wy wx in
        keep_nearest i j d out)
        (range 0 npoint 1) out)
      (range 0 nx 1) out)
    (range 0 ny 1) (dists, areas).

(** The position map of a separable grid: the latitude plane
    [posmap[y*nx+x] = ypos[y]] followed by the longitude plane
    [posmap[ny*nx + y*nx+x] = xpos[x]]. *)
Definition separable_posmap (ypos xpos : list R) : list R :=
  (ypos ≫= fun dec => const dec <$> xpos) ++ (ypos ≫= fun _ => xpos).

(** ** DistanceTransform *)

Definition distance_transform (ny nx : Z) (mask : list Z) (posmap : list R)
  (dists : list R) : option (list R) :=
  let npix := ny * nx in
  edges ← find_edges ny nx mask;
  let n := Z.of_nat (length edges) in
  decs ← mapM (fun e => zget posmap e) edges;
  ras ← mapM (fun e => zget posmap (e + npix)) edges;
  let points := decs ++ ras in
  out ← distance_from_points npix posmap n points dists None;
  for_each (fun i ds => m ← zget mask i; if m =? 0 then zset ds i 0%R else Some ds)
           (range 0 npix 1) out.1.

(** ** WavefrontPropagator: [distance_from_points_treerings_separable] *)

(** The value of an [int] expression whose exact value is [v]: 32 bits,
    two's complement, with wrap-around. *)
Definition int32 (v : Z) : Z :=
  (v + 2147483648) mod 4294967296 - 2147483648.

(** The greatest [int]. *)
Definition int_max : Z := 2147483647.

Arguments int32 : simpl never.

(** The sentinel of an unvisited pixel. *)
Definition unvisited : R := 1e300%R.

(** One execution of the [update] macro, as the history of a run records
    it: the flat index written, the distance that was there, the distance
    and the domain stored, and the two grids right after the write. *)
Record write := Write {
  w_pix : Z;
  w_old : R;
  w_new : R;
  w_dom : Z;
  w_dists : list R;
  w_domains : list Z
}.

(** The variables of the function that change while it runs. A frontier
    buffer ([curr_y]/[curr_x] with [curr_n], [next_y]/[next_x] with
    [next_n]) is the list of its [(y, x)] entries. [st_writes] is not a
    variable of the code: it is the history of the [update]s executed so
    far, oldest first. *)
Record tr_state := TrState {
  st_dists : list R;
  st_domains : list Z;
  st_curr_cap : Z;
  st_curr : list (Z * Z);
  st_next_cap : Z;
  st_next : list (Z * Z);
  st_writes : list write
}.

(** A step either completes or stops at a read or write outside an array;
    both carry the state reached. *)
Inductive run := Ok (s : tr_state) | Fault (s : tr_state).

Fixpoint for_run {I} (body : I -> tr_state -> run) (idx : list I)
  (s : tr_state) : run :=
  match idx with
  | [] => Ok s
  | i :: rest =>
      match body i s with
      | Ok s' => for_run body rest s'
      | Fault s' => Fault s'
      end
  end.

(** How a call ends: the propagation loop left with an empty frontier, the
    bound on the number of passes of this model reached with a frontier
    that is not empty, or a fault. *)
Inductive outcome :=
  | Finished (s : tr_state)
  | OutOfFuel (s : tr_state)
  | Faulted (s : tr_state).

Definition final_state (o : outcome) : tr_state :=
  match o with Finished s | OutOfFuel s | Faulted s => s end.

(** The inputs and the precomputed tables, which do not change during the
    propagation. *)
Record tr_env := TrEnv {
  e_ny : Z;
  e_nx : Z;
  e_xpos : list R;
  e_npoint : Z;
  e_point_pos : list R;
  e_point_cos_dec : list R;
  e_point_sin_dec : list R;
  e_pix_cos_dec : list R;
  e_pix_sin_dec : list R
}.

(** [#define calc_dist(ipoint, y, x)] *)
Definition calc_dist (e : tr_env) (ipoint y x : Z) : option R :=
  ra1 ← zget (e_point_pos e) (ipoint + e_npoint e);
  c1 ← zget (e_point_cos_dec e) ipoint;
  s1 ← zget (e_point_sin_dec e) ipoint;
  ra2 ← zget (e_xpos e) x;
  c2 ← zget (e_pix_cos_dec e) y;
  s2 ← zget (e_pix_sin_dec e) y;
  Some (dist_vincenty_helper ra1 c1 s1 ra2 c2 s2).

(** [#define update(y, x, dist, i)] *)
Definition update (nx : Z) (y x : Z) (dist : R) (i : Z) (s : tr_state) : run :=
  let pix := y * nx + x in
  match zget (st_dists s) pix, zset (st_dists s) pix dist,
        zset (st_domains s) pix i with
  | Some old, Some ds, Some dm =>
      Ok {| st_dists := ds;
            st_domains := dm;
            st_curr_cap := st_curr_cap s;
            st_curr := st_curr s;
            st_next_cap := if Z.of_nat (length (st_next s)) >=? st_next_cap s
                           then st_next_cap s * 2 else st_next_cap s;
            st_next := st_next s ++ [(y, x)];
            st_writes := st_writes s ++ [Write pix old dist i ds dm] |}
  | _, _, _ => Fault s
  end.

(** [#define swap_buffers()] *)
Definition swap_buffers (s : tr_state) : tr_state :=
  {| st_dists := st_dists s;
     st_domains := st_domains s;
     st_curr_cap := st_next_cap s;
     st_curr := st_next s;
     st_next_cap := st_curr_cap s;
     st_next := [];
     st_writes := st_writes s |}.

(** The first loop: [dists[i] = 1e300; domains[i] = -1;] *)
Definition fill_unvisited (i : Z) (s : tr_state) : run :=
  match zset (st_dists s) i unvisited with
  | None => Fault s
  | Some ds =>
      let s' := {| st_dists := ds; st_domains := st_domains s;
                   st_curr_cap := st_curr_cap s; st_curr := st_curr s;
                   st_next_cap := st_next_cap s; st_next := st_next s;
                   st_writes := st_writes s |} in
      match zset (st_domains s) i (-1) with
      | None => Fault s'
      | Some dm =>
          Ok {| st_dists := ds; st_domains := dm;
                st_curr_cap := st_curr_cap s; st_curr := st_curr s;
                st_next_cap := st_next_cap s; st_next := st_next s;
                st_writes := st_writes s |}
      end
  end.

(** The body of the seeding loop. *)
Definition seed (e : tr_env) (point_y point_x : list Z) (i : Z) (s : tr_state)
  : run :=
  match zget point_y i, zget point_x i with
  | Some py, Some px =>
      match calc_dist e i py px with
      | Some dist => update (e_nx e) py px dist i s
      | None => Fault s
      end
  | _, _ => Fault s
  end.

(** [yoffs] and [xoffs], entry by entry. *)
Definition offsets : list (Z * Z) := [(0, -1); (0, 1); (-1, 0); (1, 0)].

(** [if(v < 0) { v += n; } else if(v >= n) { v -= n; }] *)
Definition wrap (v n : Z) : Z :=
  if v <? 0 then v + n else if v >=? n then v - n else v.

(** The body of the loop over the four neighbours of the frontier pixel
    [(y, x)], whose domain is [ipoint]. The distance of the neighbour is
    read at [pix2 = y2*ny+x2], an [int] expression that is widened to
    [inum] once formed. *)
Definition relax (e : tr_env) (y x ipoint : Z) (off : Z * Z) (s : tr_state)
  : run :=
  let y2 := wrap (y + off.1) (e_ny e) in
  let x2 := wrap (x + off.2) (e_nx e) in
  let pix2 := int32 (y2 * e_ny e + x2) in
  match calc_dist e ipoint y2 x2, zget (st_dists s) pix2 with
  | Some cand_dist, Some cur =>
      if Rltb cand_dist cur then update (e_nx e) y2 x2 cand_dist ipoint s
      else Ok s
  | _, _ => Fault s
  end.

(** The body of the loop over the current frontier. *)
Definition visit (e : tr_env) (yx : Z * Z) (s : tr_state) : run :=
  let pix := yx.1 * e_nx e + yx.2 in
  match zget (st_domains s) pix with
  | Some ipoint => for_run (relax e yx.1 yx.2 ipoint) offsets s
  | None => Fault s
  end.

(** [while(curr_n > 0)], for at most [fuel] passes. *)
Fixpoint propagate (e : tr_env) (fuel : nat) (s : tr_state) : outcome :=
  match st_curr s with
  | [] => Finished s
  | _ :: _ =>
      match fuel with
      | O => OutOfFuel s
      | S fuel' =>
          match for_run (visit e) (st_curr s) s with
          | Ok s' => propagate e fuel' (swap_buffers s')
          | Fault s' => Faulted s'
          end
      end
  end.

(** The state on entry: the caller's two output arrays and no buffers. The
    four frontier buffers are allocated before the seeding loop, with
    capacity 1024 each, and nothing refers to them earlier. *)
Definition entry_state (dists : list R) (domains : list Z) : tr_state :=
  {| st_dists := dists; st_domains := domains;
     st_curr_cap := 1024; st_curr := [];
     st_next_cap := 1024; st_next := [];
     st_writes := [] |}.

(** The function. [ny] and [nx] are [int]s, so the bound [ny*nx] of the
    fill loop, [for(inum i = 0; i < ny*nx; i++)], is an [int] product,
    widened once formed. [fuel] bounds the passes of the propagation
    loop. *)
Definition distance_from_points_treerings_separable (ny nx : Z)
  (ypos xpos : list R) (npoint : Z) (point_pos : list R)
  (point_y point_x : list Z) (dists : list R) (domains : list Z)
  (fuel : nat) : outcome :=
  match for_run fill_unvisited (range 0 (int32 (ny * nx)) 1)
          (entry_state dists domains)
  with
  | Fault s => Faulted s
  | Ok s1 =>
      match precompute_trig point_pos npoint, precompute_trig ypos ny with
      | Some (point_cos_dec, point_sin_dec), Some (pix_cos_dec, pix_sin_dec) =>
          let e := {| e_ny := ny; e_nx := nx; e_xpos := xpos;
                      e_npoint := npoint; e_point_pos := point_pos;
                      e_point_cos_dec := point_cos_dec;
                      e_point_sin_dec := point_sin_dec;
                      e_pix_cos_dec := pix_cos_dec;
                      e_pix_sin_dec := pix_sin_dec |} in
          match for_run (seed e point_y point_x) (range 0 npoint 1) s1 with
          | Fault s => Faulted s
          | Ok s2 => propagate e fuel (swap_buffers s2)
          end
      | _, _ => Faulted s1
      end
  end.

(** The two grids are coupled at every pixel of the [ny] x [nx] grid: a
    pixel is unassigned in both or assigned in both, and an assigned pixel
    has the index of a point as its domain. *)
Definition coupled (ny nx npoint : Z) (ds : list R) (dm : list Z) : Prop :=
  forall i, 0 <= i < ny * nx ->
    exists d m, zget ds i = Some d /\ zget dm i = Some m
      /\ (m = -1 <-> d = unvisited) /\ (m <> -1 -> 0 <= m < npoint).

(** A write put its distance and its domain at the same flat index. *)
Definition written_together (w : write) : Prop :=
  zget (w_dists w) (w_pix w) = Some (w_new w)
  /\ zget (w_domains w) (w_pix w) = Some (w_dom w).

(** A write made the distance of its pixel strictly smaller. *)
Definition decreasing_write (w : write) : Prop := (w_new w < w_old w)%R.

(** The pixels of the two frontiers lie in the grid. *)
Definition frontier_in_grid (ny nx : Z) (s : tr_state) : Prop :=
  forall yx, yx ∈ st_curr s ++ st_next s -> 0 <= yx.1 < ny /\ 0 <= yx.2 < nx.

(** ** Notions used in the statements and in the proofs *)

(** [areas[i]], when [areas] is not null. *)
Definition aget (areas : option (list Z)) (i : Z) : option Z :=
  areas ≫= fun a => zget a i.

(** The output arrays have at least [n] entries. *)
Definition covers (n : Z) (out : outputs) : Prop :=
  n <= Z.of_nat (length out.1)
  /\ forall a, out.2 = Some a -> n <= Z.of_nat (length a).

(** Two values of the outputs have arrays of the same lengths, and [areas]
    is null in both or in none. *)
Definition same_shape (out out' : outputs) : Prop :=
  length out'.1 = length out.1
  /\ match out.2, out'.2 with
     | None, None => True
     | Some a, Some a' => length a' = length a
     | _, _ => False
     end.

(** The Vincenty distance between pixel [i] of a position map (latitude
    plane, then longitude plane) and point [j] of a point list (latitudes,
    then longitudes). *)
Definition pixel_point_dist (npix : Z) (posmap : list R) (npoint : Z)
  (points : list R) (i j : Z) : option R :=
  pix_dec ← zget posmap i;
  pix_ra ← zget posmap (i + npix);
  dec ← zget points j;
  ra ← zget points (j + npoint);
  Some (vincenty dec ra pix_dec pix_ra).

(** [d] is the least of the distances [dist_to 0 .. dist_to (npoint-1)],
    and [jmin] the least index whose distance is [d]. *)
Definition nearest (dist_to : Z -> option R) (npoint : Z) (d : R) (jmin : Z)
  : Prop :=
  0 <= jmin < npoint /\ dist_to jmin = Some d
  /\ forall j, 0 <= j < npoint ->
       exists dj, dist_to j = Some dj /\ (d <= dj)%R /\ (j < jmin -> (d < dj)%R).

(** The state a step ended in. *)
Definition run_state (r : run) : tr_state :=
  match r with Ok s | Fault s => s end.

(** Every pixel of the two frontiers has the index of a point as its
    domain. *)
Definition frontier_owned (nx npoint : Z) (s : tr_state) : Prop :=
  forall yx, yx ∈ st_curr s ++ st_next s ->
    exists m, zget (st_domains s) (yx.1 * nx + yx.2) = Some m /\ 0 <= m < npoint.

Definition good_write (ny nx npoint : Z) (w : write) : Prop :=
  coupled ny nx npoint (w_dists w) (w_domains w) /\ written_together w.

(** The invariant of the coupling: the grids are coupled now, they were
    after every write of the history, and the frontiers are owned. *)
Definition coupled_state (ny nx npoint : Z) (s : tr_state) : Prop :=
  coupled ny nx npoint (st_dists s) (st_domains s)
  /\ Forall (good_write ny nx npoint) (st_writes s)
  /\ frontier_owned nx npoint s.

(** Every point has a seed pixel, and it lies in the grid. *)
Definition seeds_in_grid (ny nx npoint : Z) (point_y point_x : list Z) : Prop :=
  forall i, 0 <= i < npoint ->
    exists y x, zget point_y i = Some y /\ zget point_x i = Some x
                /\ 0 <= y < ny /\ 0 <= x < nx.

(** No two points have the same seed pixel. *)
Definition seeds_distinct (npoint : Z) (point_y point_x : list Z) : Prop :=
  forall i j y x, 0 <= i < j -> j < npoint ->
    zget point_y i = Some y -> zget point_x i = Some x ->
    zget point_y j = Some y -> zget point_x j = Some x -> False.

(** The tables of the run on the 2 x 3 grid whose rows are at the latitudes
    1 and 0 and whose columns are at the longitudes [PI], [PI / 2] and 0,
    with one point, at latitude 0 and longitude 0. *)
Definition loop_env : tr_env :=
  TrEnv 2 3 [PI; (PI / 2)%R; 0%R] 1 [0%R; 0%R] [cos 0] [sin 0]
        [cos 1; cos 0] [sin 1; sin 0].

(** The distance from that point to the pixel of column [x] of row 1, the
    row of the equator. *)
Definition loop_dist (x : Z) : R :=
  if x =? 0 then PI else if x =? 1 then (PI / 2)%R else 0%R.

(** What every state of that run satisfies: the grids have their six
    pixels, a pixel of row 1 is unvisited or at its distance from the
    point, and the frontier pixels lie in the grid and belong to the
    point. *)
Definition loop_inv (s : tr_state) : Prop :=
  length (st_dists s) = 6%nat /\ length (st_domains s) = 6%nat
  /\ (forall x, 0 <= x < 3 ->
        zget (st_dists s) (1 * 3 + x) = Some unvisited
        \/ zget (st_dists s) (1 * 3 + x) = Some (loop_dist x))
  /\ forall yx, yx ∈ st_curr s ++ st_next s ->
       0 <= yx.1 < 2 /\ 0 <= yx.2 < 3
       /\ zget (st_domains s) (yx.1 * 3 + yx.2) = Some 0.

(** ** The measure of the propagation on a square grid *)

(** The distances the propagation can store: from a point to a pixel of
    the grid. *)
Definition candidates (e : tr_env) : list R :=
  p ← seqZ 0 (e_npoint e);
  y ← seqZ 0 (e_ny e);
  x ← seqZ 0 (e_nx e);
  option_list (calc_dist e p y x).

(** The number of candidates below a distance, and its sum over a grid:
    the measure that every write of the propagation decreases. *)
Fixpoint rank (cs : list R) (d : R) : nat :=
  match cs with
  | [] => 0
  | v :: cs' => ((if Rltb v d then 1 else 0) + rank cs' d)%nat
  end.

Fixpoint potential (cs : list R) (ds : list R) : nat :=
  match ds with
  | [] => 0
  | d :: ds' => (rank cs d + potential cs ds')%nat
  end.

(** The tables of a run on an [n] x [n] grid give every point a distance
    to every pixel. *)
Definition square_env (n : Z) (e : tr_env) : Prop :=
  e_ny e = n /\ e_nx e = n
  /\ forall p y x, 0 <= p < e_npoint e -> 0 <= y < n -> 0 <= x < n ->
       is_Some (calc_dist e p y x).

(** The grids have their [n * n] pixels, and the pixels of the two
    frontiers lie in the grid and belong to a point. *)
Definition square_inv (n npoint : Z) (s : tr_state) : Prop :=
  n * n <= Z.of_nat (length (st_dists s))
  /\ n * n <= Z.of_nat (length (st_domains s))
  /\ forall yx, yx ∈ st_curr s ++ st_next s ->
       0 <= yx.1 < n /\ 0 <= yx.2 < n
       /\ exists m, zget (st_domains s) (yx.1 * n + yx.2) = Some m
                    /\ 0 <= m < npoint.

(** What a pass of the propagation decreases: the potential of the
    distance grid, plus the pixels waiting in the next frontier. *)
Definition measure (e : tr_env) (s : tr_state) : nat :=
  (potential (candidates e) (st_dists s) + length (st_next s))%nat.

(** ** Notions of the further properties *)

(** ** BoundaryExtractor: [find_edges_labeled] *)

(** [if(labels[i]) push(edges_, capacity, n, i);] (an [int32_t] label is a
    [Z], and only compared). *)
Definition push_if_label (labels : list Z) (i : Z) (e : ivec) : option ivec :=
  l ← zget labels i;
  Some (if negb (l =? 0) then push e i else e).

(** The body of the interior loop of [find_edges_labeled]; [&&] and [||]
    read lazily, left to right. *)
Definition push_if_label_edge (nx : Z) (labels : list Z) (i : Z) (e : ivec)
  : option ivec :=
  l ← zget labels i;
  if l =? 0 then Some e else
  a ← zget labels (i - 1);
  if negb (a =? l) then Some (push e i) else
  b ← zget labels (i + 1);
  if negb (b =? l) then Some (push e i) else
  c ← zget labels (i - nx);
  if negb (c =? l) then Some (push e i) else
  d ← zget labels (i + nx);
  if negb (d =? l) then Some (push e i) else Some e.

Definition find_edges_labeled (ny nx : Z) (labels : list Z) : option (list Z) :=
  let e0 := {| iv_cap := 0x100; iv_items := [] |} in
  e1 ← for_each (push_if_label labels) (range 0 nx 1) e0;
  e2 ← for_each (push_if_label labels) (range ((ny - 1) * nx) (nx * nx) 1) e1;
  e3 ← for_each (push_if_label labels) (range nx (ny * nx) nx) e2;
  e4 ← for_each (push_if_label labels) (range (nx - 1) (ny * nx) nx) e3;
  e5 ← for_each
         (fun y => for_each (fun x => push_if_label_edge nx labels (y * nx + x))
                            (range 1 (nx - 1) 1))
         (range 1 (ny - 1) 1) e4;
  Some (iv_items e5).

(** The label image of a mask: 1 where the mask is 0, and 0 elsewhere. *)
Definition zero_region_labels (mask : list Z) : list Z :=
  (fun m => if m =? 0 then 1 else 0) <$> mask.

(** A 4-neighbour of pixel [i] carries another label than [l]. *)
Definition differs_at (labels : list Z) (l i : Z) : bool :=
  match zget labels i with Some m => negb (m =? l) | None => false end.

Definition has_other_neighbour (nx : Z) (labels : list Z) (l i : Z) : bool :=
  differs_at labels l (i - 1) || differs_at labels l (i + 1)
  || differs_at labels l (i - nx) || differs_at labels l (i + nx).

(** The cosine of the angle between two points of the sphere, by the
    spherical law of cosines. *)
Definition cos_separation (dec1 ra1 dec2 ra2 : R) : R :=
  (sin dec1 * sin dec2 + cos dec1 * cos dec2 * cos (ra2 - ra1))%R.

(** The Vincenty distance between the pixel of row [y] and column [x] of a
    separable grid and point [j] of a point list. *)
Definition grid_point_dist (ypos xpos : list R) (npoint : Z) (points : list R)
  (y x j : Z) : option R :=
  pix_dec ← zget ypos y;
  pix_ra ← zget xpos x;
  dec ← zget points j;
  ra ← zget points (j + npoint);
  Some (vincenty dec ra pix_dec pix_ra).

(** The Vincenty distance between pixel [i] of a position map and the
    pixel that entry [j] of an edge list names. *)
Definition pixel_edge_dist (npix : Z) (posmap : list R) (edges : list Z)
  (i j : Z) : option R :=
  e ← zget edges j;
  pix_dec ← zget posmap i;
  pix_ra ← zget posmap (i + npix);
  dec ← zget posmap e;
  ra ← zget posmap (e + npix);
  Some (vincenty dec ra pix_dec pix_ra).

(** Each frontier buffer holds at most as many entries as the capacity
    kept for it, and the capacities are positive. *)
Definition within_capacity (s : tr_state) : Prop :=
  0 < st_curr_cap s /\ 0 < st_next_cap s
  /\ Z.of_nat (length (st_curr s)) <= st_curr_cap s
  /\ Z.of_nat (length (st_next s)) <= st_next_cap s.

(** Every pixel of the grid is unvisited, with the sentinel as its distance
    and -1 as its domain, or has the index of a point as its domain and the
    distance from that point as its distance; and the pixels of the two
    frontiers lie in the grid and have a point as their domain. *)
Definition sound_state (e : tr_env) (s : tr_state) : Prop :=
  (forall y x, 0 <= y < e_ny e -> 0 <= x < e_nx e ->
     exists d m, zget (st_dists s) (y * e_nx e + x) = Some d
       /\ zget (st_domains s) (y * e_nx e + x) = Some m
       /\ ((m = -1 /\ d = unvisited)
           \/ (0 <= m < e_npoint e /\ calc_dist e m y x = Some d)))
  /\ forall yx, yx ∈ st_curr s ++ st_next s ->
       0 <= yx.1 < e_ny e /\ 0 <= yx.2 < e_nx e
       /\ exists m, zget (st_domains s) (yx.1 * e_nx e + yx.2) = Some m
                    /\ 0 <= m < e_npoint e.

(** From the pixel [yx], whose domain would be [m], the neighbour in the
    direction [off] cannot be improved: its distance is at most its
    distance from point [m]. *)
Definition neighbour_done (e : tr_env) (s : tr_state) (m : Z) (yx off : Z * Z)
  : Prop :=
  let y2 := wrap (yx.1 + off.1) (e_ny e) in
  let x2 := wrap (yx.2 + off.2) (e_nx e) in
  exists cand cur, calc_dist e m y2 x2 = Some cand
    /\ zget (st_dists s) (y2 * e_nx e + x2) = Some cur /\ (cur <= cand)%R.

(** No neighbour of an assigned pixel can be improved from its domain. *)
Definition settled (e : tr_env) (s : tr_state) (yx : Z * Z) : Prop :=
  forall m, zget (st_domains s) (yx.1 * e_nx e + yx.2) = Some m -> m <> -1 ->
    forall off, off ∈ offsets -> neighbour_done e s m yx off.

(** Every pixel of the grid is settled or waits in [pending]. *)
Definition all_settled (e : tr_env) (pending : list (Z * Z)) (s : tr_state)
  : Prop :=
  forall y x, 0 <= y < e_ny e -> 0 <= x < e_nx e ->
    (y, x) ∈ pending \/ settled e s (y, x).

(** From [s] to [s'] the distances did not grow, the pixels whose domain
    changed wait in the next frontier, and the next frontier lost no
    pixel. *)
Definition advances (e : tr_env) (s s' : tr_state) : Prop :=
  (forall k cur, zget (st_dists s) k = Some cur ->
     exists cur', zget (st_dists s') k = Some cur' /\ (cur' <= cur)%R)
  /\ (forall y x, 0 <= y < e_ny e -> 0 <= x < e_nx e ->
        zget (st_domains s') (y * e_nx e + x) = zget (st_domains s) (y * e_nx e + x)
        \/ (y, x) ∈ st_next s')
  /\ forall yx, yx ∈ st_next s -> yx ∈ st_next s'.

(** Some pixel of the grid has a point as its domain. *)
Definition some_assigned (e : tr_env) (s : tr_state) : Prop :=
  exists y x m, 0 <= y < e_ny e /\ 0 <= x < e_nx e
    /\ zget (st_domains s) (y * e_nx e + x) = Some m /\ 0 <= m < e_npoint e.

(** The invariants of a run on an [n] x [n] grid. *)
Definition grid_inv (n : Z) (e : tr_env) (s : tr_state) : Prop :=
  square_inv n (e_npoint e) s /\ sound_state e s.

(** What holds between two passes of a run on an [n] x [n] grid. *)
Definition between_passes (n : Z) (e : tr_env) (s : tr_state) : Prop :=
  grid_inv n e s /\ st_next s = [] /\ all_settled e (st_curr s) s
  /\ some_assigned e s.

(** * Properties *)

(** ** Arrays and loops *)

Lemma zget_Some {A} (l : list A) i v :
  zget l i = Some v <-> 0 <= i /\ l !! Z.to_nat i = Some v.
Proof.
  unfold zget. destruct (Z.ltb_spec i 0); split.
  - done.
  - intros [? _]; lia.
  - intros; split; [lia|done].
  - by intros [_ ?].
Qed.

Lemma zget_bounds {A} (l : list A) i v :
  zget l i = Some v -> 0 <= i < Z.of_nat (length l).
Proof.
  intros [? H]%zget_Some. apply lookup_lt_Some in H. lia.
Qed.

Lemma zget_is_Some {A} (l : list A) i :
  0 <= i < Z.of_nat (length l) -> exists v, zget l i = Some v.
Proof.
  intros Hi. destruct (lookup_lt_is_Some_2 l (Z.to_nat i)) as [v Hv]; [lia|].
  exists v. apply zget_Some. split; [lia|done].
Qed.

Lemma zget_None {A} (l : list A) i :
  zget l i = None <-> i < 0 \/ Z.of_nat (length l) <= i.
Proof.
  unfold zget. destruct (Z.ltb_spec i 0); [split; [by left|done]|].
  rewrite lookup_ge_None. lia.
Qed.

Lemma zset_Some {A} (l : list A) i v l' :
  zset l i v = Some l' <->
  0 <= i < Z.of_nat (length l) /\ l' = <[Z.to_nat i := v]> l.
Proof.
  unfold zset.
  destruct (Z.leb_spec 0 i), (Z.ltb_spec i (Z.of_nat (length l))); simpl;
    split; try done; try (intros [? _]; lia).
  - intros [= <-]. done.
  - by intros [_ ->].
Qed.

Lemma zset_is_Some {A} (l : list A) i v :
  0 <= i < Z.of_nat (length l) -> zset l i v = Some (<[Z.to_nat i := v]> l).
Proof. intros. by apply zset_Some. Qed.

Lemma zset_None {A} (l : list A) i v :
  zset l i v = None <-> i < 0 \/ Z.of_nat (length l) <= i.
Proof.
  unfold zset.
  destruct (Z.leb_spec 0 i), (Z.ltb_spec i (Z.of_nat (length l))); simpl;
    split; try done; lia.
Qed.

Lemma zset_length {A} (l : list A) i v l' :
  zset l i v = Some l' -> length l' = length l.
Proof. intros [_ ->]%zset_Some. apply length_insert. Qed.

Lemma zget_zset_eq {A} (l : list A) i v l' :
  zset l i v = Some l' -> zget l' i = Some v.
Proof.
  intros [? ->]%zset_Some. apply zget_Some. split; [lia|].
  apply list_lookup_insert_eq. lia.
Qed.

Lemma zget_zset_ne {A} (l : list A) i j v l' :
  zset l i v = Some l' -> i <> j -> zget l' j = zget l j.
Proof.
  intros [? ->]%zset_Some Hne. unfold zget.
  destruct (Z.ltb_spec j 0); [done|].
  apply list_lookup_insert_ne. lia.
Qed.

Lemma for_each_app {I S} (body : I -> S -> option S) l1 l2 s :
  for_each body (l1 ++ l2) s = for_each body l1 s ≫= for_each body l2.
Proof.
  revert s. induction l1 as [|i l1 IH]; intros s; simpl; [done|].
  destruct (body i s); simpl; [apply IH|done].
Qed.

Lemma for_each_ext {I S} (f g : I -> S -> option S) l s :
  (forall i s, i ∈ l -> f i s = g i s) -> for_each f l s = for_each g l s.
Proof.
  revert s. induction l as [|i l IH]; intros s H; simpl; [done|].
  rewrite H by (by left). destruct (g i s); [|done].
  apply IH. intros. apply H. by right.
Qed.

Lemma for_each_fmap {I J S} (h : J -> I) (body : I -> S -> option S) l s :
  for_each body (h <$> l) s = for_each (fun j => body (h j)) l s.
Proof.
  revert s. induction l as [|i l IH]; intros s; simpl; [done|].
  destruct (body (h i) s); [apply IH|done].
Qed.

Lemma range_from_step1 fuel i stop :
  (Z.to_nat (stop - i) <= fuel)%nat -> range_from fuel i stop 1 = seqZ i (stop - i).
Proof.
  revert i. induction fuel as [|f IH]; intros i Hf; simpl.
  - rewrite seqZ_nil; [done|lia].
  - destruct (Z.ltb_spec i stop).
    + rewrite (seqZ_cons i) by lia. f_equal.
      rewrite IH by lia. f_equal. lia.
    + rewrite seqZ_nil; [done|lia].
Qed.

Lemma range_step1 a b : range a b 1 = seqZ a (b - a).
Proof. apply range_from_step1. lia. Qed.

Lemma range_0 n : range 0 n 1 = seqZ 0 n.
Proof. rewrite range_step1. f_equal. lia. Qed.

Lemma range_from_bounds fuel i stop step k :
  0 <= step -> k ∈ range_from fuel i stop step -> i <= k < stop.
Proof.
  intros Hs. revert i. induction fuel as [|f IH]; intros i; simpl.
  - by intros ?%elem_of_nil.
  - destruct (Z.ltb_spec i stop); [|by intros ?%elem_of_nil].
    intros [->|Hk%IH]%elem_of_cons; lia.
Qed.

Lemma range_bounds a b step k : 0 <= step -> k ∈ range a b step -> a <= k < b.
Proof. apply range_from_bounds. Qed.

(** [range] visits exactly the indices of the C loop: with a positive
    step, the rounds it allows are enough to reach [stop]. *)
Lemma range_from_elem fuel i stop step k :
  0 < step -> (Z.to_nat (stop - i) <= fuel)%nat ->
  k ∈ range_from fuel i stop step <->
  exists n, 0 <= n /\ k = i + n * step /\ k < stop.
Proof.
  intros Hs. revert i. induction fuel as [|f IH]; intros i Hf; simpl.
  - split; [by intros ?%elem_of_nil|]. intros (n & Hn & -> & Hlt). nia.
  - destruct (Z.ltb_spec i stop) as [Hlt|Hge].
    + rewrite elem_of_cons, IH by lia. split.
      * intros [->|(n & Hn & -> & Hk)]; [exists 0; lia|].
        exists (n + 1). lia.
      * intros (n & Hn & -> & Hk).
        destruct (Z.eq_dec n 0) as [->|Hne]; [left; lia|right].
        exists (n - 1). lia.
    + split; [by intros ?%elem_of_nil|]. intros (n & Hn & -> & Hlt). nia.
Qed.

Lemma range_elem a b step k :
  0 < step ->
  k ∈ range a b step <-> exists n, 0 <= n /\ k = a + n * step /\ k < b.
Proof. intros Hs. apply range_from_elem; [done|lia]. Qed.

(** A loop over [0 .. n-1] keeps an invariant indexed by the number of
    rounds done, and does not fault when no round does. *)
Lemma for_each_range_inv {St} (body : Z -> St -> option St) (P : Z -> St -> Prop)
  n s :
  0 <= n -> P 0 s ->
  (forall k s, 0 <= k < n -> P k s -> exists s', body k s = Some s' /\ P (k + 1) s') ->
  exists s', for_each body (range 0 n 1) s = Some s' /\ P n s'.
Proof.
  intros Hn H0 Hstep. rewrite range_0.
  rewrite <- (Z2Nat.id n Hn) in *. generalize dependent (Z.to_nat n).
  clear n Hn. intros n Hstep. induction n as [|n IH].
  - exists s. by rewrite seqZ_nil.
  - destruct IH as (s1 & H1 & HP1); [intros; apply Hstep; [lia|done]|].
    destruct (Hstep (Z.of_nat n) s1) as (s2 & H2 & HP2); [lia|done|].
    exists s2. rewrite seqZ_S, for_each_app, H1, Z.add_0_l. simpl. rewrite H2.
    split; [done|]. by replace (Z.of_nat (S n)) with (Z.of_nat n + 1) by lia.
Qed.

(** ** Brute force *)

Lemma same_shape_refl out : same_shape out out.
Proof. split; [done|]. by destruct out.2. Qed.

Lemma same_shape_trans o1 o2 o3 :
  same_shape o1 o2 -> same_shape o2 o3 -> same_shape o1 o3.
Proof.
  intros [H1 H2] [H3 H4]. split; [congruence|].
  destruct o1.2, o2.2, o3.2; try done. congruence.
Qed.

Lemma covers_same_shape n o1 o2 : same_shape o1 o2 -> covers n o1 -> covers n o2.
Proof.
  intros [H1 H2] [H3 H4]. split; [lia|]. intros a' Ha'.
  rewrite Ha' in H2. destruct o1.2 as [a|] eqn:E; [|done].
  specialize (H4 a eq_refl). lia.
Qed.

Lemma Rltb_true a b : Rltb a b = true <-> (a < b)%R.
Proof. unfold Rltb. destruct (Rlt_dec a b); split; intros; done. Qed.

Lemma Rltb_false a b : Rltb a b = false <-> (b <= a)%R.
Proof. unfold Rltb. destruct (Rlt_dec a b); split; intros; try done; lra. Qed.

Lemma keep_nearest_ok i j d out :
  0 <= i -> covers (i + 1) out ->
  exists out', keep_nearest i j d out = Some out' /\ same_shape out out'
    /\ (forall i', i' <> i ->
          zget out'.1 i' = zget out.1 i' /\ aget out'.2 i' = aget out.2 i')
    /\ ((j = 0 \/ exists cur, zget out.1 i = Some cur /\ (d < cur)%R)
        /\ zget out'.1 i = Some d
        /\ (out'.2 <> None -> aget out'.2 i = Some j)
        \/ j <> 0 /\ out' = out
           /\ exists cur, zget out.1 i = Some cur /\ (cur <= d)%R).
Proof.
  intros Hi [Hc1 Hc2]. destruct out as [ds ar]. simpl in *.
  assert (Hstore : exists out',
    (dists' ← zset ds i d;
     match ar with
     | None => Some (dists', None)
     | Some areas => areas' ← zset areas i j; Some (dists', Some areas')
     end) = Some out' /\ same_shape (ds, ar) out'
    /\ (forall i', i' <> i ->
          zget out'.1 i' = zget ds i' /\ aget out'.2 i' = aget ar i')
    /\ zget out'.1 i = Some d /\ (out'.2 <> None -> aget out'.2 i = Some j)).
  { rewrite zset_is_Some by lia. simpl. destruct ar as [a|].
    - specialize (Hc2 a eq_refl). rewrite zset_is_Some by lia. simpl.
      eexists. split; [done|]. unfold same_shape. simpl.
      rewrite !length_insert. repeat split; try done.
      + by apply zget_zset_ne with i d; [apply zset_is_Some; lia|].
      + by apply zget_zset_ne with i j; [apply zset_is_Some; lia|].
      + apply zget_zset_eq with ds. apply zset_is_Some; lia.
      + intros _. apply zget_zset_eq with a. apply zset_is_Some; lia.
    - eexists. split; [done|]. unfold same_shape. simpl.
      rewrite !length_insert. repeat split; try done.
      + by apply zget_zset_ne with i d; [apply zset_is_Some; lia|].
      + apply zget_zset_eq with ds. apply zset_is_Some; lia. }
  unfold keep_nearest. cbv zeta. cbn [fst snd]. destruct (Z.eqb_spec j 0) as [->|Hj].
  - destruct Hstore as (out' & ? & ? & ? & ? & ?). exists out'.
    do 3 (split; [done|]). left. split; [by left|done].
  - destruct (zget_is_Some ds i) as [cur Hcur]; [lia|]. rewrite Hcur. cbn [mbind option_bind].
    destruct (Rltb d cur) eqn:Hlt.
    + destruct Hstore as (out' & ? & ? & ? & ? & ?). exists out'.
      do 3 (split; [done|]). left. split; [|done].
      right. exists cur. split; [done|]. by apply Rltb_true.
    + exists (ds, ar). split; [done|]. split; [apply same_shape_refl|].
      split; [done|]. right. do 2 (split; [done|]).
      exists cur. split; [done|]. by apply Rltb_false.
Qed.

Lemma precompute_trig_Some arr n cs sn :
  precompute_trig arr n = Some (cs, sn) ->
  forall j, 0 <= j < n ->
    exists v, zget arr j = Some v /\ zget cs j = Some (cos v)
              /\ zget sn j = Some (sin v).
Proof.
  unfold precompute_trig. rewrite range_0.
  destruct (mapM (zget arr) (seqZ 0 n)) as [decs|] eqn:Hm; [|done].
  simpl. intros [= <- <-] j Hj. apply mapM_Some_1 in Hm.
  destruct (Forall2_lookup_l _ _ _ (Z.to_nat j) j Hm) as (v & Hv & Hz).
  { rewrite lookup_seqZ_lt by lia. f_equal. lia. }
  exists v. split; [done|].
  split; apply zget_Some; (split; [lia|]); by rewrite list_lookup_fmap, Hv.
Qed.

Lemma precompute_trig_is_Some arr n :
  n <= Z.of_nat (length arr) -> is_Some (precompute_trig arr n).
Proof.
  intros Hn. unfold precompute_trig.
  destruct (mapM_is_Some_2 (zget arr) (range 0 n 1)) as [decs ->]; [|done].
  apply list.Forall_forall. intros j Hj%range_bounds; [|lia].
  destruct (zget_is_Some arr j) as [v Hv]; [lia|]. simpl. by rewrite Hv.
Qed.

Lemma for_each_unchanged {I St} (body : I -> St -> option St) l s s' :
  (forall i t t', i ∈ l -> body i t = Some t' -> t' = t) ->
  for_each body l s = Some s' -> s' = s.
Proof.
  revert s. induction l as [|i l IH]; intros s Hb; simpl; [congruence|].
  destruct (body i s) as [t|] eqn:E; [|done]. intros H.
  apply Hb in E as ->; [|by left]. apply IH; [|done].
  intros. eapply Hb; [by right|done].
Qed.

Lemma for_each_all_Some {I St} (body : I -> St -> option St) l s :
  (forall i, i ∈ l -> body i s = Some s) -> for_each body l s = Some s.
Proof.
  induction l as [|i l IH]; intros Hb; simpl; [done|].
  rewrite Hb by (by left). apply IH. intros. apply Hb. by right.
Qed.

(** The scan over the points, for one pixel. *)
Lemma nearest_loop i npoint (body : Z -> outputs -> option outputs)
  (dist_to : Z -> option R) out0 :
  0 <= i -> covers (i + 1) out0 -> 1 <= npoint ->
  (forall j out, 0 <= j < npoint ->
     exists d, dist_to j = Some d /\ body j out = keep_nearest i j d out) ->
  exists out', for_each body (range 0 npoint 1) out0 = Some out'
    /\ same_shape out0 out'
    /\ (forall i', i' <> i ->
          zget out'.1 i' = zget out0.1 i' /\ aget out'.2 i' = aget out0.2 i')
    /\ exists d jmin, zget out'.1 i = Some d /\ nearest dist_to npoint d jmin
         /\ (out'.2 <> None -> aget out'.2 i = Some jmin).
Proof.
  intros Hi Hcov Hn Hbody.
  set (P := fun (k : Z) (out : outputs) =>
    same_shape out0 out
    /\ (forall i', i' <> i ->
          zget out.1 i' = zget out0.1 i' /\ aget out.2 i' = aget out0.2 i')
    /\ (k = 0 \/ exists d jmin, zget out.1 i = Some d /\ nearest dist_to k d jmin
         /\ (out.2 <> None -> aget out.2 i = Some jmin))).
  destruct (for_each_range_inv body P npoint out0) as (out' & Hrun & HP).
  - lia.
  - split; [apply same_shape_refl|]. split; [done|]. by left.
  - intros k out Hk (Hsh & Hfr & Hnear).
    destruct (Hbody k out Hk) as (d & Hd & ->).
    destruct (keep_nearest_ok i k d out Hi) as (out' & Hkn & Hsh' & Hfr' & Hcase).
    { by apply covers_same_shape with out0. }
    exists out'. split; [done|]. split; [by apply same_shape_trans with out|].
    split.
    { intros i' Hi'. destruct (Hfr i' Hi'), (Hfr' i' Hi'). split; congruence. }
    right. destruct Hcase as [(Hwhy & Hnew & Har)|(Hk0 & -> & cur & Hcur & Hle)].
    + exists d, k. split; [done|]. split; [|done].
      split; [lia|]. split; [done|]. intros j Hj.
      destruct (Z.eq_dec j k) as [->|Hne].
      { exists d. split; [done|]. split; [lra|lia]. }
      destruct Hwhy as [->|(cur & Hcur & Hlt)]; [lia|].
      destruct Hnear as [->|(d0 & j0 & Hd0 & (_ & _ & Hall) & _)]; [lia|].
      destruct (Hall j) as (dj & Hdj & Hle & _); [lia|].
      exists dj. split; [done|]. assert (d0 = cur) by congruence. subst.
      split; [lra|intros; lra].
    + destruct Hnear as [->|(d0 & j0 & Hd0 & (Hj0 & Hdj0 & Hall) & Har)]; [done|].
      exists d0, j0. split; [done|]. split; [|done].
      split; [lia|]. split; [done|]. intros j Hj.
      destruct (Z.eq_dec j k) as [->|Hne].
      { exists d. split; [done|]. assert (d0 = cur) by congruence. subst.
        split; [lra|lia]. }
      apply Hall. lia.
  - exists out'. destruct HP as (? & ? & [->|?]); [lia|done].
Qed.

Lemma distance_from_points_body npix posmap npoint points cs sn i pd pra :
  precompute_trig points npoint = Some (cs, sn) ->
  2 * npoint <= Z.of_nat (length points) ->
  zget posmap i = Some pd -> zget posmap (i + npix) = Some pra ->
  forall j out, 0 <= j < npoint ->
    exists d, pixel_point_dist npix posmap npoint points i j = Some d /\
      (edge_ra ← zget points (j + npoint);
       ecd ← zget cs j;
       esd ← zget sn j;
       let dra := (pra - edge_ra)%R in
       let cos_dra := cos dra in
       let sin_dra := sin dra in
       let y1 := (ecd * sin_dra)%R in
       let y2 := (cos pd * esd - sin pd * ecd * cos_dra)%R in
       let y := sqrt (y1 * y1 + y2 * y2) in
       let x := (sin pd * esd + cos pd * ecd * cos_dra)%R in
       let d := atan2 y x in
       keep_nearest i j d out) = keep_nearest i j d out.
Proof.
  intros Hpre Hlen Hpd Hpra j out Hj.
  destruct (precompute_trig_Some _ _ _ _ Hpre j Hj) as (dec & Hdec & Hc & Hs).
  destruct (zget_is_Some points (j + npoint)) as [ra Hra]; [lia|].
  exists (vincenty dec ra pd pra). unfold pixel_point_dist.
  rewrite Hpd, Hpra, Hdec, Hra, Hc, Hs. done.
Qed.

(** C1. For [npix >= 1] pixels and [npoint >= 1] points,
    [distance_from_points] returns normally and leaves in [dists[i]], for
    every pixel [i], the least Vincenty distance from pixel [i] to a point,
    and in [areas[i]] (when [areas] is not null) the least index of a point
    at that distance. *)
Theorem distance_from_points_nearest npix posmap npoint points dists areas :
  1 <= npix -> 1 <= npoint ->
  2 * npix <= Z.of_nat (length posmap) ->
  2 * npoint <= Z.of_nat (length points) ->
  npix <= Z.of_nat (length dists) ->
  (forall a, areas = Some a -> npix <= Z.of_nat (length a)) ->
  exists dists' areas',
    distance_from_points npix posmap npoint points dists areas
      = Some (dists', areas')
    /\ (areas' = None <-> areas = None)
    /\ forall i, 0 <= i < npix ->
         exists d jmin, zget dists' i = Some d
           /\ nearest (pixel_point_dist npix posmap npoint points i) npoint d jmin
           /\ forall a', areas' = Some a' -> zget a' i = Some jmin.
Proof.
  intros Hnpix Hnpoint Hpm Hpts Hds Har. unfold distance_from_points.
  destruct (precompute_trig_is_Some points npoint) as [[cs sn] Hpre]; [lia|].
  rewrite Hpre. cbn [mbind option_bind].
  set (body := fun (i : Z) (out : outputs) => _).
  set (P := fun (m : Z) (out : outputs) =>
    same_shape (dists, areas) out
    /\ forall i, 0 <= i < m ->
         exists d jmin, zget out.1 i = Some d
           /\ nearest (pixel_point_dist npix posmap npoint points i) npoint d jmin
           /\ (out.2 <> None -> aget out.2 i = Some jmin)).
  destruct (for_each_range_inv body P npix (dists, areas)) as (out' & Hrun & Hsh & HP).
  - lia.
  - split; [apply same_shape_refl|]. intros; lia.
  - intros i out Hi (Hsh & Hres). subst body. cbv beta.
    destruct (zget_is_Some posmap i) as [pd Hpd]; [lia|].
    destruct (zget_is_Some posmap (i + npix)) as [pra Hpra]; [lia|].
    rewrite Hpd, Hpra. cbn [mbind option_bind].
    destruct (nearest_loop i npoint
      (fun j out =>
         edge_ra ← zget points (j + npoint);
         ecd ← zget cs j;
         esd ← zget sn j;
         let dra := (pra - edge_ra)%R in
         let cos_dra := cos dra in
         let sin_dra := sin dra in
         let y1 := (ecd * sin_dra)%R in
         let y2 := (cos pd * esd - sin pd * ecd * cos_dra)%R in
         let y := sqrt (y1 * y1 + y2 * y2) in
         let x := (sin pd * esd + cos pd * ecd * cos_dra)%R in
         let d := atan2 y x in
         keep_nearest i j d out)
      (pixel_point_dist npix posmap npoint points i) out)
      as (out' & Hrun & Hsh' & Hfr & Hnew); [lia| |lia| |].
    { apply covers_same_shape with (dists, areas); [done|].
      split; simpl; [lia|]. intros a Ha. specialize (Har a Ha). lia. }
    { by apply distance_from_points_body. }
    exists out'. split; [done|]. split; [by apply same_shape_trans with out|].
    intros i' Hi'. destruct (Z.eq_dec i' i) as [->|Hne]; [done|].
    destruct (Hres i') as (d & jmin & Hd & Hnear & Ha); [lia|].
    destruct (Hfr i' Hne) as [E1 E2]. exists d, jmin.
    split; [congruence|]. split; [done|]. intros Hsome. rewrite E2. apply Ha.
    destruct Hsh' as [_ Hsh']. destruct out.2, out'.2; done.
  - destruct out' as [dists' areas']. exists dists', areas'.
    split; [done|]. destruct Hsh as [_ Hsh]. simpl in *. split.
    + destruct areas, areas'; done.
    + intros i Hi. destruct (HP i Hi) as (d & jmin & Hd & Hnear & Ha).
      exists d, jmin. split; [done|]. split; [done|].
      intros a' ->. by apply Ha.
Qed.

Lemma distance_from_points_nearest_witness :
  exists dists' areas',
    distance_from_points 2 [0%R; 0%R; 0%R; 1%R] 3
      [0%R; 0%R; 0%R; 1%R; 0%R; 1%R] [5%R; 5%R] (Some [7; 7])
      = Some (dists', areas')
    /\ (areas' = None <-> Some [7; 7] = None)
    /\ forall i, 0 <= i < 2 ->
         exists d jmin, zget dists' i = Some d
           /\ nearest (pixel_point_dist 2 [0%R; 0%R; 0%R; 1%R] 3
                         [0%R; 0%R; 0%R; 1%R; 0%R; 1%R] i) 3 d jmin
           /\ forall a', areas' = Some a' -> zget a' i = Some jmin.
Proof.
  apply distance_from_points_nearest; simpl; try lia.
  intros a [= <-]. simpl. lia.
Defined.

Lemma distance_from_points_zero_points npix posmap points dists areas :
  2 * npix <= Z.of_nat (length posmap) ->
  distance_from_points npix posmap 0 points dists areas = Some (dists, areas).
Proof.
  intros Hlen. unfold distance_from_points.
  assert (Hpre : precompute_trig points 0 = Some ([], [])) by done.
  rewrite Hpre. cbn [mbind option_bind].
  apply for_each_all_Some. intros i Hi%range_bounds; [|lia].
  destruct (zget_is_Some posmap i) as [pd ->]; [lia|].
  destruct (zget_is_Some posmap (i + npix)) as [pra ->]; [lia|]. done.
Qed.

(** C10. With [npoint = 0], [distance_from_points] writes nothing: whenever
    it returns, [dists] and [areas] are the arrays the caller passed, and it
    does return when the position map has its [2 * npix] entries. *)
Theorem distance_from_points_no_points npix posmap points dists areas :
  (forall out, distance_from_points npix posmap 0 points dists areas = Some out ->
     out = (dists, areas))
  /\ (2 * npix <= Z.of_nat (length posmap) ->
      distance_from_points npix posmap 0 points dists areas
        = Some (dists, areas)).
Proof.
  split; [|apply distance_from_points_zero_points].
  unfold distance_from_points.
  assert (Hpre : precompute_trig points 0 = Some ([], [])) by done.
  rewrite Hpre. cbn [mbind option_bind].
  intros out. apply for_each_unchanged. intros i t t' _.
  destruct (zget posmap i); [|done]. destruct (zget posmap (i + npix)); [|done].
  simpl. congruence.
Qed.

Lemma distance_from_points_no_points_witness :
  distance_from_points 2 [0%R; 0%R; 0%R; 0%R] 0 [] [5%R; 6%R] None
    = Some ([5%R; 6%R], None).
Proof.
  apply (proj2 (distance_from_points_no_points 2 [0%R; 0%R; 0%R; 0%R] []
                  [5%R; 6%R] None)).
  simpl. lia.
Defined.

(** ** The separable variant *)

Lemma bind_rows_lookup {A B} (f : A -> list B) (n : nat) (l : list A) y x :
  (forall a, length (f a) = n) -> (x < n)%nat ->
  (l ≫= f) !! (y * n + x)%nat = l !! y ≫= fun a => f a !! x.
Proof.
  intros Hlen Hx. revert y. induction l as [|a l IH]; intros y; [done|].
  rewrite bind_cons. destruct y as [|y]; simpl.
  - rewrite lookup_app_l by (rewrite Hlen; lia). done.
  - rewrite lookup_app_r by (rewrite Hlen; lia). rewrite Hlen.
    replace (n + y * n + x - n)%nat with (y * n + x)%nat by lia. apply IH.
Qed.

Lemma length_bind_rows {A B} (f : A -> list B) (n : nat) (l : list A) :
  (forall a, length (f a) = n) -> length (l ≫= f) = (length l * n)%nat.
Proof.
  intros Hlen. induction l as [|a l IH]; [done|].
  rewrite bind_cons, length_app, Hlen, IH. simpl. lia.
Qed.

Lemma separable_posmap_lat ypos xpos y x :
  0 <= y < Z.of_nat (length ypos) -> 0 <= x < Z.of_nat (length xpos) ->
  zget (separable_posmap ypos xpos) (y * Z.of_nat (length xpos) + x)
    = zget ypos y.
Proof.
  intros Hy Hx. unfold separable_posmap.
  destruct (zget_is_Some ypos y Hy) as [dec Hdec]. rewrite Hdec.
  apply zget_Some in Hdec as [_ Hdec]. apply zget_Some. split; [nia|].
  replace (Z.to_nat (y * Z.of_nat (length xpos) + x))
    with (Z.to_nat y * length xpos + Z.to_nat x)%nat by nia.
  rewrite lookup_app_l.
  - rewrite (bind_rows_lookup _ (length xpos)); [|intros; apply length_fmap|lia].
    rewrite Hdec. simpl. rewrite list_lookup_fmap.
    destruct (lookup_lt_is_Some_2 xpos (Z.to_nat x)) as [v ->]; [lia|done].
  - rewrite (length_bind_rows _ (length xpos)); [|intros; apply length_fmap].
    apply lookup_lt_Some in Hdec. nia.
Qed.

Lemma separable_posmap_lon ypos xpos y x :
  0 <= y < Z.of_nat (length ypos) -> 0 <= x < Z.of_nat (length xpos) ->
  zget (separable_posmap ypos xpos)
       (y * Z.of_nat (length xpos) + x
        + Z.of_nat (length ypos) * Z.of_nat (length xpos))
    = zget xpos x.
Proof.
  intros Hy Hx. unfold separable_posmap.
  destruct (zget_is_Some xpos x Hx) as [ra Hra]. rewrite Hra.
  destruct (zget_is_Some ypos y Hy) as [dec Hdec].
  apply zget_Some in Hdec as [_ Hdec]. apply zget_Some in Hra as [_ Hra].
  apply zget_Some. split; [nia|].
  replace (Z.to_nat (y * Z.of_nat (length xpos) + x
                     + Z.of_nat (length ypos) * Z.of_nat (length xpos)))
    with (length ypos * length xpos + (Z.to_nat y * length xpos + Z.to_nat x))%nat
    by nia.
  rewrite lookup_app_r;
    rewrite (length_bind_rows _ (length xpos)); try (intros; apply length_fmap);
    [|lia].
  replace (length ypos * length xpos + (Z.to_nat y * length xpos + Z.to_nat x)
           - length ypos * length xpos)%nat
    with (Z.to_nat y * length xpos + Z.to_nat x)%nat by lia.
  rewrite (bind_rows_lookup _ (length xpos)); [|done|lia].
  by rewrite Hdec.
Qed.

(** C5. On a separable grid, [distance_from_points_separable] computes what
    [distance_from_points] computes for the [ny * nx] pixels of the position
    map of the grid: the same [dists], the same [areas], and a fault in the
    one exactly when in the other. *)
Theorem distance_from_points_separable_refines
  ny nx ypos xpos npoint points dists areas :
  Z.of_nat (length ypos) = ny -> Z.of_nat (length xpos) = nx ->
  distance_from_points_separable ny nx ypos xpos npoint points dists areas
  = distance_from_points (ny * nx) (separable_posmap ypos xpos) npoint points
      dists areas.
Proof.
  intros Hny Hnx. unfold distance_from_points_separable, distance_from_points.
  destruct (precompute_trig points npoint) as [[cs sn]|]; [|done].
  cbn [mbind option_bind].
  set (row := fun (y : Z) (out : outputs) => _).
  set (flat := fun (i : Z) (out : outputs) => _).
  assert (Hrow : forall y out, 0 <= y < ny ->
            for_each flat (seqZ (y * nx) nx) out = row y out).
  { intros y out Hy. replace (y * nx) with (y * nx + 0) by lia.
    rewrite <- fmap_add_seqZ, for_each_fmap. subst row flat. cbv beta.
    destruct (zget_is_Some ypos y) as [pd Hpd]; [lia|].
    rewrite Hpd. cbn [mbind option_bind]. rewrite (range_0 nx).
    apply for_each_ext. intros x out' Hx%elem_of_seqZ.
    rewrite <- Hny, <- Hnx.
    rewrite separable_posmap_lat, Hpd by lia. cbn [mbind option_bind].
    rewrite separable_posmap_lon by lia. done. }
  rewrite (range_0 ny), (range_0 (ny * nx)).
  assert (Hrows : forall k : nat, Z.of_nat k <= ny -> forall out,
            for_each flat (seqZ 0 (Z.of_nat k * nx)) out
            = for_each row (seqZ 0 (Z.of_nat k)) out).
  { intros k. induction k as [|k IH]; intros Hk out.
    - by rewrite !seqZ_nil by lia.
    - replace (Z.of_nat (S k) * nx) with (Z.of_nat k * nx + nx) by lia.
      rewrite seqZ_app, seqZ_S, !for_each_app by lia.
      rewrite IH by lia. destruct (for_each row (seqZ 0 (Z.of_nat k)) out) as [out1|];
        [|done].
      cbn [mbind option_bind]. rewrite !Z.add_0_l, Hrow by lia.
      simpl. by destruct (row (Z.of_nat k) out1). }
  symmetry. rewrite <- Hny at 1 2. apply Hrows. lia.
Qed.

Lemma distance_from_points_separable_refines_witness :
  distance_from_points_separable 1 2 [0%R] [0%R; 1%R] 1 [0%R; 0%R]
    [5%R; 6%R] None
  = distance_from_points (1 * 2) (separable_posmap [0%R] [0%R; 1%R]) 1
      [0%R; 0%R] [5%R; 6%R] None.
Proof. by apply distance_from_points_separable_refines. Defined.

(** ** [find_edges] and [distance_transform] on a mask without zeros *)

Lemma push_if_zero_nonzero mask i e :
  Forall (fun m => m <> 0) mask -> 0 <= i < Z.of_nat (length mask) ->
  push_if_zero mask i e = Some e.
Proof.
  intros Hall Hi. unfold push_if_zero.
  destruct (zget_is_Some mask i Hi) as [m Hm]. rewrite Hm. simpl.
  apply zget_Some in Hm as [_ Hm]. apply list_elem_of_lookup_2 in Hm.
  pose proof (proj1 (list.Forall_forall _ _) Hall m Hm) as Hne.
  by destruct (Z.eqb_spec m 0).
Qed.

Lemma push_if_interior_edge_nonzero nx mask i e :
  Forall (fun m => m <> 0) mask -> 0 <= i < Z.of_nat (length mask) ->
  push_if_interior_edge nx mask i e = Some e.
Proof.
  intros Hall Hi. unfold push_if_interior_edge.
  destruct (zget_is_Some mask i Hi) as [m Hm]. rewrite Hm. simpl.
  apply zget_Some in Hm as [_ Hm]. apply list_elem_of_lookup_2 in Hm.
  pose proof (proj1 (list.Forall_forall _ _) Hall m Hm) as Hne.
  by destruct (Z.eqb_spec m 0).
Qed.

Lemma find_edges_no_zero ny nx mask :
  1 <= nx <= ny -> Z.of_nat (length mask) = ny * nx ->
  Forall (fun m => m <> 0) mask ->
  find_edges ny nx mask = Some [].
Proof.
  intros Hn Hlen Hall. unfold find_edges.
  assert (Hscan : forall a b step e, 0 <= a -> b <= ny * nx -> 0 <= step ->
            for_each (push_if_zero mask) (range a b step) e = Some e).
  { intros a b step e Ha Hb Hs. apply for_each_all_Some.
    intros i Hi%range_bounds; [|done]. apply push_if_zero_nonzero; [done|lia]. }
  cbv zeta. do 4 (rewrite Hscan by nia; cbn [mbind option_bind]).
  rewrite for_each_all_Some; [reflexivity|].
  intros y Hy%range_bounds; [|lia]. apply for_each_all_Some.
  intros x Hx%range_bounds; [|lia].
  apply push_if_interior_edge_nonzero; [done|nia].
Qed.

(** C4, as amended. On a grid with [1 <= nx <= ny] and a mask without
    zeros, [find_edges] returns the empty sequence and [distance_transform]
    returns the distance grid exactly as the caller passed it: no point
    exists to measure from, and no pixel is zeroed. *)
Theorem distance_transform_no_zero ny nx mask posmap dists :
  1 <= nx <= ny -> Z.of_nat (length mask) = ny * nx ->
  Forall (fun m => m <> 0) mask ->
  2 * (ny * nx) <= Z.of_nat (length posmap) ->
  find_edges ny nx mask = Some []
  /\ distance_transform ny nx mask posmap dists = Some dists.
Proof.
  intros Hn Hlen Hall Hpm.
  pose proof (find_edges_no_zero ny nx mask Hn Hlen Hall) as Hfe.
  split; [done|]. unfold distance_transform. rewrite Hfe.
  cbn [mbind option_bind mapM length app mret option_ret].
  change (Z.of_nat 0) with 0.
  rewrite (distance_from_points_zero_points (ny * nx) posmap [] dists None)
    by done.
  cbn [mbind option_bind fst]. apply for_each_all_Some.
  intros i Hi%range_bounds; [|lia].
  destruct (zget_is_Some mask i) as [m Hm]; [lia|]. rewrite Hm. simpl.
  apply zget_Some in Hm as [_ Hm]. apply list_elem_of_lookup_2 in Hm.
  pose proof (proj1 (list.Forall_forall _ _) Hall m Hm) as Hne.
  by destruct (Z.eqb_spec m 0).
Qed.

Lemma distance_transform_no_zero_witness :
  find_edges 2 2 [1; 1; 1; 1] = Some []
  /\ distance_transform 2 2 [1; 1; 1; 1] (replicate 8 0%R)
       [3%R; 3%R; 3%R; 3%R]
     = Some [3%R; 3%R; 3%R; 3%R].
Proof.
  apply distance_transform_no_zero; simpl; try lia.
  repeat constructor; lia.
Defined.

(** C4 as stated fails: on the 1 x 1 grid whose mask is 1, the distance
    grid comes back as it was passed, here with 1 in it, not 0. *)
Lemma distance_transform_all_ones_not_zeroed :
  find_edges 1 1 [1] = Some []
  /\ distance_transform 1 1 [1] [0%R; 0%R] [1%R] = Some [1%R]
  /\ ~ Forall (fun d => d = 0%R) [1%R].
Proof.
  split; [reflexivity|]. split; [reflexivity|].
  intros H. apply Forall_inv in H. lra.
Qed.

(** ** [find_edges] on a square grid *)

Lemma push_items e i : iv_items (push e i) = iv_items e ++ [i].
Proof. done. Qed.

Lemma scan_zero_items mask idx e :
  (forall i, i ∈ idx -> 0 <= i < Z.of_nat (length mask)) ->
  exists e', for_each (push_if_zero mask) idx e = Some e'
    /\ forall k, k ∈ iv_items e' <->
         k ∈ iv_items e \/ (k ∈ idx /\ zget mask k = Some 0).
Proof.
  revert e. induction idx as [|i idx IH]; intros e Hin; simpl.
  - exists e. split; [done|]. intros k. split; [by left|].
    by intros [?|[?%elem_of_nil _]].
  - destruct (zget_is_Some mask i) as [m Hm]; [apply Hin; by left|].
    unfold push_if_zero at 1. rewrite Hm. simpl.
    destruct (IH (if m =? 0 then push e i else e)) as (e' & -> & He').
    { intros. apply Hin. by right. }
    exists e'. split; [done|]. intros k. rewrite He', elem_of_cons.
    destruct (Z.eqb_spec m 0) as [-> |Hne].
    + rewrite push_items, elem_of_app, list_elem_of_singleton. split.
      * intros [[?| ->]|[? ?]]; auto.
      * intros [?|[[-> |?] ?]]; auto.
    + split.
      * intros [?|[? ?]]; auto.
      * intros [?|[[-> |?] Hz]]; auto. rewrite Hm in Hz. congruence.
Qed.

Lemma push_if_interior_edge_spec nx mask i e :
  0 <= i - nx -> i + nx < Z.of_nat (length mask) -> 1 <= nx ->
  exists e', push_if_interior_edge nx mask i e = Some e'
    /\ forall k, k ∈ iv_items e' <->
         k ∈ iv_items e
         \/ (k = i /\ zget mask k = Some 0
             /\ has_nonzero_neighbour nx mask k = true).
Proof.
  intros Hlo Hhi Hnx. unfold push_if_interior_edge, has_nonzero_neighbour, nonzero_at.
  destruct (zget_is_Some mask i) as [m Hm]; [lia|].
  destruct (zget_is_Some mask (i - 1)) as [a Ha]; [lia|].
  destruct (zget_is_Some mask (i + 1)) as [b Hb]; [lia|].
  destruct (zget_is_Some mask (i - nx)) as [c Hc]; [lia|].
  destruct (zget_is_Some mask (i + nx)) as [d Hd]; [lia|].
  rewrite Hm. simpl.
  assert (Hyes : forall k, k ∈ iv_items (push e i) <-> k ∈ iv_items e \/ k = i).
  { intros k. by rewrite push_items, elem_of_app, list_elem_of_singleton. }
  destruct (Z.eqb_spec m 0) as [-> |Hm0]; simpl.
  2:{ exists e. split; [done|]. intros k. split; [by left|].
      intros [?|(-> & Hz & _)]; [done|]. rewrite Hm in Hz. congruence. }
  rewrite Ha. simpl.
  assert (Hpush : negb (a =? 0) || negb (b =? 0) || negb (c =? 0)
                  || negb (d =? 0) = true ->
          forall k, k ∈ iv_items (push e i) <->
            k ∈ iv_items e
            \/ (k = i /\ zget mask k = Some 0
                /\ match zget mask (k - 1) with
                   | Some m => negb (m =? 0) | None => false end
                   || match zget mask (k + 1) with
                      | Some m => negb (m =? 0) | None => false end
                   || match zget mask (k - nx) with
                      | Some m => negb (m =? 0) | None => false end
                   || match zget mask (k + nx) with
                      | Some m => negb (m =? 0) | None => false end = true)).
  { intros Hany k. rewrite Hyes. split; [|intros [?|(? & _)]; auto].
    intros [?| ->]; [by left|right]. by rewrite Hm, Ha, Hb, Hc, Hd. }
  destruct (negb (a =? 0)) eqn:Ea; [eexists; split; [done|]; by apply Hpush|].
  rewrite Hb. simpl.
  destruct (negb (b =? 0)) eqn:Eb; [eexists; split; [done|]; by apply Hpush|].
  rewrite Hc. simpl.
  destruct (negb (c =? 0)) eqn:Ec; [eexists; split; [done|]; by apply Hpush|].
  rewrite Hd. simpl.
  destruct (negb (d =? 0)) eqn:Ed; [eexists; split; [done|]; by apply Hpush|].
  exists e. split; [done|]. intros k. split; [by left|].
  intros [?|(-> & _ & Hn)]; [done|].
  rewrite Ha, Hb, Hc, Hd, Ea, Eb, Ec, Ed in Hn. done.
Qed.

Lemma scan_row_items nx mask y xs e :
  1 <= nx ->
  (forall x, x ∈ xs ->
     0 <= y * nx + x - nx /\ y * nx + x + nx < Z.of_nat (length mask)) ->
  exists e',
    for_each (fun x => push_if_interior_edge nx mask (y * nx + x)) xs e = Some e'
    /\ forall k, k ∈ iv_items e' <->
         k ∈ iv_items e
         \/ exists x, x ∈ xs /\ k = y * nx + x /\ zget mask k = Some 0
                      /\ has_nonzero_neighbour nx mask k = true.
Proof.
  intros Hnx. revert e. induction xs as [|x xs IH]; intros e Hin; simpl.
  - exists e. split; [done|]. intros k. split; [by left|].
    by intros [?|(? & ?%elem_of_nil & _)].
  - destruct (push_if_interior_edge_spec nx mask (y * nx + x) e)
      as (e1 & -> & He1); [apply Hin; by left..|done|].
    destruct (IH e1) as (e' & -> & He'). { intros. apply Hin. by right. }
    exists e'. split; [done|]. intros k. rewrite He', He1. split.
    + intros [[?|(-> & ? & ?)]|(x' & ? & ?)]; [by left|right..].
      * exists x. split; [by left|done].
      * exists x'. split; [by right|done].
    + intros [?|(x' & [-> |?]%elem_of_cons & Hk & ? & ?)]; [by left; left|..].
      * left; right. done.
      * right. by exists x'.
Qed.

Lemma scan_interior_items nx mask ys xs e :
  1 <= nx ->
  (forall y x, y ∈ ys -> x ∈ xs ->
     0 <= y * nx + x - nx /\ y * nx + x + nx < Z.of_nat (length mask)) ->
  exists e',
    for_each (fun y => for_each
                (fun x => push_if_interior_edge nx mask (y * nx + x)) xs) ys e
      = Some e'
    /\ forall k, k ∈ iv_items e' <->
         k ∈ iv_items e
         \/ exists y x, y ∈ ys /\ x ∈ xs /\ k = y * nx + x
              /\ zget mask k = Some 0
              /\ has_nonzero_neighbour nx mask k = true.
Proof.
  intros Hnx. revert e. induction ys as [|y ys IH]; intros e Hin; simpl.
  - exists e. split; [done|]. intros k. split; [by left|].
    by intros [?|(? & ? & ?%elem_of_nil & _)].
  - destruct (scan_row_items nx mask y xs e Hnx) as (e1 & -> & He1).
    { intros. apply Hin; [by left|done]. }
    destruct (IH e1) as (e' & -> & He'). { intros. apply Hin; [by right|done]. }
    exists e'. split; [done|]. intros k. rewrite He', He1. split.
    + intros [[?|(x & ? & ?)]|(y' & x & ? & ?)]; [by left|right..].
      * exists y, x. split; [by left|done].
      * exists y', x. split; [by right|done].
    + intros [?|(y' & x & [-> |?]%elem_of_cons & ?)]; [by left; left|..].
      * left; right. by exists x.
      * right. by exists y', x.
Qed.

Lemma range1_elem a b k : k ∈ range a b 1 <-> a <= k < b.
Proof. rewrite range_step1, elem_of_seqZ. lia. Qed.

Lemma boundary_pixel_spec_true ny nx mask k :
  boundary_pixel_spec ny nx mask k = true <->
  0 <= k < ny * nx /\ zget mask k = Some 0
  /\ ((k / nx = 0 \/ k / nx = ny - 1 \/ k mod nx = 0 \/ k mod nx = nx - 1)
      \/ has_nonzero_neighbour nx mask k = true).
Proof.
  unfold boundary_pixel_spec, on_border.
  rewrite !andb_true_iff, !orb_true_iff, Z.leb_le, Z.ltb_lt, !Z.eqb_eq.
  assert (match zget mask k with Some m => m =? 0 | None => false end = true
          <-> zget mask k = Some 0) as ->.
  { destruct (zget mask k) as [m|]; [|done].
    destruct (Z.eqb_spec m 0) as [->|]; split; congruence. }
  tauto.
Qed.

(** On a square grid [find_edges] returns exactly the boundary pixels of
    the specification (the bottom-row loop, which runs up to [nx*nx], then
    covers the bottom row). *)
Lemma find_edges_square_exact n mask :
  1 <= n -> Z.of_nat (length mask) = n * n ->
  exists edges, find_edges n n mask = Some edges
    /\ forall k, k ∈ edges <-> boundary_pixel_spec n n mask k = true.
Proof.
  intros Hn Hlen. unfold find_edges. cbv zeta.
  destruct (scan_zero_items mask (range 0 n 1) (IVec 256 []))
    as (e1 & -> & H1); [intros i Hi%range1_elem; nia|].
  cbn [mbind option_bind].
  destruct (scan_zero_items mask (range ((n - 1) * n) (n * n) 1) e1)
    as (e2 & -> & H2); [intros i Hi%range1_elem; nia|].
  cbn [mbind option_bind].
  destruct (scan_zero_items mask (range n (n * n) n) e2)
    as (e3 & -> & H3); [intros i Hi%range_bounds; lia|].
  cbn [mbind option_bind].
  destruct (scan_zero_items mask (range (n - 1) (n * n) n) e3)
    as (e4 & -> & H4); [intros i Hi%range_bounds; lia|].
  cbn [mbind option_bind].
  destruct (scan_interior_items n mask (range 1 (n - 1) 1) (range 1 (n - 1) 1) e4)
    as (e5 & -> & H5); [done|intros y x Hy%range1_elem Hx%range1_elem; nia|].
  cbn [mbind option_bind]. eexists. split; [done|]. intros k.
  rewrite H5, H4, H3, H2, H1, boundary_pixel_spec_true.
  rewrite !range1_elem, !range_elem by lia. simpl iv_items.
  pose proof (Z.div_mod k n ltac:(lia)) as Hk.
  pose proof (Z.mod_pos_bound k n ltac:(lia)) as Hx.
  split.
  - intros [[[[[?%elem_of_nil|[Hr Hz]]|[Hr Hz]]|[(m & Hm & -> & Hr) Hz]]
            |[(m & Hm & -> & Hr) Hz]]|(y & x & Hy & Hx' & -> & Hz & Hnb)];
      [done|..].
    + split; [nia|]. split; [done|]. left. left. apply Z.div_small. lia.
    + split; [nia|]. split; [done|]. left. right. left. nia.
    + split; [nia|]. split; [done|]. left. do 2 right. left.
      symmetry. apply (Z.mod_unique _ _ (m + 1)); lia.
    + split; [nia|]. split; [done|]. left. do 3 right.
      symmetry. apply (Z.mod_unique _ _ m); lia.
    + apply range1_elem in Hy, Hx'.
      split; [clear Hk Hx; nia|]. split; [done|]. by right.
  - intros (Hr & Hz & Hcase).
    assert (0 <= k / n < n) as Hy by nia.
    destruct (decide (k / n = 0)) as [Hy0|Hy0];
      [do 4 left; right; split; [nia|done]|].
    destruct (decide (k / n = n - 1)) as [Hy1|Hy1];
      [do 3 left; right; split; [nia|done]|].
    destruct (decide (k mod n = 0)) as [Hx0|Hx0].
    { do 2 left; right. split; [|done]. exists (k / n - 1). nia. }
    destruct (decide (k mod n = n - 1)) as [Hx1|Hx1].
    { left; right. split; [|done]. exists (k / n). nia. }
    right. exists (k / n), (k mod n).
    destruct Hcase as [[?|[?|[?|?]]]|Hnb]; try done.
    split; [apply range1_elem; lia|]. split; [apply range1_elem; lia|].
    split; [lia|done].
Qed.

(** ** [find_edges] on a grid that is not square *)

(** With [ny < nx] the bottom-row loop, which runs up to [nx*nx], reads the
    mask outside the grid. *)
Lemma find_edges_reads_outside_mask : find_edges 1 2 [1; 1] = None.
Proof. reflexivity. Qed.

(** C2 (the code departs from the claim). On the 4 x 3 grid whose mask is
    zero everywhere, pixel 10 = (y 3, x 1) is a zero pixel of the bottom
    row, hence a boundary pixel of the specification, and [find_edges]
    returns a sequence that does not contain it: the bottom-row loop runs
    [i] from [(ny-1)*nx = 9] while [i < nx*nx = 9], so not at all. *)
Theorem find_edges_misses_bottom_row :
  find_edges 4 3 (replicate 12 0) = Some [0; 1; 2; 3; 6; 9; 2; 5; 8; 11]
  /\ boundary_pixel_spec 4 3 (replicate 12 0) 10 = true
  /\ 10 ∉ [0; 1; 2; 3; 6; 9; 2; 5; 8; 11].
Proof.
  split; [reflexivity|]. split; [reflexivity|].
  intros H. apply list_elem_of_In in H. simpl in H. intuition lia.
Qed.

(** ** The geodesic metric *)

Section Geodesic.
Local Open Scope R_scope.

Lemma atan2_range y x : 0 <= y -> 0 <= atan2 y x <= PI.
Proof.
  intros Hy. unfold atan2. pose proof PI_RGT_0 as Hpi.
  destruct (Rlt_dec 0 x) as [Hx|Hx].
  - assert (0 <= y / x) by (unfold Rdiv; assert (0 < / x) by (apply Rinv_0_lt_compat; lra); nra).
    pose proof (atan_bound (y / x)) as Hb.
    assert (0 <= atan (y / x)).
    { destruct (Req_dec (y / x) 0) as [->|Hn]; [rewrite atan_0; lra|].
      rewrite <- atan_0. left. apply atan_increasing. lra. }
    lra.
  - destruct (Rlt_dec x 0) as [Hx'|Hx'].
    + destruct (Rle_dec 0 y) as [_|Hn]; [|lra].
      assert (y / x <= 0).
      { unfold Rdiv. assert (/ x < 0) by (apply Rinv_lt_0_compat; lra). nra. }
      pose proof (atan_bound (y / x)) as Hb.
      assert (atan (y / x) <= 0).
      { destruct (Req_dec (y / x) 0) as [->|Hn]; [rewrite atan_0; lra|].
        rewrite <- atan_0. left. apply atan_increasing. lra. }
      lra.
    + destruct (Rlt_dec 0 y); [lra|]. destruct (Rlt_dec y 0); lra.
Qed.

Lemma atan2_zero_iff y x : 0 <= y -> atan2 y x = 0 <-> y = 0 /\ 0 <= x.
Proof.
  intros Hy. unfold atan2. pose proof PI_RGT_0 as Hpi.
  destruct (Rlt_dec 0 x) as [Hx|Hx].
  - split.
    + intros H. split; [|lra].
      destruct (Req_dec y 0) as [|Hn]; [done|exfalso].
      assert (0 < y / x) by (apply Rdiv_lt_0_compat; lra).
      pose proof (atan_increasing 0 (y / x) ltac:(lra)) as Hi.
      rewrite atan_0 in Hi. lra.
    + intros [-> _]. unfold Rdiv. rewrite Rmult_0_l. apply atan_0.
  - destruct (Rlt_dec x 0) as [Hx'|Hx'].
    + destruct (Rle_dec 0 y) as [_|Hn]; [|lra].
      pose proof (atan_bound (y / x)) as Hb. split; [intros; lra|intros [_ ?]; lra].
    + destruct (Rlt_dec 0 y); [split; [intros; lra|intros [? _]; lra]|].
      destruct (Rlt_dec y 0); [lra|]. split; intros; [split; lra|done].
Qed.

Lemma dist_vincenty_helper_range ra1 c1 s1 ra2 c2 s2 :
  0 <= dist_vincenty_helper ra1 c1 s1 ra2 c2 s2 <= PI.
Proof. unfold dist_vincenty_helper. apply atan2_range, sqrt_pos. Qed.

Lemma sin_cos_sq t : sin t * sin t + cos t * cos t = 1.
Proof. pose proof (sin2_cos2 t) as H. unfold Rsqr in H. exact H. Qed.

Lemma cos_even_multiple (m : Z) : cos (2 * IZR m * PI) = 1.
Proof.
  assert (Hnat : forall n : nat, cos (2 * INR n * PI) = 1).
  { intros n. replace (2 * INR n * PI) with (0 + 2 * INR n * PI) by ring.
    rewrite cos_period. apply cos_0. }
  destruct (Z_le_gt_dec 0 m) as [Hm|Hm].
  - rewrite <- (Z2Nat.id m Hm), <- INR_IZR_INZ. apply Hnat.
  - rewrite <- cos_neg.
    replace (- (2 * IZR m * PI)) with (2 * IZR (- m) * PI)
      by (rewrite opp_IZR; ring).
    rewrite <- (Z2Nat.id (- m)) by lia. rewrite <- INR_IZR_INZ. apply Hnat.
Qed.

Lemma sin_even_multiple (m : Z) : sin (2 * IZR m * PI) = 0.
Proof.
  apply sin_eq_0_1. exists (2 * m)%Z. rewrite mult_IZR. ring.
Qed.

Lemma full_turns t : sin t = 0 -> cos t = 1 -> exists k : Z, t = 2 * IZR k * PI.
Proof.
  intros Hs Hc. destruct (sin_eq_0_0 t Hs) as [k Hk].
  destruct (Z.Even_or_Odd k) as [[m ->]|[m ->]].
  - exists m. rewrite Hk, mult_IZR. ring.
  - exfalso. rewrite Hk in Hc.
    replace (IZR (2 * m + 1) * PI) with (2 * IZR m * PI + PI) in Hc
      by (rewrite plus_IZR, mult_IZR; ring).
    rewrite neg_cos, cos_even_multiple in Hc. lra.
Qed.

Lemma vincenty_unit c1 s1 c2 s2 c s :
  s1 * s1 + c1 * c1 = 1 -> s2 * s2 + c2 * c2 = 1 -> s * s + c * c = 1 ->
  let y1 := c1 * s in
  let y2 := c2 * s1 - s2 * c1 * c in
  let x := s2 * s1 + c2 * c1 * c in
  x * x + (y1 * y1 + y2 * y2) = 1.
Proof.
  intros H1 H2 H3 y1 y2 x. subst y1 y2 x.
  replace ((s2 * s1 + c2 * c1 * c) * (s2 * s1 + c2 * c1 * c) +
           (c1 * s * (c1 * s) +
            (c2 * s1 - s2 * c1 * c) * (c2 * s1 - s2 * c1 * c)))
    with (s1 * s1 * (s2 * s2 + c2 * c2)
          + c1 * c1 * (c * c * (s2 * s2 + c2 * c2) + s * s)) by ring.
  rewrite H2. replace (c * c * 1 + s * s) with (s * s + c * c) by ring.
  rewrite H3. lra.
Qed.

Lemma vincenty_zero_iff_algebra dec1 ra1 dec2 ra2 :
  vincenty dec1 ra1 dec2 ra2 = 0 <->
  cos dec1 * sin (ra2 - ra1) = 0
  /\ cos dec2 * sin dec1 - sin dec2 * cos dec1 * cos (ra2 - ra1) = 0
  /\ sin dec2 * sin dec1 + cos dec2 * cos dec1 * cos (ra2 - ra1) = 1.
Proof.
  unfold vincenty, dist_vincenty_helper.
  set (c1 := cos dec1). set (s1 := sin dec1).
  set (c2 := cos dec2). set (s2 := sin dec2).
  set (c := cos (ra2 - ra1)). set (s := sin (ra2 - ra1)).
  pose proof (vincenty_unit c1 s1 c2 s2 c s (sin_cos_sq dec1) (sin_cos_sq dec2)
                (sin_cos_sq (ra2 - ra1))) as Hu. simpl in Hu.
  set (y1 := c1 * s) in *. set (y2 := c2 * s1 - s2 * c1 * c) in *.
  set (x := s2 * s1 + c2 * c1 * c) in *.
  assert (Hq : 0 <= y1 * y1 + y2 * y2) by nra.
  rewrite atan2_zero_iff by apply sqrt_pos. split.
  - intros [Hy Hx]. apply sqrt_eq_0 in Hy; [|exact Hq].
    assert (y1 = 0) by nra. assert (y2 = 0) by nra. repeat split; try done. nra.
  - intros (-> & -> & ->). split; [|lra].
    replace (0 * 0 + 0 * 0) with 0 by ring. apply sqrt_0.
Qed.

Lemma vincenty_zero_iff dec1 ra1 dec2 ra2 :
  latitude dec1 -> latitude dec2 ->
  vincenty dec1 ra1 dec2 ra2 = 0 <->
  dec1 = dec2 /\ (cos dec1 = 0 \/ same_longitude ra1 ra2).
Proof.
  intros Hl1 Hl2. rewrite vincenty_zero_iff_algebra.
  pose proof (sin_cos_sq dec1) as P1. pose proof (sin_cos_sq dec2) as P2.
  pose proof (sin_cos_sq (ra2 - ra1)) as P3.
  pose proof (cos_ge_0 dec1 (proj1 Hl1) (proj2 Hl1)) as Hc1.
  pose proof (cos_ge_0 dec2 (proj1 Hl2) (proj2 Hl2)) as Hc2.
  split.
  - intros (HA & HB & HX).
    set (c1 := cos dec1) in *. set (s1 := sin dec1) in *.
    set (c2 := cos dec2) in *. set (s2 := sin dec2) in *.
    set (c := cos (ra2 - ra1)) in *. set (s := sin (ra2 - ra1)) in *.
    assert (Hs : s1 = s2).
    { destruct (Rmult_integral _ _ HA) as [Hz|Hz].
      - rewrite Hz in *. nra.
      - rewrite Hz in *.
        assert (s1 * (s2 * s1 + c2 * c1 * c) = s2).
        { replace (s1 * (s2 * s1 + c2 * c1 * c))
            with (s1 * s1 * s2 + c1 * c * (c2 * s1)) by ring.
          replace (c2 * s1) with (s2 * c1 * c) by lra.
          replace (s1 * s1 * s2 + c1 * c * (s2 * c1 * c))
            with (s2 * (s1 * s1 + c1 * c1 * (c * c))) by ring.
          replace (c * c) with 1 by lra. rewrite Rmult_1_r, P1. ring. }
        rewrite HX in *. lra. }
    split; [by apply sin_inj|].
    destruct (Req_dec c1 0) as [|Hn]; [by left|right].
    destruct (Rmult_integral _ _ HA) as [Hz|Hz]; [done|].
    rewrite Hz in *.
    assert (Hcc : c1 = c * c2).
    { assert (c1 * (s2 * s1 + c2 * c1 * c) = c * c2).
      { assert (Hb' : c2 * s1 * c = s2 * c1).
        { replace (c2 * s1) with (s2 * c1 * c) by lra.
          replace (s2 * c1 * c * c) with (s2 * c1 * (c * c)) by ring.
          replace (c * c) with 1 by lra. ring. }
        replace (c1 * (s2 * s1 + c2 * c1 * c))
          with (s1 * (s2 * c1) + c * c2 * (c1 * c1)) by ring.
        rewrite <- Hb'.
        replace (s1 * (c2 * s1 * c) + c * c2 * (c1 * c1))
          with (c * c2 * (s1 * s1 + c1 * c1)) by ring.
        rewrite P1. ring. }
      rewrite HX in *. lra. }
    apply full_turns; [done|]. fold c.
    assert (c = 1 \/ c = -1) as [|Hm] by
      (destruct (Rle_dec 0 c); [left|right]; nra); [done|].
    rewrite Hm in Hcc. exfalso. lra.
  - intros [<- Hcase].
    set (c1 := cos dec1) in *. set (s1 := sin dec1) in *.
    destruct Hcase as [Hz|[k Hk]].
    + rewrite Hz in *. repeat split; nra.
    + rewrite Hk, sin_even_multiple, cos_even_multiple. repeat split; nra.
Qed.



End Geodesic.

(** Three distances along the equator. *)
Section Equator.
Local Open Scope R_scope.

Lemma equator_quarter : vincenty 0 0 0 (PI / 2) = PI / 2.
Proof.
  unfold vincenty, dist_vincenty_helper.
  rewrite Rminus_0_r, cos_0, sin_0, cos_PI2, sin_PI2.
  replace (1 * 1 * (1 * 1) + (1 * 0 - 0 * 1 * 0) * (1 * 0 - 0 * 1 * 0))
    with 1 by ring.
  replace (0 * 0 + 1 * 1 * 0) with 0 by ring.
  rewrite sqrt_1. unfold atan2.
  destruct (Rlt_dec 0 0); [lra|]. destruct (Rlt_dec 0 1); [done|lra].
Qed.

Lemma equator_half : vincenty 0 0 0 PI = PI.
Proof.
  unfold vincenty, dist_vincenty_helper.
  rewrite Rminus_0_r, cos_0, sin_0, cos_PI, sin_PI.
  replace (1 * 0 * (1 * 0) + (1 * 0 - 0 * 1 * -1) * (1 * 0 - 0 * 1 * -1))
    with 0 by ring.
  replace (0 * 0 + 1 * 1 * -1) with (-1) by ring.
  rewrite sqrt_0. unfold atan2.
  destruct (Rlt_dec 0 (-1)); [lra|]. destruct (Rlt_dec (-1) 0); [|lra].
  destruct (Rle_dec 0 0); [|lra].
  replace (0 / -1) with 0 by lra. rewrite atan_0. lra.
Qed.

Lemma equator_same : vincenty 0 0 0 0 = 0.
Proof.
  pose proof PI_RGT_0.
  apply vincenty_zero_iff; [unfold latitude; lra..|].
  split; [done|]. right. exists 0%Z. lra.
Qed.

End Equator.

(** ** The wavefront propagator: invariants *)

Lemma int32_small v : - 2147483648 <= v <= int_max -> int32 v = v.
Proof.
  unfold int32, int_max. intros Hv. rewrite Z.mod_small by lia. lia.
Qed.

Lemma wrap_range v n : 1 <= n -> -1 <= v <= n -> 0 <= wrap v n < n.
Proof.
  intros Hn Hv. unfold wrap.
  destruct (Z.ltb_spec v 0); [lia|]. destruct (Z.geb_spec v n); lia.
Qed.

Lemma offsets_range off :
  off ∈ offsets -> -1 <= off.1 <= 1 /\ -1 <= off.2 <= 1.
Proof.
  intros H. apply list_elem_of_In in H. simpl in H.
  destruct H as [<-|[<-|[<-|[<-|[]]]]]; simpl; lia.
Qed.

(** On a square grid whose [n * n] pixels an [int] can count, the
    neighbour of a pixel of the grid is a pixel of the grid, and the [int]
    expression [y2*ny+x2] is its flat index. *)
Lemma neighbour_in_square n y x off :
  n * n <= int_max -> 0 <= y < n -> 0 <= x < n -> off ∈ offsets ->
  0 <= wrap (y + off.1) n < n /\ 0 <= wrap (x + off.2) n < n
  /\ int32 (wrap (y + off.1) n * n + wrap (x + off.2) n)
     = wrap (y + off.1) n * n + wrap (x + off.2) n.
Proof.
  intros Hsize Hy Hx [Ho1 Ho2]%offsets_range.
  assert (H1 : 0 <= wrap (y + off.1) n < n) by (apply wrap_range; lia).
  assert (H2 : 0 <= wrap (x + off.2) n < n) by (apply wrap_range; lia).
  do 2 (split; [done|]). apply int32_small. unfold int_max in *. nia.
Qed.

Lemma for_run_inv {I} (P : tr_state -> Prop) (body : I -> tr_state -> run)
  (idx : list I) s :
  P s -> (forall i s, i ∈ idx -> P s -> P (run_state (body i s))) ->
  P (run_state (for_run body idx s)).
Proof.
  revert s. induction idx as [|i idx IH]; intros s Hs Hb; simpl; [done|].
  pose proof (Hb i s ltac:(by left) Hs) as Hi.
  destruct (body i s) as [s'|s']; simpl in *; [|done].
  apply IH; [done|]. intros. apply Hb; [by right|done].
Qed.

Lemma for_run_cons {I} (body : I -> tr_state -> run) i l s :
  for_run body (i :: l) s
  = match body i s with
    | Ok s' => for_run body l s'
    | Fault s' => Fault s'
    end.
Proof. done. Qed.

Lemma for_run_app {I} (body : I -> tr_state -> run) l1 l2 s :
  for_run body (l1 ++ l2) s
  = match for_run body l1 s with
    | Ok s' => for_run body l2 s'
    | Fault s' => Fault s'
    end.
Proof.
  revert s. induction l1 as [|i l1 IH]; intros s; simpl; [done|].
  destruct (body i s); [apply IH|done].
Qed.

(** A loop over [0 .. n-1] with an invariant indexed by the rounds done;
    [Q] is what is known of the state of a fault. *)
Lemma for_run_range_inv (P : Z -> tr_state -> Prop) (Q : tr_state -> Prop)
  (body : Z -> tr_state -> run) n s :
  0 <= n -> P 0 s ->
  (forall k s, 0 <= k < n -> P k s ->
     match body k s with Ok s' => P (k + 1) s' | Fault s' => Q s' end) ->
  match for_run body (range 0 n 1) s with Ok s' => P n s' | Fault s' => Q s' end.
Proof.
  intros Hn H0 Hstep. rewrite range_0.
  rewrite <- (Z2Nat.id n Hn) in *. generalize dependent (Z.to_nat n).
  clear n Hn. intros n Hstep. induction n as [|n IH].
  - by rewrite seqZ_nil.
  - rewrite seqZ_S, for_run_app, Z.add_0_l.
    destruct (for_run body (seqZ 0 (Z.of_nat n)) s) as [s1|s1];
      [|apply IH; intros; apply Hstep; [lia|done]].
    simpl. assert (HP : P (Z.of_nat n) s1).
    { apply IH. intros. apply Hstep; [lia|done]. }
    specialize (Hstep (Z.of_nat n) s1 ltac:(lia) HP).
    destruct (body (Z.of_nat n) s1); [|done].
    by replace (Z.of_nat (S n)) with (Z.of_nat n + 1) by lia.
Qed.

Lemma propagate_inv (P : tr_state -> Prop) e fuel s :
  P s ->
  (forall s, P s -> P (run_state (for_run (visit e) (st_curr s) s))) ->
  (forall s, P s -> P (swap_buffers s)) ->
  P (final_state (propagate e fuel s)).
Proof.
  intros Hs Hpass Hswap. revert s Hs.
  induction fuel as [|fuel IH]; intros s Hs; simpl.
  - by destruct (st_curr s).
  - destruct (st_curr s) eqn:Hc; [done|]. rewrite <- Hc.
    specialize (Hpass s Hs).
    destruct (for_run (visit e) (st_curr s) s) as [s'|s']; simpl in *; [|done].
    apply IH. by apply Hswap.
Qed.

Lemma PI_lt_unvisited : (PI < unvisited)%R.
Proof. pose proof PI_4. unfold unvisited. lra. Qed.

Lemma calc_dist_range e p y x d :
  calc_dist e p y x = Some d -> (0 <= d <= PI)%R.
Proof.
  unfold calc_dist. intros H.
  repeat (match type of H with
          | (?o ≫= _) = Some _ => destruct o; simpl in H; [|done]
          end).
  injection H as <-. apply dist_vincenty_helper_range.
Qed.

(** The state after the fill loop. *)
Lemma fill_unvisited_spec n dists domains :
  match for_run fill_unvisited (range 0 n 1) (entry_state dists domains) with
  | Ok s =>
      st_writes s = [] /\ st_curr s = [] /\ st_next s = []
      /\ forall i, 0 <= i < n ->
           zget (st_dists s) i = Some unvisited /\ zget (st_domains s) i = Some (-1)
  | Fault s => st_writes s = []
  end.
Proof.
  destruct (Z_le_gt_dec 0 n) as [Hn|Hn];
    [|rewrite range_0, seqZ_nil by lia; simpl; repeat split; intros; lia].
  apply (for_run_range_inv
    (fun k s => st_writes s = [] /\ st_curr s = [] /\ st_next s = []
       /\ forall i, 0 <= i < k ->
            zget (st_dists s) i = Some unvisited
            /\ zget (st_domains s) i = Some (-1))
    (fun s => st_writes s = [])); [done|..].
  - repeat split; try done; lia.
  - intros k s Hk (Hw & Hc & Hx & Hall). unfold fill_unvisited.
    destruct (zset (st_dists s) k unvisited) as [ds|] eqn:Hds; [|done].
    destruct (zset (st_domains s) k (-1)) as [dm|] eqn:Hdm; [|done].
    simpl. repeat split; try done.
    + destruct (Z.eq_dec i k) as [->|Hne]; [by apply zget_zset_eq with (st_dists s)|].
      rewrite (zget_zset_ne _ _ _ _ _ Hds) by done. apply Hall. lia.
    + destruct (Z.eq_dec i k) as [->|Hne]; [by apply zget_zset_eq with (st_domains s)|].
      rewrite (zget_zset_ne _ _ _ _ _ Hdm) by done. apply Hall. lia.
Qed.

(** *** The two grids stay coupled *)

Lemma update_coupled ny nx npoint y x dist i s :
  coupled_state ny nx npoint s -> 0 <= i < npoint -> (0 <= dist <= PI)%R ->
  coupled_state ny nx npoint (run_state (update nx y x dist i s)).
Proof.
  intros (Hc & Hw & Hf) Hi Hd. unfold update.
  destruct (zget (st_dists s) (y * nx + x)) as [old|] eqn:Hold; [|done].
  destruct (zset (st_dists s) (y * nx + x) dist) as [ds|] eqn:Hds; [|done].
  destruct (zset (st_domains s) (y * nx + x) i) as [dm|] eqn:Hdm; [|done].
  simpl. pose proof PI_lt_unvisited as Hpi.
  assert (Hc' : coupled ny nx npoint ds dm).
  { intros j Hj. destruct (Z.eq_dec j (y * nx + x)) as [->|Hne].
    - exists dist, i. rewrite (zget_zset_eq _ _ _ _ Hds), (zget_zset_eq _ _ _ _ Hdm).
      repeat split; try done; try lia; intros; try lia. lra.
    - rewrite (zget_zset_ne _ _ _ _ _ Hds), (zget_zset_ne _ _ _ _ _ Hdm) by done.
      by apply Hc. }
  split; [done|]. split; simpl.
  - apply Forall_app. split; [done|]. apply Forall_singleton. split; [done|].
    split; simpl; [by apply zget_zset_eq with (st_dists s)
                  |by apply zget_zset_eq with (st_domains s)].
  - intros yx Hyx. simpl in Hyx |- *.
    destruct (Z.eq_dec (yx.1 * nx + yx.2) (y * nx + x)) as [Heq|Hne].
    + exists i. rewrite Heq. by rewrite (zget_zset_eq _ _ _ _ Hdm).
    + rewrite (zget_zset_ne _ _ _ _ _ Hdm) by done.
      rewrite app_assoc in Hyx. apply elem_of_app in Hyx as [Hyx|Hyx]; [by apply Hf|].
      apply list_elem_of_singleton in Hyx as ->. done.
Qed.

Lemma seed_coupled ny e py px i s :
  coupled_state ny (e_nx e) (e_npoint e) s -> 0 <= i < e_npoint e ->
  coupled_state ny (e_nx e) (e_npoint e) (run_state (seed e py px i s)).
Proof.
  intros Hs Hi. unfold seed.
  destruct (zget py i) as [y|]; [|done]. destruct (zget px i) as [x|]; [|done].
  destruct (calc_dist e i y x) as [d|] eqn:Hd; [|done].
  apply update_coupled; [done..|]. by apply calc_dist_range in Hd.
Qed.

Lemma relax_coupled ny e y x p off s :
  coupled_state ny (e_nx e) (e_npoint e) s -> 0 <= p < e_npoint e ->
  coupled_state ny (e_nx e) (e_npoint e) (run_state (relax e y x p off s)).
Proof.
  intros Hs Hp. unfold relax.
  destruct (calc_dist e p _ _) as [d|] eqn:Hd; [|done].
  destruct (zget (st_dists s) _) as [cur|]; [|done].
  destruct (Rltb d cur); [|done].
  apply update_coupled; [done..|]. by apply calc_dist_range in Hd.
Qed.

Lemma update_curr nx y x d i s :
  st_curr (run_state (update nx y x d i s)) = st_curr s.
Proof.
  unfold update. destruct (zget (st_dists s) _); [|done].
  destruct (zset (st_dists s) _ _); [|done].
  by destruct (zset (st_domains s) _ _).
Qed.

Lemma relax_curr e y x p off s :
  st_curr (run_state (relax e y x p off s)) = st_curr s.
Proof.
  unfold relax. destruct (calc_dist _ _ _ _); [|done].
  destruct (zget _ _); [|done]. destruct (Rltb _ _); [|done]. apply update_curr.
Qed.

Lemma visit_curr e yx s : st_curr (run_state (visit e yx s)) = st_curr s.
Proof.
  unfold visit. destruct (zget _ _); [|done].
  apply (for_run_inv (fun s' => st_curr s' = st_curr s)); [done|].
  intros off s' _ <-. apply relax_curr.
Qed.

Lemma visit_coupled ny e yx s :
  coupled_state ny (e_nx e) (e_npoint e) s -> yx ∈ st_curr s ->
  coupled_state ny (e_nx e) (e_npoint e) (run_state (visit e yx s)).
Proof.
  intros Hs Hyx. unfold visit.
  destruct Hs as (Hc & Hw & Hf).
  destruct (Hf yx) as (m & Hm & Hrange); [apply elem_of_app; by left|].
  rewrite Hm. apply for_run_inv; [done|].
  intros off s' _ Hs'. by apply relax_coupled.
Qed.

Lemma pass_coupled ny e s :
  coupled_state ny (e_nx e) (e_npoint e) s ->
  coupled_state ny (e_nx e) (e_npoint e)
    (run_state (for_run (visit e) (st_curr s) s)).
Proof.
  intros Hs.
  apply (for_run_inv (fun s' =>
    coupled_state ny (e_nx e) (e_npoint e) s' /\ st_curr s' = st_curr s));
    [done|].
  intros yx s' Hyx [Hs' Hcur]. split; [|by rewrite visit_curr].
  apply visit_coupled; [done|]. by rewrite Hcur.
Qed.

Lemma swap_coupled ny nx npoint s :
  coupled_state ny nx npoint s -> coupled_state ny nx npoint (swap_buffers s).
Proof.
  intros (Hc & Hw & Hf). repeat split; try done.
  intros yx Hyx. simpl in *. rewrite app_nil_r in Hyx. apply Hf.
  apply elem_of_app. by right.
Qed.

(** Within the range of [int]: in every run of the propagator on a grid
    whose [ny * nx] pixels an [int] can count, whatever the other inputs
    and however the run ends, the two grids are coupled after each
    [update] (which puts its distance and its domain at one flat index)
    and, once the fill loop has completed, between the updates as well. *)
Lemma treerings_grids_coupled
  ny nx ypos xpos npoint point_pos point_y point_x dists domains fuel :
  0 <= ny * nx <= int_max ->
  let s := final_state
    (distance_from_points_treerings_separable ny nx ypos xpos npoint point_pos
       point_y point_x dists domains fuel) in
  Forall (fun w => coupled ny nx npoint (w_dists w) (w_domains w)
                   /\ written_together w) (st_writes s)
  /\ forall s1,
       for_run fill_unvisited (range 0 (ny * nx) 1) (entry_state dists domains)
         = Ok s1 ->
       coupled ny nx npoint (st_dists s1) (st_domains s1)
       /\ coupled ny nx npoint (st_dists s) (st_domains s).
Proof.
  intros Hsize. unfold distance_from_points_treerings_separable.
  rewrite (int32_small (ny * nx)) by lia.
  pose proof (fill_unvisited_spec (ny * nx) dists domains) as Hfill.
  destruct (for_run fill_unvisited _ _) as [s1|s1]; simpl;
    [|by rewrite Hfill].
  destruct Hfill as (Hw & Hc & Hn & Hall).
  assert (H1 : coupled_state ny nx npoint s1).
  { repeat split.
    - intros i Hi. destruct (Hall i Hi) as [Hd Hm].
      exists unvisited, (-1). repeat split; try done.
    - rewrite Hw. constructor.
    - intros yx. rewrite Hc, Hn. by intros ?%elem_of_nil. }
  assert (Hgoal : forall s, coupled_state ny nx npoint s ->
    Forall (fun w => coupled ny nx npoint (w_dists w) (w_domains w)
                     /\ written_together w) (st_writes s)
    /\ forall s1', Ok s1 = Ok s1' ->
         coupled ny nx npoint (st_dists s1') (st_domains s1')
         /\ coupled ny nx npoint (st_dists s) (st_domains s)).
  { intros s (Hcs & Hws & _). split; [done|]. intros ? [= <-]. split; [|done].
    apply H1. }
  destruct (precompute_trig point_pos npoint) as [[pc ps]|]; [|by apply Hgoal].
  destruct (precompute_trig ypos ny) as [[xc xs]|]; [|by apply Hgoal].
  set (e := {| e_ny := ny |}).
  assert (H2 : coupled_state ny nx npoint
                 (run_state (for_run (seed e point_y point_x) (range 0 npoint 1) s1))).
  { apply (for_run_inv (coupled_state ny nx npoint)); [done|].
    intros i s Hi%range_bounds Hs; [|lia]. apply (seed_coupled ny e); [done|].
    simpl. lia. }
  destruct (for_run (seed e point_y point_x) _ s1) as [s2|s2]; simpl in H2;
    [|by apply Hgoal].
  apply Hgoal. apply (propagate_inv (coupled_state ny nx npoint)).
  - by apply swap_coupled.
  - intros s Hs. by apply (pass_coupled ny e).
  - apply swap_coupled.
Qed.

(** C9 (the code departs from the claim). On a grid of 65536 x 65536
    pixels the [int] product [ny*nx] that bounds the fill loop wraps
    around to 0: the loop completes without a round, and with no point to
    seed the call ends with the two grids as the caller passed them,
    whatever they hold. The grids are then not coupled, for instance when
    [domains[0]] is -1 and [dists[0]] is 0, which is not the sentinel. *)
Theorem treerings_large_grid_not_coupled
  ypos xpos point_pos point_y point_x dists domains fuel :
  let s := final_state
    (distance_from_points_treerings_separable 65536 65536 ypos xpos 0
       point_pos point_y point_x dists domains fuel) in
  for_run fill_unvisited (range 0 (int32 (65536 * 65536)) 1)
    (entry_state dists domains) = Ok (entry_state dists domains)
  /\ st_dists s = dists /\ st_domains s = domains
  /\ (zget dists 0 = Some 0%R -> zget domains 0 = Some (-1) ->
      ~ coupled 65536 65536 0 (st_dists s) (st_domains s)).
Proof.
  assert (Hwrap : int32 (65536 * 65536) = 0) by reflexivity.
  assert (Hfill : for_run fill_unvisited (range 0 (int32 (65536 * 65536)) 1)
                    (entry_state dists domains) = Ok (entry_state dists domains))
    by (by rewrite Hwrap).
  assert (Hs : let s := final_state
            (distance_from_points_treerings_separable 65536 65536 ypos xpos 0
               point_pos point_y point_x dists domains fuel) in
          st_dists s = dists /\ st_domains s = domains).
  { unfold distance_from_points_treerings_separable. rewrite Hfill.
    assert (Hpre : precompute_trig point_pos 0 = Some ([], [])) by done.
    rewrite Hpre. destruct (precompute_trig ypos 65536) as [[xc xs]|]; [|done].
    assert (Hno : range 0 0 1 = []) by done. rewrite Hno.
    cbn [for_run]. by destruct fuel. }
  cbv zeta in *. destruct Hs as [Hd Hm]. do 3 (split; [done|]).
  rewrite Hd, Hm. intros Hd0 Hm0 Hc.
  destruct (Hc 0 ltac:(lia)) as (d & m & Hd' & Hm' & [Hiff _] & _).
  assert (d = unvisited) as -> by (apply Hiff; congruence).
  assert (unvisited = 0%R) as Habs by congruence.
  unfold unvisited in Habs. lra.
Qed.

Lemma treerings_large_grid_not_coupled_witness :
  let dists := replicate (Z.to_nat (65536 * 65536)) 0%R in
  let domains := replicate (Z.to_nat (65536 * 65536)) (-1) in
  let s := final_state
    (distance_from_points_treerings_separable 65536 65536
       (replicate (Z.to_nat 65536) 0%R) (replicate (Z.to_nat 65536) 0%R) 0
       [] [] [] dists domains 1) in
  st_dists s = dists /\ st_domains s = domains
  /\ ~ coupled 65536 65536 0 (st_dists s) (st_domains s).
Proof.
  intros dists domains.
  destruct (treerings_large_grid_not_coupled
              (replicate (Z.to_nat 65536) 0%R) (replicate (Z.to_nat 65536) 0%R)
              [] [] [] dists domains 1) as (_ & Hd & Hm & Hnot).
  do 2 (split; [assumption|]). apply Hnot.
  - unfold zget, dists. change (0 <? 0) with false. cbv iota.
    change (Z.to_nat 0) with 0%nat. apply lookup_replicate_2. lia.
  - unfold zget, domains. change (0 <? 0) with false. cbv iota.
    change (Z.to_nat 0) with 0%nat. apply lookup_replicate_2. lia.
Defined.

(** *** Writes that decrease the distance *)

Lemma update_decreasing nx y x dist i s old :
  Forall decreasing_write (st_writes s) ->
  zget (st_dists s) (y * nx + x) = Some old -> (dist < old)%R ->
  Forall decreasing_write (st_writes (run_state (update nx y x dist i s))).
Proof.
  intros Hw Hold Hlt. unfold update. rewrite Hold.
  destruct (zset (st_dists s) _ _); [|done].
  destruct (zset (st_domains s) _ _); [|done]. simpl.
  apply Forall_app. split; [done|]. by apply Forall_singleton.
Qed.

Lemma update_in_grid ny nx nx' y x d i s :
  frontier_in_grid ny nx s -> 0 <= y < ny -> 0 <= x < nx ->
  frontier_in_grid ny nx (run_state (update nx' y x d i s)).
Proof.
  intros Hf Hy Hx. unfold update. destruct (zget (st_dists s) _); [|done].
  destruct (zset (st_dists s) _ _); [|done].
  destruct (zset (st_domains s) _ _); [|done].
  intros yx Hyx. simpl in Hyx. rewrite app_assoc in Hyx.
  apply elem_of_app in Hyx as [Hyx|Hyx]; [by apply Hf|].
  by apply list_elem_of_singleton in Hyx as ->.
Qed.

Lemma relax_decreasing n e y x p off s :
  e_ny e = n -> e_nx e = n -> n * n <= int_max ->
  0 <= y < n -> 0 <= x < n -> off ∈ offsets ->
  Forall decreasing_write (st_writes s) /\ frontier_in_grid n n s ->
  Forall decreasing_write (st_writes (run_state (relax e y x p off s)))
  /\ frontier_in_grid n n (run_state (relax e y x p off s)).
Proof.
  intros Hny Hnx Hsize Hy Hx Hoff [Hw Hf]. unfold relax. rewrite Hny, Hnx.
  destruct (neighbour_in_square n y x off) as (Hy2 & Hx2 & ->); [done..|].
  destruct (calc_dist e p _ _) as [d|]; [|done].
  destruct (zget (st_dists s) _) as [cur|] eqn:Hcur; [|done].
  destruct (Rltb d cur) eqn:Hlt; [|done]. split.
  - apply update_decreasing with cur; [done..|]. by apply Rltb_true.
  - by apply update_in_grid.
Qed.

Lemma pass_decreasing n e s :
  e_ny e = n -> e_nx e = n -> n * n <= int_max ->
  Forall decreasing_write (st_writes s) /\ frontier_in_grid n n s ->
  Forall decreasing_write
    (st_writes (run_state (for_run (visit e) (st_curr s) s)))
  /\ frontier_in_grid n n (run_state (for_run (visit e) (st_curr s) s)).
Proof.
  intros Hny Hnx Hsize Hs.
  pose (P := fun s' : tr_state =>
    Forall decreasing_write (st_writes s') /\ frontier_in_grid n n s').
  assert (H : P (run_state (for_run (visit e) (st_curr s) s))
              /\ st_curr (run_state (for_run (visit e) (st_curr s) s))
                 = st_curr s); [|apply H].
  apply (for_run_inv (fun s' => P s' /\ st_curr s' = st_curr s)); [done|].
  intros yx s' Hyx [Hs' Hcur]. split; [|by rewrite visit_curr].
  destruct (proj2 Hs' yx) as [Hy Hx];
    [apply elem_of_app; left; by rewrite Hcur|].
  unfold visit. destruct (zget _ _); [|done].
  apply (for_run_inv P); [done|].
  intros off s'' Hoff Hs''. by apply (relax_decreasing n).
Qed.

Lemma seeding_in_grid ny e point_y point_x s1 :
  seeds_in_grid ny (e_nx e) (e_npoint e) point_y point_x ->
  frontier_in_grid ny (e_nx e) s1 ->
  frontier_in_grid ny (e_nx e)
    (run_state (for_run (seed e point_y point_x) (range 0 (e_npoint e) 1) s1)).
Proof.
  intros Hin Hf. apply (for_run_inv (frontier_in_grid ny (e_nx e))); [done|].
  intros i s Hi%range_bounds Hs; [|lia]. unfold seed.
  destruct (Hin i) as (y & x & -> & -> & Hy & Hx); [lia|].
  destruct (calc_dist e i y x); [|done]. by apply update_in_grid.
Qed.

Lemma flat_index_inj nx y x y' x' :
  0 <= x < nx -> 0 <= x' < nx -> y * nx + x = y' * nx + x' -> y = y' /\ x = x'.
Proof. intros Hx Hx' Heq. assert (y = y') by nia. subst. lia. Qed.

Lemma seeding_decreasing ny e point_y point_x s1 :
  seeds_in_grid ny (e_nx e) (e_npoint e) point_y point_x ->
  seeds_distinct (e_npoint e) point_y point_x ->
  st_writes s1 = [] ->
  (forall i, 0 <= i < ny * e_nx e -> zget (st_dists s1) i = Some unvisited) ->
  Forall decreasing_write
    (st_writes (run_state
       (for_run (seed e point_y point_x) (range 0 (e_npoint e) 1) s1))).
Proof.
  intros Hin Hdist Hw Hall.
  destruct (Z_le_gt_dec 0 (e_npoint e)) as [Hn|Hn];
    [|rewrite range_0, seqZ_nil by lia; simpl; rewrite Hw; constructor].
  assert (Hinv :
    match for_run (seed e point_y point_x) (range 0 (e_npoint e) 1) s1 with
    | Ok s' => Forall decreasing_write (st_writes s')
         /\ forall j y x, e_npoint e <= j < e_npoint e ->
              zget point_y j = Some y -> zget point_x j = Some x ->
              zget (st_dists s') (y * e_nx e + x) = Some unvisited
    | Fault s' => Forall decreasing_write (st_writes s')
    end).
  { apply (for_run_range_inv
      (fun k s => Forall decreasing_write (st_writes s)
         /\ forall j y x, k <= j < e_npoint e ->
              zget point_y j = Some y -> zget point_x j = Some x ->
              zget (st_dists s) (y * e_nx e + x) = Some unvisited)
      (fun s => Forall decreasing_write (st_writes s))); [done|..].
    - split; [rewrite Hw; constructor|].
      intros j y x Hj Hy Hx. apply Hall.
      destruct (Hin j) as (y' & x' & ? & ? & ? & ?); [lia|].
      assert (y' = y) by congruence. assert (x' = x) by congruence.
      subst. nia.
    - intros k s Hk [Hws Hun]. unfold seed.
      destruct (Hin k Hk) as (y & x & Hy & Hx & Hyr & Hxr). rewrite Hy, Hx.
      destruct (calc_dist e k y x) as [d|] eqn:Hd; [|done].
      pose proof (update_decreasing (e_nx e) y x d k s unvisited Hws) as Hup.
      pose proof (calc_dist_range _ _ _ _ _ Hd) as Hr.
      pose proof PI_lt_unvisited as Hpi.
      specialize (Hup (Hun k y x ltac:(lia) Hy Hx) ltac:(lra)).
      unfold update in *.
      destruct (zget (st_dists s) _) as [old|]; [|done].
      destruct (zset (st_dists s) _ _) as [ds|] eqn:Hds; [|done].
      destruct (zset (st_domains s) _ _) as [dm|]; [|done].
      split; [done|]. simpl. intros j y' x' Hj Hy' Hx'.
      destruct (Hin j) as (y2 & x2 & ? & ? & ? & ?); [lia|].
      assert (y2 = y') by congruence. assert (x2 = x') by congruence. subst.
      rewrite (zget_zset_ne _ _ _ _ _ Hds); [apply (Hun j); [lia|done..]|].
      intros Heq. apply flat_index_inj in Heq as [-> ->]; [|done..].
      apply (Hdist k j y' x'); (done || lia). }
  destruct (for_run (seed e point_y point_x) _ s1); simpl; [apply Hinv|done].
Qed.

(** C3, as amended. On a square grid ([ny = nx]) whose [ny * nx] pixels
    an [int] can count, and with seed pixels that lie in the grid and are
    pairwise distinct, every [update] of a run stores a distance strictly
    smaller than the one its pixel held just before. *)
Theorem treerings_writes_decrease
  ny nx ypos xpos npoint point_pos point_y point_x dists domains fuel :
  ny = nx -> ny * nx <= int_max ->
  seeds_in_grid ny nx npoint point_y point_x ->
  seeds_distinct npoint point_y point_x ->
  Forall decreasing_write
    (st_writes (final_state
       (distance_from_points_treerings_separable ny nx ypos xpos npoint
          point_pos point_y point_x dists domains fuel))).
Proof.
  intros Hsq Hsize Hin Hdist. unfold distance_from_points_treerings_separable.
  rewrite (int32_small (ny * nx)) by (unfold int_max in *; nia).
  pose proof (fill_unvisited_spec (ny * nx) dists domains) as Hfill.
  destruct (for_run fill_unvisited _ _) as [s1|s1]; simpl;
    [|rewrite Hfill; constructor].
  destruct Hfill as (Hw & Hc & Hn & Hall).
  destruct (precompute_trig point_pos npoint) as [[pc ps]|];
    [|simpl; rewrite Hw; constructor].
  destruct (precompute_trig ypos ny) as [[xc xs]|];
    [|simpl; rewrite Hw; constructor].
  set (e := {| e_ny := ny |}).
  pose proof (seeding_decreasing ny e point_y point_x s1 Hin Hdist Hw
                (fun i Hi => proj1 (Hall i Hi))) as Hseed.
  assert (Hgrid : frontier_in_grid ny nx s1).
  { intros yx. rewrite Hc, Hn. by intros ?%elem_of_nil. }
  pose proof (seeding_in_grid ny e point_y point_x s1 Hin Hgrid) as Hseed'.
  change (e_npoint e) with npoint in Hseed, Hseed'.
  change (e_nx e) with nx in Hseed'.
  destruct (for_run (seed e point_y point_x) _ s1) as [s2|s2];
    simpl in Hseed, Hseed'; [|done].
  apply (propagate_inv (fun s =>
    Forall decreasing_write (st_writes s) /\ frontier_in_grid ny nx s)).
  - split; [done|]. intros yx Hyx. apply Hseed'. simpl in Hyx.
    rewrite app_nil_r in Hyx. apply elem_of_app. by right.
  - intros s Hs. subst nx. by apply (pass_decreasing ny e).
  - intros s [Hs Hf]. split; [done|]. intros yx Hyx. apply Hf. simpl in Hyx.
    rewrite app_nil_r in Hyx. apply elem_of_app. by right.
Qed.

Lemma treerings_writes_decrease_witness :
  Forall decreasing_write
    (st_writes (final_state
       (distance_from_points_treerings_separable 2 2 [0%R; 1%R] [0%R; 1%R] 2
          [0%R; 1%R; 0%R; 1%R] [0; 1] [0; 1] (replicate 4 0%R) (replicate 4 0)
          5))).
Proof.
  apply treerings_writes_decrease.
  - reflexivity.
  - unfold int_max. lia.
  - intros i Hi. assert (i = 0 \/ i = 1) as [-> | ->] by lia.
    + exists 0, 0. repeat split; lia.
    + exists 1, 1. repeat split; lia.
  - intros i j y x Hi Hj. assert (i = 0 /\ j = 1) as [-> ->] by lia.
    vm_compute. congruence.
Defined.

(** *** Concrete runs *)

Lemma treerings_after_setup
  ny nx ypos xpos npoint point_pos point_y point_x dists domains fuel
  s1 pc ps xc xs s2 :
  for_run fill_unvisited (range 0 (int32 (ny * nx)) 1)
    (entry_state dists domains)
    = Ok s1 ->
  precompute_trig point_pos npoint = Some (pc, ps) ->
  precompute_trig ypos ny = Some (xc, xs) ->
  for_run (seed (TrEnv ny nx xpos npoint point_pos pc ps xc xs) point_y point_x)
          (range 0 npoint 1) s1 = Ok s2 ->
  distance_from_points_treerings_separable ny nx ypos xpos npoint point_pos
    point_y point_x dists domains fuel
  = propagate (TrEnv ny nx xpos npoint point_pos pc ps xc xs) fuel
      (swap_buffers s2).
Proof.
  intros H1 H2 H3 H4. unfold distance_from_points_treerings_separable.
  by rewrite H1, H2, H3, H4.
Qed.

Lemma Rltb_irrefl a : Rltb a a = false.
Proof. apply Rltb_false. lra. Qed.

Lemma writes_grow e fuel s :
  st_writes s `prefix_of` st_writes (final_state (propagate e fuel s)).
Proof.
  apply (propagate_inv (fun s' => st_writes s `prefix_of` st_writes s'));
    [done| |done].
  intros s' Hs'.
  apply (for_run_inv (fun s'' => st_writes s `prefix_of` st_writes s''));
    [done|].
  intros yx s2 _ H2. unfold visit. destruct (zget _ _); [|done].
  apply (for_run_inv (fun s'' => st_writes s `prefix_of` st_writes s''));
    [done|].
  intros off s3 _ H3. unfold relax. destruct (calc_dist _ _ _ _); [|done].
  destruct (zget _ _); [|done]. destruct (Rltb _ _); [|done].
  unfold update. destruct (zget _ _); [|done].
  destruct (zset (st_dists s3) _ _); [|done].
  destruct (zset (st_domains s3) _ _); [|done]. simpl.
  by apply prefix_app_r.
Qed.

(** On the 1 x 1 grid, seed two points at the one pixel, the first at the
    position of the pixel and the second a quarter turn away. For every
    bound on the passes, the history of the run has a write (the second
    seeding) whose distance is greater than the distance the pixel held
    before. *)
Lemma treerings_second_seed_raises_distance :
  forall fuel, exists w,
    w ∈ st_writes (final_state
          (distance_from_points_treerings_separable 1 1 [0%R] [0%R] 2
             [0%R; 0%R; 0%R; (PI / 2)%R] [0; 0] [0; 0] [0%R] [0] fuel))
    /\ (w_old w < w_new w)%R.
Proof.
  intros fuel.
  rewrite (treerings_after_setup _ _ _ _ _ _ _ _ _ _ _
    (TrState [unvisited] [-1] 1024 [] 1024 [] [])
    [cos 0; cos 0] [sin 0; sin 0] [cos 0] [sin 0]
    (TrState [vincenty 0 (PI / 2) 0 0] [1] 1024 [] 1024 [(0, 0); (0, 0)]
       [Write 0 unvisited (vincenty 0 0 0 0) 0 [vincenty 0 0 0 0] [0];
        Write 0 (vincenty 0 0 0 0) (vincenty 0 (PI / 2) 0 0) 1
          [vincenty 0 (PI / 2) 0 0] [1]])); [|reflexivity..].
  match goal with
  | |- context [propagate ?e fuel ?s] =>
      pose proof (writes_grow e fuel s) as [rest Hrest]
  end.
  rewrite Hrest.
  exists (Write 0 (vincenty 0 0 0 0) (vincenty 0 (PI / 2) 0 0) 1
            [vincenty 0 (PI / 2) 0 0] [1]).
  split.
  - apply elem_of_app. left. apply list_elem_of_In. simpl. by right; left.
  - simpl.
    change (vincenty 0 0 0 0 < vincenty 0 (PI / 2) 0 0)%R.
    pose proof PI_RGT_0 as Hpi.
    assert (Hl : latitude 0) by (unfold latitude; lra).
    assert (H0 : vincenty 0 0 0 0 = 0%R).
    { apply vincenty_zero_iff; [done..|]. split; [done|]. right.
      exists 0. lra. }
    assert (H1 : vincenty 0 (PI / 2) 0 0 <> 0%R).
    { intros Hz. apply vincenty_zero_iff in Hz; [|done..].
      destruct Hz as [_ [Hc|[k Hk]]].
      - rewrite cos_0 in Hc. lra.
      - assert (IZR (4 * k) = IZR (-1)) as Hz%eq_IZR; [|lia].
        rewrite mult_IZR. nra. }
    pose proof (dist_vincenty_helper_range (PI / 2) (cos 0) (sin 0) 0 (cos 0) (sin 0)).
    unfold vincenty in *. lra.
Qed.

Lemma for_run_keep {I} (body : I -> tr_state -> run) (idx : list I) s :
  (forall i, i ∈ idx -> body i s = Ok s) -> for_run body idx s = Ok s.
Proof.
  induction idx as [|i idx IH]; intros Hb; simpl; [done|].
  rewrite Hb by (by left). apply IH. intros. apply Hb. by right.
Qed.

Lemma relax_keep e y x p off s d cur :
  calc_dist e p (wrap (y + off.1) (e_ny e)) (wrap (x + off.2) (e_nx e)) = Some d ->
  zget (st_dists s)
       (int32 (wrap (y + off.1) (e_ny e) * e_ny e + wrap (x + off.2) (e_nx e)))
    = Some cur ->
  (cur <= d)%R ->
  relax e y x p off s = Ok s.
Proof.
  intros Hd Hcur Hle. unfold relax. rewrite Hd, Hcur.
  by rewrite (proj2 (Rltb_false d cur) Hle).
Qed.

Lemma offsets_cases (P : Z * Z -> Prop) :
  P (0, -1) -> P (0, 1) -> P (-1, 0) -> P (1, 0) ->
  forall off, off ∈ offsets -> P off.
Proof.
  intros H1 H2 H3 H4 off Hoff. apply list_elem_of_In in Hoff. simpl in Hoff.
  destruct Hoff as [<-|[<-|[<-|[<-|[]]]]]; done.
Qed.

(** C3 as stated fails, on a run that ends: the run of the two points
    seeded at the one pixel of the 1 x 1 grid ends after one pass, and its
    history has the write that raised the distance of the pixel. *)
Lemma treerings_overlapping_seeds_run :
  exists s w,
    distance_from_points_treerings_separable 1 1 [0%R] [0%R] 2
      [0%R; 0%R; 0%R; (PI / 2)%R] [0; 0] [0; 0] [0%R] [0] 2 = Finished s
    /\ w ∈ st_writes s /\ (w_old w < w_new w)%R.
Proof.
  destruct (treerings_second_seed_raises_distance 2) as (w & Hin & Hlt).
  eexists _, w. split; [|done].
  rewrite (treerings_after_setup _ _ _ _ _ _ _ _ _ _ _
    (TrState [unvisited] [-1] 1024 [] 1024 [] [])
    [cos 0; cos 0] [sin 0; sin 0] [cos 0] [sin 0]
    (TrState [vincenty 0 (PI / 2) 0 0] [1] 1024 [] 1024 [(0, 0); (0, 0)]
       [Write 0 unvisited (vincenty 0 0 0 0) 0 [vincenty 0 0 0 0] [0];
        Write 0 (vincenty 0 0 0 0) (vincenty 0 (PI / 2) 0 0) 1
          [vincenty 0 (PI / 2) 0 0] [1]])); [|reflexivity..].
  cbn [propagate swap_buffers st_curr st_next].
  rewrite for_run_keep; [reflexivity|].
  intros yx Hyx. assert (yx = (0, 0)) as ->.
  { apply list_elem_of_In in Hyx. simpl in Hyx. by destruct Hyx as [<-|[<-|[]]]. }
  unfold visit. cbn [fst snd e_nx st_domains]. change (zget [1] (0 * 1 + 0)) with (Some 1).
  apply for_run_keep. apply offsets_cases;
    by apply relax_keep with (vincenty 0 (PI / 2) 0 0) (vincenty 0 (PI / 2) 0 0);
      [reflexivity..|lra].
Qed.

(** *** The comparison with another pixel than the one written *)

Lemma relax_writes_prefix e y x p off s :
  st_writes s `prefix_of` st_writes (run_state (relax e y x p off s)).
Proof.
  unfold relax. destruct (calc_dist _ _ _ _); [|done].
  destruct (zget (st_dists s) (int32 _)); [|done].
  destruct (Rltb _ _); [|done].
  unfold update. destruct (zget (st_dists s) _); [|done].
  destruct (zset (st_dists s) _ _); [|done].
  destruct (zset (st_domains s) _ _); [|done]. simpl.
  by apply prefix_app_r.
Qed.

Lemma relaxes_writes_prefix e y x p offs s :
  st_writes s `prefix_of`
    st_writes (run_state (for_run (relax e y x p) offs s)).
Proof.
  apply (for_run_inv (fun s' => st_writes s `prefix_of` st_writes s'));
    [done|].
  intros off s' _ Hs'. etrans; [done|]. apply relax_writes_prefix.
Qed.

Lemma visits_writes_prefix e l s :
  st_writes s `prefix_of` st_writes (run_state (for_run (visit e) l s)).
Proof.
  apply (for_run_inv (fun s' => st_writes s `prefix_of` st_writes s'));
    [done|].
  intros yx s' _ Hs'. etrans; [done|]. unfold visit.
  destruct (zget _ _); [|done]. apply relaxes_writes_prefix.
Qed.

(** What the first relaxation of a pass has written stays in the history
    of the run. *)
Lemma first_relax_in_history e fuel y x rest p s s3 :
  st_curr s = (y, x) :: rest ->
  zget (st_domains s) (y * e_nx e + x) = Some p ->
  relax e y x p (0, -1) s = Ok s3 ->
  st_writes s3 `prefix_of` st_writes (final_state (propagate e (S fuel) s)).
Proof.
  intros Hcur Hdom Hrelax. cbn [propagate]. rewrite Hcur, for_run_cons.
  unfold visit at 1. cbn [fst snd]. rewrite Hdom. unfold offsets.
  rewrite for_run_cons, Hrelax.
  pose proof (relaxes_writes_prefix e y x p [(0, 1); (-1, 0); (1, 0)] s3) as H1.
  destruct (for_run (relax e y x p) _ s3) as [s4|s4];
    cbn [run_state final_state] in H1 |- *; [|done].
  pose proof (visits_writes_prefix e rest s4) as H2.
  destruct (for_run (visit e) rest s4) as [s5|s5];
    cbn [run_state final_state] in H2 |- *; [|etrans; [exact H1|exact H2]].
  etrans; [exact H1|]. etrans; [exact H2|].
  apply (writes_grow e fuel (swap_buffers s5)).
Qed.

(** On a grid that is not square the propagation can raise a distance,
    seeds distinct or not: on the 2 x 3 grid with a point at each of the
    pixels (1, 2) and (1, 1), seeded there, the first relaxation of the
    first pass offers pixel (1, 1) to the point of (1, 2), compares the
    distance with the one of pixel (1, 0), still unvisited, and overwrites
    the distance 0 of pixel (1, 1) by a greater one. *)
Lemma treerings_neighbour_overwrites_nearer_seed :
  forall fuel, exists w,
    w ∈ st_writes (final_state
          (distance_from_points_treerings_separable 2 3 [1%R; 0%R]
             [PI; 0%R; (PI / 2)%R] 2 [0%R; 0%R; (PI / 2)%R; 0%R] [1; 1] [2; 1]
             (replicate 6 0%R) (replicate 6 0) (S fuel)))
    /\ w_pix w = 1 * 3 + 1 /\ (w_old w < w_new w)%R.
Proof.
  intros fuel.
  set (dA := vincenty 0 (PI / 2) 0 (PI / 2)). set (dB := vincenty 0 0 0 0).
  set (v := vincenty 0 (PI / 2) 0 0).
  set (ds1 := replicate 5 unvisited ++ [dA]).
  set (dm1 := [-1; -1; -1; -1; -1; 0]).
  set (ds2 := replicate 4 unvisited ++ [dB; dA]).
  set (dm2 := [-1; -1; -1; -1; 1; 0]).
  set (ws := [Write 5 unvisited dA 0 ds1 dm1; Write 4 unvisited dB 1 ds2 dm2]).
  rewrite (treerings_after_setup _ _ _ _ _ _ _ _ _ _ _
    (TrState (replicate 6 unvisited) (replicate 6 (-1)) 1024 [] 1024 [] [])
    [cos 0; cos 0] [sin 0; sin 0] [cos 1; cos 0] [sin 1; sin 0]
    (TrState ds2 dm2 1024 [] 1024 [(1, 2); (1, 1)] ws)); [|reflexivity..].
  set (e := TrEnv _ _ _ _ _ _ _ _ _). set (s := swap_buffers _).
  set (w := Write 4 dB v 0 (replicate 4 unvisited ++ [v; dA])
              [-1; -1; -1; -1; 0; 0]).
  pose proof PI_lt_unvisited as Hun.
  pose proof (dist_vincenty_helper_range (PI / 2) (cos 0) (sin 0) 0 (cos 0) (sin 0))
    as Hv. fold (vincenty 0 (PI / 2) 0 0) in Hv. fold v in Hv.
  assert (Hrelax : exists s3, relax e 1 2 0 (0, -1) s = Ok s3
            /\ st_writes s3 = ws ++ [w]).
  { unfold relax. cbn [fst snd].
    change (calc_dist e 0 (wrap (1 + 0) (e_ny e)) (wrap (2 + -1) (e_nx e)))
      with (Some v).
    change (zget (st_dists s)
              (int32 (wrap (1 + 0) (e_ny e) * e_ny e + wrap (2 + -1) (e_nx e))))
      with (Some unvisited).
    cbv beta iota.
    rewrite (proj2 (Rltb_true v unvisited)) by lra. eexists. split; reflexivity. }
  destruct Hrelax as (s3 & Hrelax & Hw3).
  destruct (first_relax_in_history e fuel 1 2 [(1, 1)] 0 s s3 eq_refl eq_refl
              Hrelax) as [rest Hrest].
  exists w. rewrite Hrest, Hw3. split; [|split; [done|]].
  - apply elem_of_app. left. apply elem_of_app. right. by left.
  - simpl. unfold dB. pose proof PI_RGT_0 as Hpi.
    assert (Hl : latitude 0) by (unfold latitude; lra).
    rewrite equator_same.
    assert (H1 : v <> 0%R).
    { unfold v. intros Hz. apply vincenty_zero_iff in Hz; [|done..].
      destruct Hz as [_ [Hc|[k Hk]]].
      - rewrite cos_0 in Hc. lra.
      - assert (IZR (4 * k) = IZR (-1)) as Hz%eq_IZR; [|lia].
        rewrite mult_IZR. nra. }
    lra.
Qed.

(** *** A run that does not end *)

Lemma loop_calc_dist y x :
  0 <= y < 2 -> 0 <= x < 3 ->
  exists d, calc_dist loop_env 0 y x = Some d /\ (y = 1 -> d = loop_dist x).
Proof.
  intros Hy Hx.
  assert (y = 0 \/ y = 1) as [-> | ->] by lia;
    (assert (x = 0 \/ x = 1 \/ x = 2) as [-> | [-> | ->]] by lia);
    unfold calc_dist, loop_dist; simpl; eexists; (split; [done|]);
    intros ?; try lia;
    first [apply equator_half | apply equator_quarter | apply equator_same].
Qed.

Lemma loop_update y x d s :
  loop_inv s -> 0 <= y < 2 -> 0 <= x < 3 -> (y = 1 -> d = loop_dist x) ->
  exists s', update 3 y x d 0 s = Ok s' /\ loop_inv s'
    /\ st_curr s' = st_curr s /\ st_next s' = st_next s ++ [(y, x)].
Proof.
  intros (Hd & Hm & Hval & Hfr) Hy Hx Hrow. unfold update.
  destruct (zget_is_Some (st_dists s) (y * 3 + x)) as [old Hold]; [lia|].
  rewrite Hold, !zset_is_Some by lia. eexists. split; [done|].
  split; [|done]. split; [simpl; by rewrite length_insert|].
  split; [simpl; by rewrite length_insert|]. split; simpl.
  - intros x' Hx'.
    destruct (Z.eq_dec (1 * 3 + x') (y * 3 + x)) as [Heq|Hne].
    + right. assert (x' = x /\ y = 1) as [-> Hy1] by lia. rewrite Heq, <- Hrow by done.
      apply zget_zset_eq with (st_dists s). apply zset_is_Some. lia.
    + rewrite (zget_zset_ne (st_dists s) (y * 3 + x) _ d);
        [by apply Hval|apply zset_is_Some; lia|done].
  - intros yx Hyx. rewrite app_assoc in Hyx.
    assert (0 <= yx.1 < 2 /\ 0 <= yx.2 < 3) as [Hy1 Hx1].
    { apply elem_of_app in Hyx as [Hyx|Hyx];
        [destruct (Hfr yx Hyx) as (? & ? & _); done|].
      by apply list_elem_of_singleton in Hyx as ->. }
    do 2 (split; [done|]).
    destruct (Z.eq_dec (yx.1 * 3 + yx.2) (y * 3 + x)) as [Heq|Hne].
    + rewrite Heq. apply zget_zset_eq with (st_domains s).
      apply zset_is_Some. lia.
    + rewrite (zget_zset_ne (st_domains s) (y * 3 + x) _ 0);
        [|apply zset_is_Some; lia|done].
      apply elem_of_app in Hyx as [Hyx|Hyx]; [by apply Hfr|].
      apply list_elem_of_singleton in Hyx as ->. simpl in Hne. lia.
Qed.

Lemma loop_relax y x off s :
  loop_inv s -> 0 <= y < 2 -> 0 <= x < 3 -> off ∈ offsets ->
  exists s', relax loop_env y x 0 off s = Ok s' /\ loop_inv s'
    /\ st_curr s' = st_curr s /\ exists l, st_next s' = st_next s ++ l.
Proof.
  intros Hs Hy Hx Hoff. unfold relax.
  assert (-1 <= off.1 <= 1 /\ -1 <= off.2 <= 1) as [Ho1 Ho2].
  { revert off Hoff. apply offsets_cases; simpl; lia. }
  change (e_ny loop_env) with 2. change (e_nx loop_env) with 3.
  pose proof (wrap_range (y + off.1) 2 ltac:(lia) ltac:(lia)) as Hy2.
  pose proof (wrap_range (x + off.2) 3 ltac:(lia) ltac:(lia)) as Hx2.
  rewrite int32_small by (unfold int_max; lia).
  destruct (loop_calc_dist _ _ Hy2 Hx2) as (d & -> & Hrow).
  pose proof Hs as (Hd & _).
  destruct (zget_is_Some (st_dists s)
              (wrap (y + off.1) 2 * 2 + wrap (x + off.2) 3)) as [cur ->]; [lia|].
  destruct (Rltb _ cur).
  - destruct (loop_update (wrap (y + off.1) 2) (wrap (x + off.2) 3) d s)
      as (s' & -> & Hs' & Hc & Hn); [done..|].
    exists s'. do 3 (split; [done|]). by eexists.
  - exists s. do 3 (split; [done|]). exists []. by rewrite app_nil_r.
Qed.

(** A relaxation whose neighbour lies in row 1 and is nearer to the point
    than the distance it is compared with puts the neighbour into the next
    frontier. *)
Lemma loop_relax_push y x off s :
  loop_inv s -> 0 <= y < 2 -> 0 <= x < 3 -> off ∈ offsets ->
  let y2 := wrap (y + off.1) 2 in
  let x2 := wrap (x + off.2) 3 in
  y2 = 1 ->
  (forall cur, zget (st_dists s) (y2 * 2 + x2) = Some cur ->
     (loop_dist x2 < cur)%R) ->
  exists s', relax loop_env y x 0 off s = Ok s' /\ loop_inv s'
    /\ st_curr s' = st_curr s /\ st_next s' = st_next s ++ [(y2, x2)].
Proof.
  intros Hs Hy Hx Hoff.
  assert (-1 <= off.1 <= 1 /\ -1 <= off.2 <= 1) as [Ho1 Ho2].
  { revert off Hoff. apply offsets_cases; simpl; lia. }
  intros y2 x2 Hrow1 Hlt. unfold relax.
  change (e_ny loop_env) with 2. change (e_nx loop_env) with 3.
  pose proof (wrap_range (y + off.1) 2 ltac:(lia) ltac:(lia)) as Hy2.
  pose proof (wrap_range (x + off.2) 3 ltac:(lia) ltac:(lia)) as Hx2.
  rewrite int32_small by (unfold int_max; lia).
  fold y2 x2 in Hy2, Hx2 |- *.
  destruct (loop_calc_dist _ _ Hy2 Hx2) as (d & -> & Hrow).
  rewrite (Hrow Hrow1).
  destruct (zget_is_Some (st_dists s) (y2 * 2 + x2)) as [cur Hcur];
    [destruct Hs as (Hd & _); lia|].
  rewrite Hcur, (proj2 (Rltb_true _ _) (Hlt cur Hcur)).
  by apply loop_update.
Qed.

Lemma loop_relax_all y x offs s :
  loop_inv s -> 0 <= y < 2 -> 0 <= x < 3 ->
  (forall off, off ∈ offs -> off ∈ offsets) ->
  exists s', for_run (relax loop_env y x 0) offs s = Ok s' /\ loop_inv s'
    /\ st_curr s' = st_curr s /\ exists l, st_next s' = st_next s ++ l.
Proof.
  intros Hs Hy Hx. revert s Hs. induction offs as [|off offs IH]; intros s Hs Hin.
  - exists s. do 3 (split; [done|]). exists []. by rewrite app_nil_r.
  - destruct (loop_relax y x off s) as (s1 & H1 & Hs1 & Hc1 & l1 & Hn1);
      [done..|apply Hin; by left|].
    destruct (IH s1 Hs1) as (s2 & H2 & Hs2 & Hc2 & l2 & Hn2).
    { intros. apply Hin. by right. }
    exists s2. simpl. rewrite H1. split; [done|]. split; [done|].
    split; [congruence|]. exists (l1 ++ l2). by rewrite Hn2, Hn1, app_assoc.
Qed.

(** Visiting (1, 2) puts (1, 1) into the next frontier, and visiting (1, 1)
    puts (1, 2) there. *)
Lemma loop_visit yx s :
  loop_inv s -> yx ∈ st_curr s ->
  exists s', visit loop_env yx s = Ok s' /\ loop_inv s'
    /\ st_curr s' = st_curr s /\ (exists l, st_next s' = st_next s ++ l)
    /\ (yx = (1, 2) -> (1, 1) ∈ st_next s')
    /\ (yx = (1, 1) -> (1, 2) ∈ st_next s').
Proof.
  intros Hs Hyx. pose proof Hs as (_ & _ & Hval & Hfr).
  destruct (Hfr yx) as (Hy & Hx & Hdom); [apply elem_of_app; by left|].
  unfold visit. change (e_nx loop_env) with 3. rewrite Hdom.
  pose proof PI_RGT_0 as Hpi. pose proof PI_lt_unvisited as Hun.
  destruct (decide (yx = (1, 2))) as [->|Hne2];
    [|destruct (decide (yx = (1, 1))) as [->|Hne1]].
  - cbn [fst snd]. unfold offsets. rewrite for_run_cons.
    destruct (loop_relax_push 1 2 (0, -1) s) as (s1 & -> & Hs1 & Hc1 & Hn1);
      [done|lia|lia|by left|done|..].
    { intros cur. change (wrap (1 + (0, -1).1) 2 * 2 + wrap (2 + (0, -1).2) 3)
        with (1 * 3 + 0). change (wrap (2 + (0, -1).2) 3) with 1.
      destruct (Hval 0) as [-> | ->]; [lia| |]; intros [= <-];
        unfold loop_dist; simpl; lra. }
    destruct (loop_relax_all 1 2 [(0, 1); (-1, 0); (1, 0)] s1)
      as (s2 & -> & Hs2 & Hc2 & l2 & Hn2); [done|lia|lia| |].
    { intros off Hoff. by right. }
    exists s2. do 2 (split; [done|]). split; [congruence|].
    split; [eexists; by rewrite Hn2, Hn1, <- app_assoc|].
    split; [|done]. intros _. rewrite Hn2, Hn1.
    apply elem_of_app. left. apply elem_of_app. right. by left.
  - cbn [fst snd]. unfold offsets. rewrite for_run_cons.
    destruct (loop_relax 1 1 (0, -1) s)
      as (s0 & -> & Hs0 & Hc0 & l0 & Hn0); [done|lia|lia|by left|].
    rewrite for_run_cons.
    pose proof Hs0 as (_ & _ & Hval0 & _).
    destruct (loop_relax_push 1 1 (0, 1) s0) as (s1 & -> & Hs1 & Hc1 & Hn1);
      [done|lia|lia|by right; left|done|..].
    { intros cur. change (wrap (1 + (0, 1).1) 2 * 2 + wrap (1 + (0, 1).2) 3)
        with (1 * 3 + 1). change (wrap (1 + (0, 1).2) 3) with 2.
      destruct (Hval0 1) as [-> | ->]; [lia| |]; intros [= <-];
        unfold loop_dist; simpl; lra. }
    destruct (loop_relax_all 1 1 [(-1, 0); (1, 0)] s1)
      as (s2 & -> & Hs2 & Hc2 & l2 & Hn2); [done|lia|lia| |].
    { intros off Hoff. by do 2 right. }
    exists s2. do 2 (split; [done|]). split; [congruence|].
    split; [eexists; by rewrite Hn2, Hn1, Hn0, <- !app_assoc|].
    split; [done|]. intros _. rewrite Hn2, Hn1.
    apply elem_of_app. left. apply elem_of_app. right. by left.
  - destruct (loop_relax_all yx.1 yx.2 offsets s)
      as (s2 & -> & Hs2 & Hc2 & l2 & Hn2); [done..|].
    exists s2. do 3 (split; [done|]). split; [by eexists|]. done.
Qed.

Lemma loop_pass l s :
  loop_inv s -> (forall yx, yx ∈ l -> yx ∈ st_curr s) ->
  exists s', for_run (visit loop_env) l s = Ok s' /\ loop_inv s'
    /\ st_curr s' = st_curr s /\ (exists l', st_next s' = st_next s ++ l')
    /\ ((1, 2) ∈ l -> (1, 1) ∈ st_next s')
    /\ ((1, 1) ∈ l -> (1, 2) ∈ st_next s').
Proof.
  revert s. induction l as [|yx l IH]; intros s Hs Hin.
  - exists s. do 3 (split; [done|]). split; [exists []; by rewrite app_nil_r|].
    split; by intros ?%elem_of_nil.
  - destruct (loop_visit yx s Hs) as (s1 & H1 & Hs1 & Hc1 & [l1 Hn1] & Ha1 & Hb1);
      [apply Hin; by left|].
    destruct (IH s1 Hs1) as (s2 & H2 & Hs2 & Hc2 & [l2 Hn2] & Ha2 & Hb2).
    { intros. rewrite Hc1. apply Hin. by right. }
    exists s2. simpl. rewrite H1. do 2 (split; [done|]).
    split; [congruence|].
    split; [exists (l1 ++ l2); by rewrite Hn2, Hn1, app_assoc|].
    split.
    + intros [Heq|Hl]%elem_of_cons; [|by apply Ha2].
      rewrite Hn2. apply elem_of_app. left. by apply Ha1.
    + intros [Heq|Hl]%elem_of_cons; [|by apply Hb2].
      rewrite Hn2. apply elem_of_app. left. by apply Hb1.
Qed.

Lemma loop_swap s : loop_inv s -> loop_inv (swap_buffers s).
Proof.
  intros (Hd & Hm & Hval & Hfr). do 3 (split; [done|]).
  intros yx Hyx. simpl in Hyx. rewrite app_nil_r in Hyx. apply Hfr.
  apply elem_of_app. by right.
Qed.

Lemma loop_forever fuel s :
  loop_inv s -> (1, 1) ∈ st_curr s \/ (1, 2) ∈ st_curr s ->
  exists s', propagate loop_env fuel s = OutOfFuel s'.
Proof.
  revert s. induction fuel as [|fuel IH]; intros s Hs Hfront; simpl.
  - destruct (st_curr s); [|by eexists].
    destruct Hfront as [?%elem_of_nil|?%elem_of_nil]; done.
  - destruct (st_curr s) eqn:Hc;
      [destruct Hfront as [?%elem_of_nil|?%elem_of_nil]; done|].
    rewrite <- Hc in Hfront |- *.
    destruct (loop_pass (st_curr s) s Hs) as (s1 & -> & Hs1 & _ & _ & Ha & Hb);
      [done|].
    apply IH; [by apply loop_swap|]. simpl.
    destruct Hfront; [right; by apply Hb|left; by apply Ha].
Qed.

(** C6 (the code departs from the claim). On the 2 x 3 grid of
    [loop_env], with the point seeded at pixel (1, 2), where it lies, the
    frontier never becomes empty: whatever the number of passes allowed,
    the run has not left the propagation loop. The pixels (1, 1) and (1, 2)
    put each other back into the frontier in every pass, because the
    distance compared with is read at [y2*ny+x2], one pixel to the left of
    the pixel [y2*nx+x2] that is written. *)
Theorem treerings_does_not_terminate :
  forall fuel, exists s,
    distance_from_points_treerings_separable 2 3 [1%R; 0%R]
      [PI; (PI / 2)%R; 0%R] 1 [0%R; 0%R] [1] [2]
      (replicate 6 0%R) (replicate 6 0) fuel
    = OutOfFuel s.
Proof.
  intros fuel.
  rewrite (treerings_after_setup _ _ _ _ _ _ _ _ _ _ _
    (TrState (replicate 6 unvisited) (replicate 6 (-1)) 1024 [] 1024 [] [])
    [cos 0] [sin 0] [cos 1; cos 0] [sin 1; sin 0]
    (TrState (replicate 5 unvisited ++ [vincenty 0 0 0 0])
       [-1; -1; -1; -1; -1; 0] 1024 [] 1024 [(1, 2)]
       [Write 5 unvisited (vincenty 0 0 0 0) 0
          (replicate 5 unvisited ++ [vincenty 0 0 0 0])
          [-1; -1; -1; -1; -1; 0]])); [|reflexivity..].
  apply loop_forever; [|right; simpl; by left].
  split; [done|]. split; [done|]. split.
  - intros x Hx. simpl.
    assert (x = 0 \/ x = 1 \/ x = 2) as [-> | [-> | ->]] by lia;
      try (by left).
    right. unfold loop_dist. simpl. unfold zget. simpl. f_equal.
    apply equator_same.
  - intros yx Hyx. simpl in Hyx. apply list_elem_of_singleton in Hyx as ->.
    simpl. repeat split; lia || done.
Qed.

(** *** The wrap to the last column *)

Lemma relax_fault e y x p off s :
  zget (st_dists s)
       (int32 (wrap (y + off.1) (e_ny e) * e_ny e + wrap (x + off.2) (e_nx e)))
    = None ->
  relax e y x p off s = Fault s.
Proof. intros H. unfold relax. rewrite H. by destruct (calc_dist _ _ _ _). Qed.

(** C8 (the code departs from the claim). On the grid with [ny = 5] rows
    and [nx = 4] columns, with the one point seeded at pixel (4, 0), where
    it lies, the first relaxation of the first pass wraps [x2 = -1] to 3
    and then reads the distance to compare with at [y2*ny+x2 = 23],
    outside the 20 pixels of the grid: the run stops there, and pixel
    (4, 3) (flat index 19) is still unassigned. *)
Theorem treerings_wrap_reads_outside_grid :
  forall fuel, exists s,
    distance_from_points_treerings_separable 5 4
      [(-0.2)%R; (-0.1)%R; 0%R; 0.1%R; 0.2%R] [0%R; 0.1%R; 0.2%R; 0.3%R]
      1 [0.2%R; 0%R] [4] [0] (replicate 20 0%R) (replicate 20 0) (S fuel)
    = Faulted s
    /\ zget (st_dists s) (4 * 5 + 3) = None
    /\ zget (st_dists s) (4 * 4 + 3) = Some unvisited
    /\ zget (st_domains s) (4 * 4 + 3) = Some (-1).
Proof.
  intros fuel.
  rewrite (treerings_after_setup _ _ _ _ _ _ _ _ _ _ _
    (TrState (replicate 20 unvisited) (replicate 20 (-1)) 1024 [] 1024 [] [])
    [cos 0.2] [sin 0.2]
    (cos <$> [(-0.2)%R; (-0.1)%R; 0%R; 0.1%R; 0.2%R])
    (sin <$> [(-0.2)%R; (-0.1)%R; 0%R; 0.1%R; 0.2%R])
    (TrState (<[16%nat := vincenty 0.2 0 0.2 0]> (replicate 20 unvisited))
       (<[16%nat := 0]> (replicate 20 (-1))) 1024 [] 1024 [(4, 0)]
       [Write 16 unvisited (vincenty 0.2 0 0.2 0) 0
          (<[16%nat := vincenty 0.2 0 0.2 0]> (replicate 20 unvisited))
          (<[16%nat := 0]> (replicate 20 (-1)))])); [|reflexivity..].
  eexists. split.
  - cbn [propagate swap_buffers st_curr st_next]. rewrite for_run_cons.
    unfold visit. cbn [fst snd e_nx]. set (s0 := swap_buffers _).
    change (zget (st_domains s0) (4 * 4 + 0)) with (Some 0). cbv iota.
    unfold offsets. rewrite for_run_cons, relax_fault; done.
  - by repeat split.
Qed.

Lemma fill_unvisited_ok n dists domains :
  n <= Z.of_nat (length dists) -> n <= Z.of_nat (length domains) ->
  exists s1,
    for_run fill_unvisited (range 0 n 1) (entry_state dists domains) = Ok s1.
Proof.
  intros Hd Hm.
  destruct (Z_le_gt_dec 0 n) as [Hn|Hn];
    [|rewrite range_0, seqZ_nil by lia; by eexists].
  pose proof (for_run_range_inv
    (fun _ s => length (st_dists s) = length dists
                /\ length (st_domains s) = length domains)
    (fun _ => False) fill_unvisited n (entry_state dists domains) Hn) as H.
  destruct (for_run fill_unvisited _ _) as [s1|s1]; [by eexists|].
  destruct H; [done|].
  intros k s Hk [Hld Hlm]. unfold fill_unvisited.
  rewrite !zset_is_Some by lia. simpl. by rewrite !length_insert.
Qed.

Lemma update_elsewhere nx y x d i s k :
  y * nx + x <> k ->
  zget (st_dists (run_state (update nx y x d i s))) k = zget (st_dists s) k
  /\ zget (st_domains (run_state (update nx y x d i s))) k
     = zget (st_domains s) k
  /\ st_writes s `prefix_of` st_writes (run_state (update nx y x d i s)).
Proof.
  intros Hne. unfold update. destruct (zget (st_dists s) _); [|done].
  destruct (zset (st_dists s) _ _) as [ds|] eqn:Hds; [|done].
  destruct (zset (st_domains s) _ _) as [dm|] eqn:Hdm; [|done]. simpl.
  rewrite (zget_zset_ne _ _ _ _ _ Hds), (zget_zset_ne _ _ _ _ _ Hdm) by done.
  repeat split. by apply prefix_app_r.
Qed.

Lemma relax_elsewhere e y x p off s k :
  wrap (y + off.1) (e_ny e) * e_nx e + wrap (x + off.2) (e_nx e) <> k ->
  zget (st_dists (run_state (relax e y x p off s))) k = zget (st_dists s) k
  /\ zget (st_domains (run_state (relax e y x p off s))) k
     = zget (st_domains s) k
  /\ st_writes s `prefix_of` st_writes (run_state (relax e y x p off s)).
Proof.
  intros Hne. unfold relax. destruct (calc_dist _ _ _ _); [|done].
  destruct (zget (st_dists s) (int32 _)); [|done].
  destruct (Rltb _ _); [|done].
  by apply update_elsewhere.
Qed.

Lemma propagate_one_pass e s :
  st_curr s <> [] ->
  let s1 := run_state (for_run (visit e) (st_curr s) s) in
  let s' := final_state (propagate e 1 s) in
  st_dists s' = st_dists s1 /\ st_domains s' = st_domains s1
  /\ st_writes s' = st_writes s1.
Proof.
  intros Hne. simpl. destruct (st_curr s) eqn:Hc; [by destruct Hne|]. rewrite <- Hc.
  destruct (for_run (visit e) (st_curr s) s) as [s1|s1]; simpl; [|done].
  by destruct (st_next s1).
Qed.

(** Where the distance to compare with is read inside the grid
    ([y*ny+3 < ny*4]), the claim of the specification holds: with [nx = 4]
    and the one point seeded at pixel [(y, 0)], the first write of the
    first pass (the second of the history) assigns pixel [(y, 3)], reached
    by the wrap of [x2 = -1], and at the end of the pass the pixel has its
    distance to the point and the domain 0. *)
Lemma treerings_wrap_one_hop ny ypos xpos dec ra y dists domains :
  0 <= y < ny -> y * ny + 3 < ny * 4 -> ny * 4 <= int_max ->
  Z.of_nat (length ypos) = ny -> Z.of_nat (length xpos) = 4 ->
  ny * 4 <= Z.of_nat (length dists) -> ny * 4 <= Z.of_nat (length domains) ->
  let s := final_state
    (distance_from_points_treerings_separable ny 4 ypos xpos 1 [dec; ra]
       [y] [0] dists domains 1) in
  exists pix_dec pix_ra w,
    zget ypos y = Some pix_dec /\ zget xpos 3 = Some pix_ra
    /\ zget (st_dists s) (y * 4 + 3) = Some (vincenty dec ra pix_dec pix_ra)
    /\ zget (st_domains s) (y * 4 + 3) = Some 0
    /\ st_writes s !! 1%nat = Some w
    /\ w_pix w = y * 4 + 3 /\ w_old w = unvisited
    /\ w_new w = vincenty dec ra pix_dec pix_ra /\ w_dom w = 0.
Proof.
  intros Hy Hin Hsize Hly Hlx Hld Hlm. cbv zeta.
  destruct (fill_unvisited_ok (ny * 4) dists domains Hld Hlm) as [s1 Hfill].
  assert (Hfill' : for_run fill_unvisited (range 0 (int32 (ny * 4)) 1)
                     (entry_state dists domains) = Ok s1)
    by (rewrite int32_small by (unfold int_max in *; lia); exact Hfill).
  pose proof (fill_unvisited_spec (ny * 4) dists domains) as Hspec.
  rewrite Hfill in Hspec. destruct Hspec as (Hw1 & Hc1 & Hn1 & Hall).
  destruct (precompute_trig_is_Some ypos ny) as [[xc xs] Hpre]; [lia|].
  destruct (precompute_trig_Some _ _ _ _ Hpre y Hy) as (pdec & Hpdec & Hxc & Hxs).
  destruct (zget_is_Some xpos 0) as [ra0 Hra0]; [lia|].
  destruct (zget_is_Some xpos 3) as [ra3 Hra3]; [lia|].
  set (e := TrEnv ny 4 xpos 1 [dec; ra] [cos dec] [sin dec] xc xs).
  assert (Hcalc : forall x pra, zget xpos x = Some pra ->
            calc_dist e 0 y x = Some (vincenty dec ra pdec pra)).
  { intros x pra Hx. unfold calc_dist. simpl. by rewrite Hx, Hxc, Hxs. }
  set (d0 := vincenty dec ra pdec ra0). set (d := vincenty dec ra pdec ra3).
  destruct (Hall (y * 4 + 0)) as [Hu0 Hm0]; [lia|].
  pose proof (zget_bounds _ _ _ Hu0) as Hb0.
  pose proof (zget_bounds _ _ _ Hm0) as Hb0'.
  set (ds2 := <[Z.to_nat (y * 4 + 0) := d0]> (st_dists s1)).
  set (dm2 := <[Z.to_nat (y * 4 + 0) := 0]> (st_domains s1)).
  set (w0 := Write (y * 4 + 0) unvisited d0 0 ds2 dm2).
  assert (Hup : exists s2, update 4 y 0 d0 0 s1 = Ok s2
            /\ st_dists s2 = ds2 /\ st_domains s2 = dm2
            /\ st_next s2 = [(y, 0)] /\ st_writes s2 = [w0]).
  { unfold update. rewrite Hu0, !zset_is_Some by lia. eexists.
    split; [done|]. simpl. by rewrite Hn1, Hw1. }
  destruct Hup as (s2 & Hup & Hds2 & Hdm2 & Hnx2 & Hws2).
  assert (Hseed : for_run (seed e [y] [0]) (range 0 1 1) s1 = Ok s2).
  { change (range 0 1 1) with [0]. rewrite for_run_cons. unfold seed.
    change (zget [y] 0) with (Some y). change (zget [0] 0) with (Some 0).
    cbv iota. rewrite (Hcalc 0 ra0 Hra0). change (e_nx e) with 4. fold d0.
    by rewrite Hup. }
  rewrite (treerings_after_setup ny 4 ypos xpos 1 [dec; ra] [y] [0] dists
             domains 1 s1 [cos dec] [sin dec] xc xs s2 Hfill' eq_refl Hpre Hseed).
  fold e. set (s := swap_buffers s2).
  assert (Hsd : st_dists s = ds2) by done.
  assert (Hsm : st_domains s = dm2) by done.
  assert (Hsw : st_writes s = [w0]) by done.
  assert (Hsn : st_next s = []) by done.
  assert (Hsc : st_curr s = [(y, 0)]) by done.
  clearbody s.
  destruct (propagate_one_pass e s) as (-> & -> & ->); [by rewrite Hsc|].
  rewrite Hsc, for_run_cons.
  unfold visit. cbn [fst snd]. change (e_nx e) with 4.
  assert (Hdom : zget (st_domains s) (y * 4 + 0) = Some 0).
  { rewrite Hsm. apply zget_zset_eq with (st_domains s1). apply zset_is_Some. lia. }
  rewrite Hdom. unfold offsets. rewrite for_run_cons.
  (* the first neighbour: the wrap to column 3 *)
  assert (Hwy : wrap (y + 0) ny = y).
  { unfold wrap. destruct (Z.ltb_spec (y + 0) 0); [lia|].
    destruct (Z.geb_spec (y + 0) ny); lia. }
  assert (Hcur : zget (st_dists s) (y * ny + 3) = Some unvisited).
  { rewrite Hsd. unfold ds2.
    rewrite (zget_zset_ne (st_dists s1) (y * 4 + 0) _ d0);
      [apply Hall; nia|apply zset_is_Some; lia|].
    assert (4 <= ny \/ ny = 1 \/ ny = 2 \/ ny = 3) as [?|[-> |[-> | ->]]] by lia;
      [nia|lia..]. }
  pose proof PI_lt_unvisited as Hpi.
  pose proof (calc_dist_range _ _ _ _ _ (Hcalc 3 ra3 Hra3)) as Hdr. fold d in Hdr.
  set (ds3 := <[Z.to_nat (y * 4 + 3) := d]> ds2).
  set (dm3 := <[Z.to_nat (y * 4 + 3) := 0]> dm2).
  set (w1 := Write (y * 4 + 3) unvisited d 0 ds3 dm3).
  assert (Hl2 : length ds2 = length (st_dists s1)) by apply length_insert.
  assert (Hl2' : length dm2 = length (st_domains s1)) by apply length_insert.
  assert (Hb3 : 0 <= y * 4 + 3 < Z.of_nat (length (st_dists s1))).
  { destruct (Hall (y * 4 + 3)) as [H3 _]; [lia|]. by apply zget_bounds in H3. }
  assert (Hb3' : 0 <= y * 4 + 3 < Z.of_nat (length (st_domains s1))).
  { destruct (Hall (y * 4 + 3)) as [_ H3]; [lia|]. by apply zget_bounds in H3. }
  assert (Hold3 : zget ds2 (y * 4 + 3) = Some unvisited).
  { unfold ds2. rewrite (zget_zset_ne (st_dists s1) (y * 4 + 0) _ d0);
      [apply Hall; lia|apply zset_is_Some; lia|lia]. }
  assert (Hrelax : exists s3, relax e y 0 0 (0, -1) s = Ok s3
            /\ zget (st_dists s3) (y * 4 + 3) = Some d
            /\ zget (st_domains s3) (y * 4 + 3) = Some 0
            /\ st_writes s3 = [w0; w1]).
  { unfold relax. cbn [fst snd]. change (e_ny e) with ny. change (e_nx e) with 4.
    rewrite Hwy. change (wrap (0 + -1) 4) with 3.
    rewrite int32_small by (unfold int_max in *; nia).
    rewrite (Hcalc 3 ra3 Hra3), Hcur. fold d.
    rewrite (proj2 (Rltb_true d unvisited)) by lra.
    unfold update. rewrite Hsd, Hsm.
    rewrite Hold3, !zset_is_Some by lia. eexists. split; [done|]. simpl.
    split; [apply zget_zset_eq with ds2; apply zset_is_Some; lia|].
    split; [apply zget_zset_eq with dm2; apply zset_is_Some; lia|].
    by rewrite Hsw. }
  destruct Hrelax as (s3 & -> & Hd3 & Hm3 & Hw3).
  exists pdec, ra3, w1. do 2 (split; [done|]).
  assert (Hrest :
    let s4 := run_state (for_run (relax e y 0 0) [(0, 1); (-1, 0); (1, 0)] s3) in
    zget (st_dists s4) (y * 4 + 3) = Some d
    /\ zget (st_domains s4) (y * 4 + 3) = Some 0
    /\ st_writes s4 !! 1%nat = Some w1).
  { apply (for_run_inv (fun s4 =>
      zget (st_dists s4) (y * 4 + 3) = Some d
      /\ zget (st_domains s4) (y * 4 + 3) = Some 0
      /\ st_writes s4 !! 1%nat = Some w1)).
    - by rewrite Hw3.
    - intros off s4 Hoff (H4 & H4' & H4w).
      destruct (relax_elsewhere e y 0 0 off s4 (y * 4 + 3)) as (-> & -> & Hpre4).
      + change (e_nx e) with 4.
        assert (wrap (0 + off.2) 4 = 0 \/ wrap (0 + off.2) 4 = 1) as [-> | ->];
          [|lia..].
        apply list_elem_of_In in Hoff. simpl in Hoff.
        destruct Hoff as [<-|[<-|[<-|[]]]]; vm_compute; auto.
      + do 2 (split; [done|]). by apply (prefix_lookup_Some _ _ _ _ H4w). }
  cbv zeta in Hrest.
  destruct (for_run (relax e y 0 0) [(0, 1); (-1, 0); (1, 0)] s3) as [s4|s4];
    cbn [run_state for_run] in Hrest |- *; destruct Hrest as (Ha & Hb & Hc);
    repeat split; assumption || reflexivity.
Qed.

(** *** Termination on a square grid *)

Lemma rank_le cs a b : (a <= b)%R -> (rank cs a <= rank cs b)%nat.
Proof.
  intros Hab. induction cs as [|v cs IH]; simpl; [done|].
  destruct (Rltb v a) eqn:Ea; [|lia].
  apply Rltb_true in Ea. rewrite (proj2 (Rltb_true v b)) by lra. lia.
Qed.

Lemma rank_lt cs a b : a ∈ cs -> (a < b)%R -> (rank cs a < rank cs b)%nat.
Proof.
  intros Hin Hab. induction cs as [|v cs IH]; [by apply elem_of_nil in Hin|].
  simpl. apply elem_of_cons in Hin as [<-|Hin].
  - rewrite Rltb_irrefl, (proj2 (Rltb_true a b)) by done.
    pose proof (rank_le cs a b ltac:(lra)). lia.
  - specialize (IH Hin). destruct (Rltb v a) eqn:Ea; [|lia].
    apply Rltb_true in Ea. rewrite (proj2 (Rltb_true v b)) by lra. lia.
Qed.

Lemma potential_insert cs ds i old new :
  ds !! i = Some old ->
  (potential cs (<[i := new]> ds) + rank cs old
   = potential cs ds + rank cs new)%nat.
Proof.
  revert i. induction ds as [|d ds IH]; intros i Hi; [done|].
  destruct i as [|i]; simpl in *.
  - injection Hi as ->. lia.
  - specialize (IH i Hi). lia.
Qed.

Lemma candidates_elem e p y x d :
  0 <= p < e_npoint e -> 0 <= y < e_ny e -> 0 <= x < e_nx e ->
  calc_dist e p y x = Some d -> d ∈ candidates e.
Proof.
  intros Hp Hy Hx Hd. unfold candidates.
  apply list_elem_of_bind. exists p. split; [|apply elem_of_seqZ; lia].
  apply list_elem_of_bind. exists y. split; [|apply elem_of_seqZ; lia].
  apply list_elem_of_bind. exists x. split; [|apply elem_of_seqZ; lia].
  rewrite Hd. by left.
Qed.

Lemma for_run_ok {I} (P : tr_state -> Prop) (body : I -> tr_state -> run)
  (idx : list I) s :
  P s ->
  (forall i s, i ∈ idx -> P s -> exists s', body i s = Ok s' /\ P s') ->
  exists s', for_run body idx s = Ok s' /\ P s'.
Proof.
  revert s. induction idx as [|i idx IH]; intros s Hs Hb; simpl; [by exists s|].
  destruct (Hb i s) as (s1 & -> & H1); [by left|done|].
  apply IH; [done|]. intros. apply Hb; [by right|done].
Qed.

Lemma propagate_S e fuel s :
  propagate e (S fuel) s
  = match st_curr s with
    | [] => Finished s
    | _ :: _ =>
        match for_run (visit e) (st_curr s) s with
        | Ok s' => propagate e fuel (swap_buffers s')
        | Fault s' => Faulted s'
        end
    end.
Proof. done. Qed.

Lemma propagate_empty e fuel s :
  st_curr s = [] -> propagate e fuel s = Finished s.
Proof. intros H. destruct fuel; simpl; by rewrite H. Qed.

Section Square.
Variables (n : Z) (e : tr_env).
Hypothesis (Henv : square_env n e).
Hypothesis (Hsize : n * n <= int_max).

Lemma square_update y x d p s :
  square_inv n (e_npoint e) s -> 0 <= y < n -> 0 <= x < n ->
  0 <= p < e_npoint e ->
  exists s', update n y x d p s = Ok s' /\ square_inv n (e_npoint e) s'
    /\ st_curr s' = st_curr s /\ st_next s' = st_next s ++ [(y, x)]
    /\ st_dists s' = <[Z.to_nat (y * n + x) := d]> (st_dists s).
Proof.
  intros (Hd & Hm & Hfr) Hy Hx Hp. unfold update.
  destruct (zget_is_Some (st_dists s) (y * n + x)) as [old Hold]; [nia|].
  rewrite Hold, !zset_is_Some by nia. eexists. split; [done|].
  split; [|done]. split; [simpl; rewrite length_insert; lia|].
  split; [simpl; rewrite length_insert; lia|]. simpl.
  intros yx Hyx. rewrite app_assoc in Hyx.
  assert (0 <= yx.1 < n /\ 0 <= yx.2 < n) as [Hy1 Hx1].
  { apply elem_of_app in Hyx as [Hyx|Hyx];
      [destruct (Hfr yx Hyx) as (? & ? & _); done|].
    by apply list_elem_of_singleton in Hyx as ->. }
  do 2 (split; [done|]).
  destruct (Z.eq_dec (yx.1 * n + yx.2) (y * n + x)) as [Heq|Hne].
  - exists p. split; [|done]. rewrite Heq.
    apply zget_zset_eq with (st_domains s). apply zset_is_Some. nia.
  - rewrite (zget_zset_ne (st_domains s) (y * n + x) _ p);
      [|apply zset_is_Some; nia|done].
    apply elem_of_app in Hyx as [Hyx|Hyx]; [by apply Hfr|].
    apply list_elem_of_singleton in Hyx as ->. simpl in Hne. lia.
Qed.

Lemma square_relax y x p off s :
  square_inv n (e_npoint e) s -> 0 <= y < n -> 0 <= x < n ->
  0 <= p < e_npoint e -> off ∈ offsets ->
  exists s', relax e y x p off s = Ok s' /\ square_inv n (e_npoint e) s'
    /\ st_curr s' = st_curr s /\ (measure e s' <= measure e s)%nat.
Proof.
  intros Hs Hy Hx Hp Hoff. destruct Henv as (Hny & Hnx & Hcalc).
  assert (-1 <= off.1 <= 1 /\ -1 <= off.2 <= 1) as [Ho1 Ho2].
  { revert off Hoff. apply offsets_cases; simpl; lia. }
  unfold relax. rewrite Hny, Hnx.
  pose proof (wrap_range (y + off.1) n ltac:(lia) ltac:(lia)) as Hy2.
  pose proof (wrap_range (x + off.2) n ltac:(lia) ltac:(lia)) as Hx2.
  set (y2 := wrap (y + off.1) n) in *. set (x2 := wrap (x + off.2) n) in *.
  rewrite (int32_small (y2 * n + x2)) by (unfold int_max in *; nia).
  destruct (Hcalc p y2 x2) as [cand Hcand]; [done..|]. rewrite Hcand.
  pose proof Hs as (Hd & _).
  destruct (zget_is_Some (st_dists s) (y2 * n + x2)) as [cur Hcur]; [nia|].
  rewrite Hcur. destruct (Rltb cand cur) eqn:Hlt.
  - destruct (square_update y2 x2 cand p s) as (s' & -> & Hs' & Hc & Hn & Hds);
      [done..|].
    exists s'. do 3 (split; [done|]). unfold measure.
    rewrite Hn, Hds, length_app. simpl.
    apply zget_Some in Hcur as [_ Hcur].
    pose proof (potential_insert (candidates e) (st_dists s) _ cur cand Hcur).
    assert (rank (candidates e) cand < rank (candidates e) cur)%nat.
    { apply rank_lt; [|by apply Rltb_true].
      apply (candidates_elem e p y2 x2); [done|lia|lia|done]. }
    lia.
  - exists s. by do 3 (split; [done|]).
Qed.

Lemma square_visit yx s :
  square_inv n (e_npoint e) s -> yx ∈ st_curr s ->
  exists s', visit e yx s = Ok s' /\ square_inv n (e_npoint e) s'
    /\ st_curr s' = st_curr s /\ (measure e s' <= measure e s)%nat.
Proof.
  intros Hs Hyx. pose proof Hs as (_ & _ & Hfr).
  destruct (Hfr yx) as (Hy & Hx & p & Hdom & Hp); [apply elem_of_app; by left|].
  unfold visit. rewrite (proj1 (proj2 Henv)), Hdom.
  apply (for_run_ok (fun s' => square_inv n (e_npoint e) s'
           /\ st_curr s' = st_curr s /\ (measure e s' <= measure e s)%nat));
    [done|].
  intros off s1 Hoff (H1 & Hc1 & Hm1).
  destruct (square_relax yx.1 yx.2 p off s1) as (s2 & -> & H2 & Hc2 & Hm2);
    [done..|].
  exists s2. split; [done|]. split; [done|]. split; [congruence|lia].
Qed.

Lemma square_pass s :
  square_inv n (e_npoint e) s ->
  exists s', for_run (visit e) (st_curr s) s = Ok s'
    /\ square_inv n (e_npoint e) s' /\ (measure e s' <= measure e s)%nat.
Proof.
  intros Hs.
  destruct (for_run_ok (fun s' => square_inv n (e_npoint e) s'
              /\ st_curr s' = st_curr s /\ (measure e s' <= measure e s)%nat)
              (visit e) (st_curr s) s) as (s' & Hrun & Hs' & _ & Hm);
    [done| |by exists s'].
  intros yx s1 Hyx (H1 & Hc1 & Hm1).
  destruct (square_visit yx s1) as (s2 & -> & H2 & Hc2 & Hm2);
    [done|by rewrite Hc1|].
  exists s2. split; [done|]. split; [done|]. split; [congruence|lia].
Qed.

Lemma square_swap s :
  square_inv n (e_npoint e) s -> square_inv n (e_npoint e) (swap_buffers s).
Proof.
  intros (Hd & Hm & Hfr). do 2 (split; [done|]).
  intros yx Hyx. simpl in Hyx. rewrite app_nil_r in Hyx. apply Hfr.
  apply elem_of_app. by right.
Qed.

(** The loop ends within as many passes as the measure allows, plus one. *)
Lemma square_propagate m s :
  square_inv n (e_npoint e) s -> st_next s = [] ->
  (potential (candidates e) (st_dists s) <= m)%nat ->
  exists s', propagate e (S m) s = Finished s'.
Proof.
  revert s. induction m as [|m IH]; intros s Hs Hnext Hpot.
  - simpl. destruct (st_curr s) eqn:Hc; [by eexists|]. rewrite <- Hc.
    destruct (square_pass s Hs) as (s1 & -> & Hs1 & Hm1).
    unfold measure in Hm1. rewrite Hnext in Hm1. simpl in Hm1.
    assert (st_next s1 = []) as Hn1 by (destruct (st_next s1); [done|simpl in *; lia]).
    exists (swap_buffers s1). by rewrite Hn1.
  - rewrite propagate_S. destruct (st_curr s) eqn:Hc; [by eexists|]. rewrite <- Hc.
    destruct (square_pass s Hs) as (s1 & -> & Hs1 & Hm1).
    unfold measure in Hm1. rewrite Hnext in Hm1. simpl in Hm1.
    destruct (st_next s1) eqn:Hn1.
    + exists (swap_buffers s1). apply propagate_empty. simpl. by rewrite Hn1.
    + apply IH; [by apply square_swap|done|]. simpl in *. lia.
Qed.

End Square.

Lemma fill_unvisited_lengths idx dists domains :
  let s := run_state (for_run fill_unvisited idx (entry_state dists domains)) in
  length (st_dists s) = length dists /\ length (st_domains s) = length domains.
Proof.
  apply (for_run_inv (fun s => length (st_dists s) = length dists
                               /\ length (st_domains s) = length domains));
    [done|].
  intros i s _ [Hd Hm]. unfold fill_unvisited.
  destruct (zset (st_dists s) i unvisited) as [ds|] eqn:Hds; [|done].
  apply zset_length in Hds.
  destruct (zset (st_domains s) i (-1)) as [dm|] eqn:Hdm; simpl;
    [apply zset_length in Hdm|]; split; congruence.
Qed.

(** The set-up of a call on a square grid whose [n * n] pixels an [int]
    can count, with arrays of the sizes the code indexes and the seed
    pixels in the grid: the fill, the two tables and the seeding complete,
    and the call is the propagation from the seeded state. *)
Lemma square_setup n ypos xpos npoint point_pos point_y point_x dists domains :
  n * n <= int_max ->
  n <= Z.of_nat (length ypos) -> n <= Z.of_nat (length xpos) ->
  2 * npoint <= Z.of_nat (length point_pos) ->
  n * n <= Z.of_nat (length dists) -> n * n <= Z.of_nat (length domains) ->
  seeds_in_grid n n npoint point_y point_x ->
  exists pc ps xc xs s2,
    let e := TrEnv n n xpos npoint point_pos pc ps xc xs in
    square_env n e
    /\ (forall fuel,
         distance_from_points_treerings_separable n n ypos xpos npoint
           point_pos point_y point_x dists domains fuel
         = propagate e fuel (swap_buffers s2))
    /\ square_inv n npoint s2
    /\ exists s1,
         for_run fill_unvisited (range 0 (n * n) 1) (entry_state dists domains)
           = Ok s1
         /\ for_run (seed e point_y point_x) (range 0 npoint 1) s1 = Ok s2.
Proof.
  intros Hsize Hly Hlx Hlp Hld Hlm Hseeds.
  destruct (fill_unvisited_ok (n * n) dists domains Hld Hlm) as [s1 Hfill].
  pose proof (fill_unvisited_lengths (range 0 (n * n) 1) dists domains) as Hlen.
  pose proof (fill_unvisited_spec (n * n) dists domains) as Hspec.
  rewrite Hfill in Hlen, Hspec. simpl in Hlen.
  destruct Hlen as [Hl1 Hl1']. destruct Hspec as (_ & Hc1 & Hn1 & _).
  destruct (precompute_trig_is_Some point_pos npoint) as [[pc ps] Hpp]; [lia|].
  destruct (precompute_trig_is_Some ypos n) as [[xc xs] Hpy]; [lia|].
  exists pc, ps, xc, xs.
  set (e := TrEnv n n xpos npoint point_pos pc ps xc xs).
  assert (Henv : square_env n e).
  { do 2 (split; [done|]). intros p y x Hp Hy Hx. unfold calc_dist, e in *.
    simpl in *.
    destruct (zget_is_Some point_pos (p + npoint)) as [ra ->]; [lia|].
    destruct (precompute_trig_Some _ _ _ _ Hpp p Hp) as (? & _ & -> & ->).
    destruct (zget_is_Some xpos x) as [pra ->]; [lia|].
    destruct (precompute_trig_Some _ _ _ _ Hpy y Hy) as (? & _ & -> & ->).
    by eexists. }
  assert (H1 : square_inv n npoint s1).
  { split; [lia|]. split; [lia|]. intros yx. rewrite Hc1, Hn1.
    by intros ?%elem_of_nil. }
  destruct (for_run_ok (square_inv n npoint) (seed e point_y point_x)
              (range 0 npoint 1) s1 H1) as (s2 & Hseed & H2).
  { intros i s Hi%range_bounds Hs; [|lia]. unfold seed.
    destruct (Hseeds i) as (y & x & -> & -> & Hy & Hx); [lia|].
    destruct (proj2 (proj2 Henv) i y x) as [d ->]; [simpl; lia|done..|].
    destruct (square_update n e y x d i s) as (s' & Hup & Hs' & _);
      [done..|simpl; lia|].
    exists s'. by split. }
  exists s2. cbv zeta. split; [done|]. split; [|split; [done|by exists s1]].
  intros fuel.
  apply (treerings_after_setup n n ypos xpos npoint point_pos point_y
           point_x dists domains fuel s1 pc ps xc xs s2); [|done..].
  rewrite int32_small; [done|]. unfold int_max in *. nia.
Qed.

(** X1. On a square grid whose [n * n] pixels an [int] can count, with
    arrays of the sizes the code indexes and the seed pixels in the grid,
    the propagation loop reaches an empty frontier, so the call returns:
    some bound on the number of passes is enough for the run to finish,
    without a fault. *)
Lemma treerings_terminates_on_square_grid
  n ypos xpos npoint point_pos point_y point_x dists domains :
  n * n <= int_max ->
  n <= Z.of_nat (length ypos) -> n <= Z.of_nat (length xpos) ->
  2 * npoint <= Z.of_nat (length point_pos) ->
  n * n <= Z.of_nat (length dists) -> n * n <= Z.of_nat (length domains) ->
  seeds_in_grid n n npoint point_y point_x ->
  exists fuel s,
    distance_from_points_treerings_separable n n ypos xpos npoint point_pos
      point_y point_x dists domains fuel = Finished s.
Proof.
  intros Hsize Hly Hlx Hlp Hld Hlm Hseeds.
  destruct (square_setup n ypos xpos npoint point_pos point_y point_x dists
              domains Hsize Hly Hlx Hlp Hld Hlm Hseeds)
    as (pc & ps & xc & xs & s2 & Henv & Hrun & H2 & _).
  set (e := TrEnv n n xpos npoint point_pos pc ps xc xs) in *.
  destruct (square_propagate n e Henv Hsize
              (potential (candidates e) (st_dists (swap_buffers s2)))
              (swap_buffers s2)) as [s' Hs'];
    [by apply (square_swap n e)|done|done|].
  exists (S (potential (candidates e) (st_dists (swap_buffers s2)))), s'.
  by rewrite Hrun.
Qed.

Lemma treerings_terminates_on_square_grid_witness :
  exists fuel s,
    distance_from_points_treerings_separable 2 2 [0%R; 1%R] [0%R; 1%R] 1
      [0%R; 0%R] [0] [1] (replicate 4 0%R) (replicate 4 0) fuel = Finished s.
Proof.
  apply treerings_terminates_on_square_grid; simpl; try (unfold int_max; lia).
  intros i Hi. assert (i = 0) as -> by lia. exists 0, 1. simpl.
  repeat split; lia.
Defined.

(** * Further properties *)

(** ** More on [find_edges] *)

Lemma for_each_inv {I St} (P : St -> Prop) (body : I -> St -> option St)
  idx s s' :
  (forall i t t', i ∈ idx -> P t -> body i t = Some t' -> P t') ->
  P s -> for_each body idx s = Some s' -> P s'.
Proof.
  revert s. induction idx as [|i idx IH]; intros s Hb Hs; simpl.
  - by intros [= <-].
  - destruct (body i s) as [t|] eqn:E; [|done]. apply IH.
    + intros j ? ? Hj. apply Hb. by right.
    + apply (Hb i s t); [by left|done..].
Qed.

Lemma for_each_fault {I St} (body : I -> St -> option St) idx i s :
  i ∈ idx -> (forall t, body i t = None) -> for_each body idx s = None.
Proof.
  intros Hi Hf. revert s. induction idx as [|j idx IH]; intros s; simpl.
  - by apply elem_of_nil in Hi.
  - apply elem_of_cons in Hi as [<-|Hi]; [by rewrite Hf|].
    destruct (body j s); [by apply IH|done].
Qed.

Lemma range_empty a b step : b <= a -> range a b step = [].
Proof. intros H. unfold range. by replace (Z.to_nat (b - a)) with 0%nat by lia. Qed.

Lemma push_if_zero_sound mask i e e' :
  Forall (fun k => zget mask k = Some 0) (iv_items e) ->
  push_if_zero mask i e = Some e' ->
  Forall (fun k => zget mask k = Some 0) (iv_items e').
Proof.
  intros He. unfold push_if_zero.
  destruct (zget mask i) as [m|] eqn:Hm; [|done]. simpl.
  destruct (Z.eqb_spec m 0) as [-> |_]; intros [= <-]; [|done].
  rewrite push_items. apply Forall_app. split; [done|]. by constructor.
Qed.

Lemma push_if_interior_edge_sound nx mask i e e' :
  Forall (fun k => zget mask k = Some 0) (iv_items e) ->
  push_if_interior_edge nx mask i e = Some e' ->
  Forall (fun k => zget mask k = Some 0) (iv_items e').
Proof.
  intros He. unfold push_if_interior_edge.
  destruct (zget mask i) as [m|] eqn:Hm; [|done]. simpl.
  destruct (Z.eqb_spec m 0) as [-> |_]; simpl; [|by intros [= <-]].
  assert (Hp : Forall (fun k => zget mask k = Some 0) (iv_items (push e i))).
  { rewrite push_items. apply Forall_app. split; [done|]. by constructor. }
  destruct (zget mask (i - 1)) as [a|]; [|done]. simpl.
  destruct (negb (a =? 0)); [by intros [= <-]|].
  destruct (zget mask (i + 1)) as [b|]; [|done]. simpl.
  destruct (negb (b =? 0)); [by intros [= <-]|].
  destruct (zget mask (i - nx)) as [c|]; [|done]. simpl.
  destruct (negb (c =? 0)); [by intros [= <-]|].
  destruct (zget mask (i + nx)) as [d|]; [|done]. simpl.
  destruct (negb (d =? 0)); by intros [= <-].
Qed.

Lemma find_edges_sound ny nx mask edges :
  find_edges ny nx mask = Some edges ->
  Forall (fun i => zget mask i = Some 0) edges.
Proof.
  unfold find_edges. cbv zeta.
  set (P := fun e : ivec => Forall (fun k => zget mask k = Some 0) (iv_items e)).
  assert (Hscan : forall idx e e', P e ->
            for_each (push_if_zero mask) idx e = Some e' -> P e').
  { intros idx e e' He. apply for_each_inv; [|done].
    intros i t t' _. apply push_if_zero_sound. }
  destruct (for_each _ (range 0 nx 1) _) as [e1|] eqn:E1; [|done].
  cbn [mbind option_bind].
  destruct (for_each _ (range ((ny - 1) * nx) _ 1) _) as [e2|] eqn:E2; [|done].
  cbn [mbind option_bind].
  destruct (for_each _ (range nx _ nx) _) as [e3|] eqn:E3; [|done].
  cbn [mbind option_bind].
  destruct (for_each _ (range (nx - 1) _ nx) _) as [e4|] eqn:E4; [|done].
  cbn [mbind option_bind].
  destruct (for_each _ (range 1 (ny - 1) 1) _) as [e5|] eqn:E5; [|done].
  cbn [mbind option_bind]. intros [= <-].
  assert (P (IVec 256 [])) as H0 by constructor.
  pose proof (Hscan _ _ _ H0 E1) as H1. pose proof (Hscan _ _ _ H1 E2) as H2.
  pose proof (Hscan _ _ _ H2 E3) as H3. pose proof (Hscan _ _ _ H3 E4) as H4.
  change (P e5). revert E5. apply (for_each_inv P); [|done].
  intros y t t' _ Ht. apply (for_each_inv P); [|done].
  intros x u u' _. apply push_if_interior_edge_sound.
Qed.

(** On a grid with at least as many rows as columns whose mask has its
    [ny * nx] pixels, no loop of [find_edges] reads outside the mask: the
    call returns. *)
Lemma find_edges_returns ny nx mask :
  1 <= nx <= ny -> Z.of_nat (length mask) = ny * nx ->
  exists edges, find_edges ny nx mask = Some edges.
Proof.
  intros Hn Hlen. unfold find_edges. cbv zeta.
  destruct (scan_zero_items mask (range 0 nx 1) (IVec 256 []))
    as (e1 & -> & _); [intros i Hi%range1_elem; nia|].
  cbn [mbind option_bind].
  destruct (scan_zero_items mask (range ((ny - 1) * nx) (nx * nx) 1) e1)
    as (e2 & -> & _); [intros i Hi%range1_elem; nia|].
  cbn [mbind option_bind].
  destruct (scan_zero_items mask (range nx (ny * nx) nx) e2)
    as (e3 & -> & _); [intros i Hi%range_bounds; lia|].
  cbn [mbind option_bind].
  destruct (scan_zero_items mask (range (nx - 1) (ny * nx) nx) e3)
    as (e4 & -> & _); [intros i Hi%range_bounds; lia|].
  cbn [mbind option_bind].
  destruct (scan_interior_items nx mask (range 1 (ny - 1) 1)
              (range 1 (nx - 1) 1) e4)
    as (e5 & -> & _); [lia|intros y x Hy%range1_elem Hx%range1_elem; nia|].
  by eexists.
Qed.

(** X2. On a grid with at least as many rows as columns whose mask has
    its [ny * nx] pixels, [find_edges] returns, and every index it returns
    is the index of a pixel of the grid where the mask is 0. *)
Theorem find_edges_lists_zero_pixels ny nx mask :
  1 <= nx <= ny -> Z.of_nat (length mask) = ny * nx ->
  exists edges, find_edges ny nx mask = Some edges
    /\ Forall (fun i => 0 <= i < ny * nx /\ zget mask i = Some 0) edges.
Proof.
  intros Hn Hlen.
  destruct (find_edges_returns ny nx mask Hn Hlen) as [edges Hrun].
  exists edges. split; [done|].
  eapply list.Forall_impl; [exact (find_edges_sound _ _ _ _ Hrun)|].
  intros i Hi. cbv beta in *. split; [|done].
  apply zget_bounds in Hi. lia.
Qed.

Lemma find_edges_lists_zero_pixels_witness :
  exists edges, find_edges 3 2 [1; 0; 0; 1; 1; 0] = Some edges
    /\ Forall (fun i => 0 <= i < 3 * 2 /\ zget [1; 0; 0; 1; 1; 0] i = Some 0)
         edges.
Proof. apply find_edges_lists_zero_pixels; [lia|reflexivity]. Defined.

(** X3. On a square grid whose mask has its [n * n] pixels, [find_edges]
    returns normally, and the indices it returns are exactly the pixels of
    value 0 that lie in the first or last row, in the first or last
    column, or next to a pixel of another value. *)
Theorem find_edges_square_pixels n mask :
  1 <= n -> Z.of_nat (length mask) = n * n ->
  exists edges, find_edges n n mask = Some edges
    /\ forall k, k ∈ edges <->
         0 <= k < n * n /\ zget mask k = Some 0
         /\ (k / n = 0 \/ k / n = n - 1 \/ k mod n = 0 \/ k mod n = n - 1
             \/ has_nonzero_neighbour n mask k = true).
Proof.
  intros Hn Hlen.
  destruct (find_edges_square_exact n mask Hn Hlen) as (edges & Hrun & Hk).
  exists edges. split; [done|]. intros k.
  rewrite Hk, boundary_pixel_spec_true. tauto.
Qed.

Lemma find_edges_square_pixels_witness :
  exists edges, find_edges 2 2 [0; 1; 1; 1] = Some edges
    /\ forall k, k ∈ edges <->
         0 <= k < 2 * 2 /\ zget [0; 1; 1; 1] k = Some 0
         /\ (k / 2 = 0 \/ k / 2 = 2 - 1 \/ k mod 2 = 0 \/ k mod 2 = 2 - 1
             \/ has_nonzero_neighbour 2 [0; 1; 1; 1] k = true).
Proof. apply find_edges_square_pixels; [lia|reflexivity]. Defined.

(** In a row of a square grid, left of a zero pixel or at it, there is a
    boundary pixel: the first pixel of the run of zeros that ends there. *)
Lemma zero_run_has_edge n mask y (x : nat) :
  1 <= n -> Z.of_nat (length mask) = n * n ->
  0 <= y < n -> Z.of_nat x < n ->
  zget mask (y * n + Z.of_nat x) = Some 0 ->
  exists k, boundary_pixel_spec n n mask k = true.
Proof.
  intros Hn Hlen Hy. induction x as [|x IH]; intros Hx Hz.
  - change (Z.of_nat 0) with 0 in Hz. rewrite Z.add_0_r in Hz.
    exists (y * n). apply boundary_pixel_spec_true.
    split; [nia|]. split; [done|]. left. do 2 right. left.
    apply Z.mod_mul. lia.
  - destruct (zget_is_Some mask (y * n + Z.of_nat x)) as [m Hm]; [nia|].
    destruct (Z.eq_dec m 0) as [-> |Hne]; [apply IH; [lia|done]|].
    exists (y * n + Z.of_nat (S x)). apply boundary_pixel_spec_true.
    split; [nia|]. split; [done|]. right.
    unfold has_nonzero_neighbour, nonzero_at.
    replace (y * n + Z.of_nat (S x) - 1) with (y * n + Z.of_nat x) by lia.
    rewrite Hm. by destruct (Z.eqb_spec m 0).
Qed.

(** X4. On a square grid whose mask has its [n * n] pixels, [find_edges]
    returns the empty sequence exactly when the mask has no zero: as soon
    as a pixel is 0, some pixel is returned. *)
Theorem find_edges_square_empty_iff n mask :
  1 <= n -> Z.of_nat (length mask) = n * n ->
  exists edges, find_edges n n mask = Some edges
    /\ (edges = [] <-> Forall (fun m => m <> 0) mask).
Proof.
  intros Hn Hlen.
  destruct (find_edges_square_exact n mask Hn Hlen) as (edges & Hrun & Hk).
  exists edges. split; [done|]. split.
  - intros ->. apply list.Forall_forall. intros m Hm ->.
    apply list_elem_of_lookup_1 in Hm as [i Hi].
    pose proof (lookup_lt_Some _ _ _ Hi) as Hlt.
    set (k := Z.of_nat i).
    assert (Hz : zget mask k = Some 0).
    { apply zget_Some. split; [lia|]. unfold k. by rewrite Nat2Z.id. }
    pose proof (Z.div_mod k n ltac:(lia)) as Hdm.
    pose proof (Z.mod_pos_bound k n ltac:(lia)) as Hmod.
    destruct (zero_run_has_edge n mask (k / n) (Z.to_nat (k mod n)))
      as [k' Hk']; [done|done|unfold k in *; nia|lia| |].
    + rewrite Z2Nat.id by lia. by replace (k / n * n + k mod n) with k by lia.
    + apply Hk in Hk'. by apply elem_of_nil in Hk'.
  - intros Hall. rewrite (find_edges_no_zero n n mask) in Hrun by (done || lia).
    by injection Hrun as <-.
Qed.

Lemma find_edges_square_empty_iff_witness :
  exists edges, find_edges 2 2 [1; 1; 0; 1] = Some edges
    /\ (edges = [] <-> Forall (fun m => m <> 0) [1; 1; 0; 1]).
Proof. apply find_edges_square_empty_iff; [lia|reflexivity]. Defined.

(** X5. On a grid with more rows than columns the bottom-row loop, which
    starts at [(ny-1)*nx] and stops at [nx*nx], does not run: [find_edges]
    returns the zero pixels of the first row and of the first and last
    columns, and the zero pixels next to a nonzero one of the rows above
    the last. A zero pixel of the last row is returned only in the two
    corners. *)
Theorem find_edges_tall_grid ny nx mask :
  1 <= nx < ny -> Z.of_nat (length mask) = ny * nx ->
  exists edges, find_edges ny nx mask = Some edges
    /\ forall k, k ∈ edges <->
         0 <= k < ny * nx /\ zget mask k = Some 0
         /\ (k / nx = 0 \/ k mod nx = 0 \/ k mod nx = nx - 1
             \/ (k / nx < ny - 1 /\ has_nonzero_neighbour nx mask k = true)).
Proof.
  intros Hn Hlen. unfold find_edges. cbv zeta.
  destruct (scan_zero_items mask (range 0 nx 1) (IVec 256 []))
    as (e1 & -> & H1); [intros i Hi%range1_elem; nia|].
  cbn [mbind option_bind].
  rewrite (range_empty ((ny - 1) * nx) (nx * nx) 1) by nia.
  cbn [for_each mbind option_bind].
  destruct (scan_zero_items mask (range nx (ny * nx) nx) e1)
    as (e3 & -> & H3); [intros i Hi%range_bounds; lia|].
  cbn [mbind option_bind].
  destruct (scan_zero_items mask (range (nx - 1) (ny * nx) nx) e3)
    as (e4 & -> & H4); [intros i Hi%range_bounds; lia|].
  cbn [mbind option_bind].
  destruct (scan_interior_items nx mask (range 1 (ny - 1) 1) (range 1 (nx - 1) 1) e4)
    as (e5 & -> & H5); [lia|intros y x Hy%range1_elem Hx%range1_elem; nia|].
  cbn [mbind option_bind]. eexists. split; [done|]. intros k.
  rewrite H5, H4, H3, H1.
  rewrite !range1_elem, !range_elem by lia. simpl iv_items.
  pose proof (Z.div_mod k nx ltac:(lia)) as Hk.
  pose proof (Z.mod_pos_bound k nx ltac:(lia)) as Hx.
  split.
  - intros [[[[?%elem_of_nil|[Hr Hz]]|[(m & Hm & -> & Hr) Hz]]
            |[(m & Hm & -> & Hr) Hz]]|(y & x & Hy & Hx' & -> & Hz & Hnb)];
      [done|..].
    + split; [nia|]. split; [done|]. left. apply Z.div_small. lia.
    + split; [nia|]. split; [done|]. right. left.
      symmetry. apply (Z.mod_unique _ _ (m + 1)); lia.
    + split; [nia|]. split; [done|]. do 2 right. left.
      symmetry. apply (Z.mod_unique _ _ m); lia.
    + apply range1_elem in Hy, Hx'.
      split; [clear Hk Hx; nia|]. split; [done|]. do 3 right.
      split; [|done].
      assert ((y * nx + x) / nx = y) as ->; [|lia].
      symmetry. apply (Z.div_unique _ _ _ x); lia.
  - intros (Hr & Hz & Hcase).
    assert (0 <= k / nx < ny) as Hy by nia.
    destruct (decide (k / nx = 0)) as [Hy0|Hy0];
      [do 3 left; right; split; [nia|done]|].
    destruct (decide (k mod nx = 0)) as [Hx0|Hx0].
    { do 2 left; right. split; [|done]. exists (k / nx - 1). nia. }
    destruct (decide (k mod nx = nx - 1)) as [Hx1|Hx1].
    { left; right. split; [|done]. exists (k / nx). nia. }
    right. exists (k / nx), (k mod nx).
    destruct Hcase as [?|[?|[?|[Hlast Hnb]]]]; try done.
    split; [apply range1_elem; lia|]. split; [apply range1_elem; lia|].
    split; [lia|done].
Qed.

Lemma find_edges_tall_grid_witness :
  exists edges, find_edges 4 3 (replicate 12 0) = Some edges
    /\ forall k, k ∈ edges <->
         0 <= k < 4 * 3 /\ zget (replicate 12 0) k = Some 0
         /\ (k / 3 = 0 \/ k mod 3 = 0 \/ k mod 3 = 3 - 1
             \/ (k / 3 < 4 - 1 /\ has_nonzero_neighbour 3 (replicate 12 0) k = true)).
Proof. apply find_edges_tall_grid; [lia|reflexivity]. Defined.

(** X6. On a grid with more columns than rows whose mask has its
    [ny * nx] pixels, the bottom-row loop runs on to [nx*nx - 1] and reads
    the mask past its end. *)
Theorem find_edges_wide_grid_reads_outside ny nx mask :
  1 <= ny < nx -> Z.of_nat (length mask) = ny * nx ->
  find_edges ny nx mask = None.
Proof.
  intros Hn Hlen. unfold find_edges. cbv zeta.
  destruct (scan_zero_items mask (range 0 nx 1) (IVec 256 []))
    as (e1 & -> & _); [intros i Hi%range1_elem; nia|].
  cbn [mbind option_bind].
  rewrite (for_each_fault (push_if_zero mask) _ (ny * nx)); [done| |].
  - apply range1_elem. nia.
  - intros t. unfold push_if_zero.
    by rewrite (proj2 (zget_None mask (ny * nx))) by lia.
Qed.

Lemma find_edges_wide_grid_reads_outside_witness :
  find_edges 1 2 [0; 1] = None.
Proof. apply find_edges_wide_grid_reads_outside; [lia|reflexivity]. Defined.

Lemma scan_zero_app mask idx e e' :
  for_each (push_if_zero mask) idx e = Some e' ->
  exists l, iv_items e' = iv_items e ++ l
    /\ forall k, k ∈ idx -> zget mask k = Some 0 -> k ∈ l.
Proof.
  revert e. induction idx as [|i idx IH]; intros e; simpl.
  - intros [= <-]. exists []. split; [by rewrite app_nil_r|].
    by intros k ?%elem_of_nil.
  - unfold push_if_zero at 1. destruct (zget mask i) as [m|] eqn:Hm; [|done].
    simpl. intros (l & Hl & Hin)%IH.
    destruct (Z.eqb_spec m 0) as [-> |Hne].
    + exists (i :: l). rewrite Hl, push_items, <- app_assoc. split; [done|].
      intros k [-> |Hk]%elem_of_cons Hz; [by left|right; by apply Hin].
    + exists l. split; [done|].
      intros k [-> |Hk]%elem_of_cons Hz; [congruence|by apply Hin].
Qed.

Lemma push_if_interior_edge_prefix nx mask i e e' :
  push_if_interior_edge nx mask i e = Some e' ->
  iv_items e `prefix_of` iv_items e'.
Proof.
  unfold push_if_interior_edge.
  assert (Hp : iv_items e `prefix_of` iv_items (push e i))
    by (rewrite push_items; by apply prefix_app_r).
  destruct (zget mask i) as [m|]; [|done]. simpl.
  destruct (negb (m =? 0)); [by intros [= <-]|].
  destruct (zget mask (i - 1)) as [a|]; [|done]. simpl.
  destruct (negb (a =? 0)); [by intros [= <-]|].
  destruct (zget mask (i + 1)) as [b|]; [|done]. simpl.
  destruct (negb (b =? 0)); [by intros [= <-]|].
  destruct (zget mask (i - nx)) as [c|]; [|done]. simpl.
  destruct (negb (c =? 0)); [by intros [= <-]|].
  destruct (zget mask (i + nx)) as [d|]; [|done]. simpl.
  destruct (negb (d =? 0)); by intros [= <-].
Qed.

(** X7. The sequence that [find_edges] returns can hold an index twice: a
    zero pixel in the top right corner is pushed by the loop over the first
    row and again by the loop over the last column. *)
Theorem find_edges_lists_corner_twice ny nx mask edges :
  1 <= ny -> 1 <= nx ->
  find_edges ny nx mask = Some edges ->
  zget mask (nx - 1) = Some 0 ->
  exists a b c, edges = a ++ (nx - 1) :: b ++ (nx - 1) :: c.
Proof.
  intros Hny Hnx. unfold find_edges. cbv zeta.
  destruct (for_each _ (range 0 nx 1) _) as [e1|] eqn:E1; [|done].
  cbn [mbind option_bind].
  destruct (for_each _ (range ((ny - 1) * nx) _ 1) _) as [e2|] eqn:E2; [|done].
  cbn [mbind option_bind].
  destruct (for_each _ (range nx _ nx) _) as [e3|] eqn:E3; [|done].
  cbn [mbind option_bind].
  destruct (for_each _ (range (nx - 1) _ nx) _) as [e4|] eqn:E4; [|done].
  cbn [mbind option_bind].
  destruct (for_each _ (range 1 (ny - 1) 1) _) as [e5|] eqn:E5; [|done].
  cbn [mbind option_bind]. intros [= <-] Hz.
  apply scan_zero_app in E1 as (l1 & H1 & Hin1).
  apply scan_zero_app in E2 as (l2 & H2 & _).
  apply scan_zero_app in E3 as (l3 & H3 & _).
  apply scan_zero_app in E4 as (l4 & H4 & Hin4).
  assert (iv_items e4 `prefix_of` iv_items e5) as [l5 H5].
  { revert E5. apply (for_each_inv (fun t => iv_items e4 `prefix_of` iv_items t));
      [|done].
    intros y t t' _ Ht.
    apply (for_each_inv (fun t => iv_items e4 `prefix_of` iv_items t)); [|done].
    intros x u u' _ Hu Hstep. etrans; [done|].
    by apply push_if_interior_edge_prefix in Hstep. }
  destruct (list_elem_of_split l1 (nx - 1)) as (a & a' & ->).
  { apply Hin1; [apply range1_elem; lia|done]. }
  destruct (list_elem_of_split l4 (nx - 1)) as (b & b' & ->).
  { apply Hin4; [|done]. apply range_elem; [lia|]. exists 0. nia. }
  exists a, (a' ++ l2 ++ l3 ++ b), (b' ++ l5).
  rewrite H5, H4, H3, H2, H1. simpl. by simplify_list_eq.
Qed.

Lemma find_edges_lists_corner_twice_witness :
  exists a b c, [0; 1; 3; 1; 3] = a ++ (2 - 1) :: b ++ (2 - 1) :: c.
Proof.
  apply (find_edges_lists_corner_twice 2 2 [0; 0; 1; 0]); [lia|lia|reflexivity..].
Defined.

(** ** [find_edges_labeled] *)

Lemma zget_fmap {A B} (f : A -> B) (l : list A) i :
  zget (f <$> l) i = f <$> zget l i.
Proof. unfold zget. destruct (i <? 0); [done|]. apply list_lookup_fmap. Qed.

Lemma push_if_label_zero_region mask i e :
  push_if_label (zero_region_labels mask) i e = push_if_zero mask i e.
Proof.
  unfold push_if_label, push_if_zero, zero_region_labels. rewrite zget_fmap.
  destruct (zget mask i) as [m|]; [|done]. simpl.
  by destruct (Z.eqb_spec m 0).
Qed.

Lemma push_if_label_edge_zero_region nx mask i e :
  push_if_label_edge nx (zero_region_labels mask) i e
  = push_if_interior_edge nx mask i e.
Proof.
  unfold push_if_label_edge, push_if_interior_edge, zero_region_labels.
  rewrite !zget_fmap.
  destruct (zget mask i) as [m|]; [|done]. simpl.
  destruct (Z.eqb_spec m 0) as [-> |_]; [|done]. simpl.
  destruct (zget mask (i - 1)) as [a|]; [|done]. simpl.
  destruct (Z.eqb_spec a 0) as [-> |_]; [|done]. simpl.
  destruct (zget mask (i + 1)) as [b|]; [|done]. simpl.
  destruct (Z.eqb_spec b 0) as [-> |_]; [|done]. simpl.
  destruct (zget mask (i - nx)) as [c|]; [|done]. simpl.
  destruct (Z.eqb_spec c 0) as [-> |_]; [|done]. simpl.
  destruct (zget mask (i + nx)) as [d|]; [|done]. simpl.
  by destruct (Z.eqb_spec d 0) as [-> |_].
Qed.

(** X8. [find_edges] is [find_edges_labeled] on the label image that is 1
    where the mask is 0 and 0 elsewhere: same indices in the same order,
    and a fault in the one is a fault in the other. *)
Theorem find_edges_labeled_zero_region ny nx mask :
  find_edges_labeled ny nx (zero_region_labels mask) = find_edges ny nx mask.
Proof.
  unfold find_edges_labeled, find_edges. cbv zeta.
  assert (Hscan : forall idx e,
            for_each (push_if_label (zero_region_labels mask)) idx e
            = for_each (push_if_zero mask) idx e).
  { intros idx e. apply for_each_ext. intros. apply push_if_label_zero_region. }
  rewrite Hscan. destruct (for_each _ (range 0 nx 1) _) as [e1|]; [|done].
  cbn [mbind option_bind]. rewrite Hscan.
  destruct (for_each _ (range ((ny - 1) * nx) _ 1) _) as [e2|]; [|done].
  cbn [mbind option_bind]. rewrite Hscan.
  destruct (for_each _ (range nx _ nx) _) as [e3|]; [|done].
  cbn [mbind option_bind]. rewrite Hscan.
  destruct (for_each _ (range (nx - 1) _ nx) _) as [e4|]; [|done].
  cbn [mbind option_bind]. f_equal.
  apply for_each_ext. intros y t _. apply for_each_ext. intros x u _.
  apply push_if_label_edge_zero_region.
Qed.

Lemma push_if_label_sound labels i e e' :
  Forall (fun k => exists l, zget labels k = Some l /\ l <> 0) (iv_items e) ->
  push_if_label labels i e = Some e' ->
  Forall (fun k => exists l, zget labels k = Some l /\ l <> 0) (iv_items e').
Proof.
  intros He. unfold push_if_label.
  destruct (zget labels i) as [l|] eqn:Hl; [|done]. simpl.
  destruct (Z.eqb_spec l 0) as [-> |Hne]; intros [= <-]; [done|].
  rewrite push_items. apply Forall_app. split; [done|].
  constructor; [by exists l|done].
Qed.

Lemma push_if_label_edge_sound nx labels i e e' :
  Forall (fun k => exists l, zget labels k = Some l /\ l <> 0) (iv_items e) ->
  push_if_label_edge nx labels i e = Some e' ->
  Forall (fun k => exists l, zget labels k = Some l /\ l <> 0) (iv_items e').
Proof.
  intros He. unfold push_if_label_edge.
  destruct (zget labels i) as [l|] eqn:Hl; [|done]. simpl.
  destruct (Z.eqb_spec l 0) as [-> |Hne]; [by intros [= <-]|].
  assert (Hp : Forall (fun k => exists l, zget labels k = Some l /\ l <> 0)
                 (iv_items (push e i))).
  { rewrite push_items. apply Forall_app. split; [done|].
    constructor; [by exists l|done]. }
  destruct (zget labels (i - 1)) as [a|]; [|done]. simpl.
  destruct (negb (a =? l)); [by intros [= <-]|].
  destruct (zget labels (i + 1)) as [b|]; [|done]. simpl.
  destruct (negb (b =? l)); [by intros [= <-]|].
  destruct (zget labels (i - nx)) as [c|]; [|done]. simpl.
  destruct (negb (c =? l)); [by intros [= <-]|].
  destruct (zget labels (i + nx)) as [d|]; [|done]. simpl.
  destruct (negb (d =? l)); by intros [= <-].
Qed.

(** A loop whose rounds each add a set of indices to the buffer adds the
    union of these sets. *)
Lemma scan_members {I} (body : I -> ivec -> option ivec) (S : I -> Z -> Prop)
  idx e :
  (forall i t, i ∈ idx ->
     exists t', body i t = Some t'
       /\ forall k, k ∈ iv_items t' <-> k ∈ iv_items t \/ S i k) ->
  exists e', for_each body idx e = Some e'
    /\ forall k, k ∈ iv_items e' <->
         k ∈ iv_items e \/ exists i, i ∈ idx /\ S i k.
Proof.
  revert e. induction idx as [|i idx IH]; intros e Hb; simpl.
  - exists e. split; [done|]. intros k. split; [by left|].
    by intros [?|(? & ?%elem_of_nil & _)].
  - destruct (Hb i e) as (t & -> & Ht); [by left|].
    destruct (IH t) as (e' & -> & He'). { intros. apply Hb. by right. }
    exists e'. split; [done|]. intros k. rewrite He', Ht. split.
    + intros [[?|?]|(j & ? & ?)]; [by left|right..].
      * exists i. split; [by left|done].
      * exists j. split; [by right|done].
    + intros [?|(j & [-> |?]%elem_of_cons & ?)]; [by left; left|..].
      * by left; right.
      * right. by exists j.
Qed.

Lemma push_if_label_spec labels i e :
  0 <= i < Z.of_nat (length labels) ->
  exists e', push_if_label labels i e = Some e'
    /\ forall k, k ∈ iv_items e' <->
         k ∈ iv_items e \/ (k = i /\ exists l, zget labels k = Some l /\ l <> 0).
Proof.
  intros Hi. unfold push_if_label.
  destruct (zget_is_Some labels i Hi) as [l Hl]. rewrite Hl. simpl.
  eexists. split; [done|]. intros k.
  destruct (Z.eqb_spec l 0) as [-> |Hne]; simpl.
  - split; [by left|]. intros [?|(-> & l & Hl' & ?)]; [done|]. congruence.
  - rewrite ?push_items, elem_of_app, list_elem_of_singleton. split.
    + intros [?| ->]; [by left|right]. split; [done|]. by exists l.
    + intros [?|(-> & _)]; auto.
Qed.

Lemma push_if_label_edge_spec nx labels i e :
  0 <= i - nx -> i + nx < Z.of_nat (length labels) -> 1 <= nx ->
  exists e', push_if_label_edge nx labels i e = Some e'
    /\ forall k, k ∈ iv_items e' <->
         k ∈ iv_items e
         \/ (k = i /\ exists l, zget labels k = Some l /\ l <> 0
                                /\ has_other_neighbour nx labels l k = true).
Proof.
  intros Hlo Hhi Hnx.
  unfold push_if_label_edge, has_other_neighbour, differs_at.
  destruct (zget_is_Some labels i) as [l Hl]; [lia|].
  destruct (zget_is_Some labels (i - 1)) as [a Ha]; [lia|].
  destruct (zget_is_Some labels (i + 1)) as [b Hb]; [lia|].
  destruct (zget_is_Some labels (i - nx)) as [c Hc]; [lia|].
  destruct (zget_is_Some labels (i + nx)) as [d Hd]; [lia|].
  rewrite Hl. simpl.
  destruct (Z.eqb_spec l 0) as [-> |Hl0].
  { exists e. split; [done|]. intros k. split; [by left|].
    intros [?|(-> & l & Hl' & ? & _)]; [done|]. congruence. }
  assert (Hpush : negb (a =? l) || negb (b =? l) || negb (c =? l)
                  || negb (d =? l) = true ->
          forall k, k ∈ iv_items (push e i) <->
            k ∈ iv_items e
            \/ (k = i /\ exists l, zget labels k = Some l /\ l <> 0
                /\ match zget labels (k - 1) with
                   | Some m => negb (m =? l) | None => false end
                   || match zget labels (k + 1) with
                      | Some m => negb (m =? l) | None => false end
                   || match zget labels (k - nx) with
                      | Some m => negb (m =? l) | None => false end
                   || match zget labels (k + nx) with
                      | Some m => negb (m =? l) | None => false end = true)).
  { intros Hany k. rewrite push_items, elem_of_app, list_elem_of_singleton.
    split; [|intros [?|(? & _)]; auto].
    intros [?| ->]; [by left|right]. split; [done|]. exists l.
    by rewrite Ha, Hb, Hc, Hd. }
  rewrite Ha. simpl.
  destruct (negb (a =? l)) eqn:Ea; [eexists; split; [done|]; by apply Hpush|].
  rewrite Hb. simpl.
  destruct (negb (b =? l)) eqn:Eb; [eexists; split; [done|]; by apply Hpush|].
  rewrite Hc. simpl.
  destruct (negb (c =? l)) eqn:Ec; [eexists; split; [done|]; by apply Hpush|].
  rewrite Hd. simpl.
  destruct (negb (d =? l)) eqn:Ed; [eexists; split; [done|]; by apply Hpush|].
  exists e. split; [done|]. intros k. split; [by left|].
  intros [?|(-> & l' & Hl' & _ & Hn)]; [done|].
  assert (l' = l) as -> by congruence.
  rewrite Ha, Hb, Hc, Hd, Ea, Eb, Ec, Ed in Hn. done.
Qed.

Lemma find_edges_labeled_sound ny nx labels edges :
  find_edges_labeled ny nx labels = Some edges ->
  Forall (fun i => exists l, zget labels i = Some l /\ l <> 0) edges.
Proof.
  unfold find_edges_labeled. cbv zeta.
  set (P := fun e : ivec =>
    Forall (fun k => exists l, zget labels k = Some l /\ l <> 0) (iv_items e)).
  assert (Hscan : forall idx e e', P e ->
            for_each (push_if_label labels) idx e = Some e' -> P e').
  { intros idx e e' He. apply for_each_inv; [|done].
    intros i t t' _. apply push_if_label_sound. }
  destruct (for_each _ (range 0 nx 1) _) as [e1|] eqn:E1; [|done].
  cbn [mbind option_bind].
  destruct (for_each _ (range ((ny - 1) * nx) _ 1) _) as [e2|] eqn:E2; [|done].
  cbn [mbind option_bind].
  destruct (for_each _ (range nx _ nx) _) as [e3|] eqn:E3; [|done].
  cbn [mbind option_bind].
  destruct (for_each _ (range (nx - 1) _ nx) _) as [e4|] eqn:E4; [|done].
  cbn [mbind option_bind].
  destruct (for_each _ (range 1 (ny - 1) 1) _) as [e5|] eqn:E5; [|done].
  cbn [mbind option_bind]. intros [= <-].
  assert (P (IVec 256 [])) as H0 by constructor.
  pose proof (Hscan _ _ _ H0 E1) as H1. pose proof (Hscan _ _ _ H1 E2) as H2.
  pose proof (Hscan _ _ _ H2 E3) as H3. pose proof (Hscan _ _ _ H3 E4) as H4.
  change (P e5). revert E5. apply (for_each_inv P); [|done].
  intros y t t' _ Ht. apply (for_each_inv P); [|done].
  intros x u u' _. apply push_if_label_edge_sound.
Qed.

(** On a grid with at least as many rows as columns whose label image has
    its [ny * nx] pixels, no loop of [find_edges_labeled] reads outside
    the image: the call returns. *)
Lemma find_edges_labeled_returns ny nx labels :
  1 <= nx <= ny -> Z.of_nat (length labels) = ny * nx ->
  exists edges, find_edges_labeled ny nx labels = Some edges.
Proof.
  intros Hn Hlen. unfold find_edges_labeled. cbv zeta.
  assert (Hscan : forall idx e,
            (forall i, i ∈ idx -> 0 <= i < ny * nx) ->
            exists e', for_each (push_if_label labels) idx e = Some e').
  { intros idx e Hin.
    destruct (scan_members (push_if_label labels)
                (fun i k => k = i
                   /\ exists l, zget labels k = Some l /\ l <> 0) idx e)
      as (e' & He' & _); [|by exists e'].
    intros i t Hi. apply push_if_label_spec. specialize (Hin i Hi). lia. }
  destruct (Hscan (range 0 nx 1) (IVec 256 []))
    as (e1 & ->); [intros i Hi%range1_elem; nia|].
  cbn [mbind option_bind].
  destruct (Hscan (range ((ny - 1) * nx) (nx * nx) 1) e1)
    as (e2 & ->); [intros i Hi%range1_elem; nia|].
  cbn [mbind option_bind].
  destruct (Hscan (range nx (ny * nx) nx) e2)
    as (e3 & ->); [intros i Hi%range_bounds; lia|].
  cbn [mbind option_bind].
  destruct (Hscan (range (nx - 1) (ny * nx) nx) e3)
    as (e4 & ->); [intros i Hi%range_bounds; lia|].
  cbn [mbind option_bind].
  destruct (scan_members
              (fun y => for_each (fun x => push_if_label_edge nx labels (y * nx + x))
                                 (range 1 (nx - 1) 1))
              (fun y k => exists x, x ∈ range 1 (nx - 1) 1
                 /\ k = y * nx + x
                 /\ exists l, zget labels k = Some l /\ l <> 0
                      /\ has_other_neighbour nx labels l k = true)
              (range 1 (ny - 1) 1) e4) as (e5 & -> & _).
  { intros y t Hy%range1_elem.
    apply (scan_members (fun x => push_if_label_edge nx labels (y * nx + x))
             (fun x k => k = y * nx + x
                /\ exists l, zget labels k = Some l /\ l <> 0
                     /\ has_other_neighbour nx labels l k = true)).
    intros x u Hx%range1_elem. apply push_if_label_edge_spec; nia. }
  by eexists.
Qed.

(** X9. On a grid with at least as many rows as columns whose label image
    has its [ny * nx] pixels, [find_edges_labeled] returns, and every
    index it returns is the index of a pixel of the grid whose label is
    not 0. *)
Theorem find_edges_labeled_lists_labeled_pixels ny nx labels :
  1 <= nx <= ny -> Z.of_nat (length labels) = ny * nx ->
  exists edges, find_edges_labeled ny nx labels = Some edges
    /\ Forall (fun i => 0 <= i < ny * nx
                        /\ exists l, zget labels i = Some l /\ l <> 0) edges.
Proof.
  intros Hn Hlen.
  destruct (find_edges_labeled_returns ny nx labels Hn Hlen) as [edges Hrun].
  exists edges. split; [done|].
  eapply list.Forall_impl; [exact (find_edges_labeled_sound _ _ _ _ Hrun)|].
  intros i (l & Hl & Hl0). cbv beta. split; [|by exists l].
  apply zget_bounds in Hl. lia.
Qed.

Lemma find_edges_labeled_lists_labeled_pixels_witness :
  exists edges, find_edges_labeled 3 2 [0; 7; 7; 0; 0; 3] = Some edges
    /\ Forall (fun i => 0 <= i < 3 * 2
                        /\ exists l, zget [0; 7; 7; 0; 0; 3] i = Some l
                                     /\ l <> 0) edges.
Proof. apply find_edges_labeled_lists_labeled_pixels; [lia|reflexivity]. Defined.

(** X10. On a square grid whose label image has its [n * n] pixels,
    [find_edges_labeled] returns normally, and the indices it returns are
    exactly the pixels with a label other than 0 that lie in the first or
    last row, in the first or last column, or next to a pixel with another
    label. *)
Theorem find_edges_labeled_square_pixels n labels :
  1 <= n -> Z.of_nat (length labels) = n * n ->
  exists edges, find_edges_labeled n n labels = Some edges
    /\ forall k, k ∈ edges <->
         0 <= k < n * n
         /\ exists l, zget labels k = Some l /\ l <> 0
            /\ (k / n = 0 \/ k / n = n - 1 \/ k mod n = 0 \/ k mod n = n - 1
                \/ has_other_neighbour n labels l k = true).
Proof.
  intros Hn Hlen. unfold find_edges_labeled. cbv zeta.
  set (S := fun i k : Z => k = i /\ exists l, zget labels k = Some l /\ l <> 0).
  assert (Hscan : forall idx e,
            (forall i, i ∈ idx -> 0 <= i < n * n) ->
            exists e', for_each (push_if_label labels) idx e = Some e'
              /\ forall k, k ∈ iv_items e' <->
                   k ∈ iv_items e \/ exists i, i ∈ idx /\ S i k).
  { intros idx e Hin. apply scan_members. intros i t Hi.
    apply push_if_label_spec. specialize (Hin i Hi). lia. }
  destruct (Hscan (range 0 n 1) (IVec 256 []))
    as (e1 & -> & H1); [intros i Hi%range1_elem; nia|].
  cbn [mbind option_bind].
  destruct (Hscan (range ((n - 1) * n) (n * n) 1) e1)
    as (e2 & -> & H2); [intros i Hi%range1_elem; nia|].
  cbn [mbind option_bind].
  destruct (Hscan (range n (n * n) n) e2)
    as (e3 & -> & H3); [intros i Hi%range_bounds; lia|].
  cbn [mbind option_bind].
  destruct (Hscan (range (n - 1) (n * n) n) e3)
    as (e4 & -> & H4); [intros i Hi%range_bounds; lia|].
  cbn [mbind option_bind].
  destruct (scan_members
              (fun y => for_each (fun x => push_if_label_edge n labels (y * n + x))
                                 (range 1 (n - 1) 1))
              (fun y k => exists x, x ∈ range 1 (n - 1) 1
                 /\ k = y * n + x
                 /\ exists l, zget labels k = Some l /\ l <> 0
                      /\ has_other_neighbour n labels l k = true)
              (range 1 (n - 1) 1) e4) as (e5 & -> & H5).
  { intros y t Hy%range1_elem.
    apply (scan_members (fun x => push_if_label_edge n labels (y * n + x))
             (fun x k => k = y * n + x
                /\ exists l, zget labels k = Some l /\ l <> 0
                     /\ has_other_neighbour n labels l k = true)).
    intros x u Hx%range1_elem. apply push_if_label_edge_spec; nia. }
  cbn [mbind option_bind]. eexists. split; [done|]. intros k.
  rewrite H5, H4, H3, H2, H1. subst S. simpl iv_items.
  pose proof (Z.div_mod k n ltac:(lia)) as Hk.
  pose proof (Z.mod_pos_bound k n ltac:(lia)) as Hx.
  split.
  - intros [[[[[?%elem_of_nil|(i & Hr%range1_elem & -> & l & Hl & Hl0)]
                |(i & Hr%range1_elem & -> & l & Hl & Hl0)]
               |(i & Hr & -> & l & Hl & Hl0)]
              |(i & Hr & -> & l & Hl & Hl0)]
             |(y & Hy%range1_elem & x & Hx'%range1_elem & -> & l & Hl & Hl0 & Hnb)];
      [done|..].
    + split; [nia|]. exists l. do 2 (split; [done|]).
      left. apply Z.div_small. lia.
    + split; [nia|]. exists l. do 2 (split; [done|]). right. left. nia.
    + apply range_elem in Hr as (m & Hm & -> & Hr); [|lia].
      split; [nia|]. exists l. do 2 (split; [done|]). do 2 right. left.
      symmetry. apply (Z.mod_unique _ _ (m + 1)); lia.
    + apply range_elem in Hr as (m & Hm & -> & Hr); [|lia].
      split; [nia|]. exists l. do 2 (split; [done|]). do 3 right. left.
      symmetry. apply (Z.mod_unique _ _ m); lia.
    + split; [clear Hk Hx; nia|]. exists l. do 2 (split; [done|]).
      by do 4 right.
  - intros (Hr & l & Hl & Hl0 & Hcase).
    assert (0 <= k / n < n) as Hy by nia.
    assert (exists l, zget labels k = Some l /\ l <> 0) as Hlab by (by exists l).
    destruct (decide (k / n = 0)) as [Hy0|Hy0].
    { do 4 left; right. exists k. split; [apply range1_elem; nia|done]. }
    destruct (decide (k / n = n - 1)) as [Hy1|Hy1].
    { do 3 left; right. exists k. split; [apply range1_elem; nia|done]. }
    destruct (decide (k mod n = 0)) as [Hx0|Hx0].
    { do 2 left; right. exists k. split; [|done].
      apply range_elem; [lia|]. exists (k / n - 1). nia. }
    destruct (decide (k mod n = n - 1)) as [Hx1|Hx1].
    { left; right. exists k. split; [|done].
      apply range_elem; [lia|]. exists (k / n). nia. }
    right. exists (k / n). split; [apply range1_elem; lia|].
    exists (k mod n). split; [apply range1_elem; lia|].
    split; [lia|]. exists l.
    destruct Hcase as [?|[?|[?|[?|Hnb]]]]; done.
Qed.

Lemma find_edges_labeled_square_pixels_witness :
  exists edges, find_edges_labeled 2 2 [7; 7; 0; 3] = Some edges
    /\ forall k, k ∈ edges <->
         0 <= k < 2 * 2
         /\ exists l, zget [7; 7; 0; 3] k = Some l /\ l <> 0
            /\ (k / 2 = 0 \/ k / 2 = 2 - 1 \/ k mod 2 = 0 \/ k mod 2 = 2 - 1
                \/ has_other_neighbour 2 [7; 7; 0; 3] l k = true).
Proof. apply find_edges_labeled_square_pixels; [lia|reflexivity]. Defined.

(** X11. [find_edges_labeled] has the bottom-row loop of [find_edges]: on a
    grid with more columns than rows whose label image has its [ny * nx]
    pixels, it reads the image past its end. *)
Theorem find_edges_labeled_wide_grid_reads_outside ny nx labels :
  1 <= ny < nx -> Z.of_nat (length labels) = ny * nx ->
  find_edges_labeled ny nx labels = None.
Proof.
  intros Hn Hlen. unfold find_edges_labeled. cbv zeta.
  destruct (scan_members (push_if_label labels)
              (fun i k => k = i /\ exists l, zget labels k = Some l /\ l <> 0)
              (range 0 nx 1) (IVec 256 [])) as (e1 & -> & _).
  { intros i t Hi%range1_elem. apply push_if_label_spec. nia. }
  cbn [mbind option_bind].
  rewrite (for_each_fault (push_if_label labels) _ (ny * nx)); [done| |].
  - apply range1_elem. nia.
  - intros t. unfold push_if_label.
    by rewrite (proj2 (zget_None labels (ny * nx))) by lia.
Qed.

Lemma find_edges_labeled_wide_grid_reads_outside_witness :
  find_edges_labeled 1 2 [5; 0] = None.
Proof. apply find_edges_labeled_wide_grid_reads_outside; [lia|reflexivity]. Defined.

(** ** The geodesic metric as a great-circle distance *)

Section GreatCircle.
Local Open Scope R_scope.

Lemma sqrt_square_pos t : 0 < t -> sqrt (t * t) = t.
Proof. intros Ht. apply sqrt_square. lra. Qed.

Lemma cos_atan_ratio y x :
  x <> 0 -> x * x + y * y = 1 -> cos (atan (y / x)) = Rabs x.
Proof.
  intros Hx Hu. rewrite cos_atan. unfold Rsqr.
  assert (Ha : 0 < Rabs x) by (by apply Rabs_pos_lt).
  assert (Hq : 1 + y / x * (y / x) = / Rabs x * / Rabs x).
  { assert (Rabs x * Rabs x = x * x) as Hsq.
    { unfold Rabs. destruct (Rcase_abs x); ring. }
    rewrite <- Rinv_mult, Hsq.
    replace (1 + y / x * (y / x)) with ((x * x + y * y) / (x * x))
      by (field; done).
    rewrite Hu. unfold Rdiv. ring. }
  rewrite Hq, sqrt_square_pos by (by apply Rinv_0_lt_compat).
  field. lra.
Qed.

Lemma cos_atan2 y x : 0 <= y -> x * x + y * y = 1 -> cos (atan2 y x) = x.
Proof.
  intros Hy Hu. unfold atan2.
  destruct (Rlt_dec 0 x) as [Hx|Hx].
  - rewrite cos_atan_ratio by (done || lra). apply Rabs_pos_eq. lra.
  - destruct (Rlt_dec x 0) as [Hx'|Hx'].
    + destruct (Rle_dec 0 y) as [_|Hn]; [|lra].
      rewrite neg_cos, cos_atan_ratio by (done || lra).
      rewrite Rabs_left by done. ring.
    + assert (x = 0) as -> by lra.
      destruct (Rlt_dec 0 y) as [_|Hn]; [apply cos_PI2|]. nra.
Qed.

Lemma vincenty_cos dec1 ra1 dec2 ra2 :
  cos (vincenty dec1 ra1 dec2 ra2) = cos_separation dec1 ra1 dec2 ra2
  /\ -1 <= cos_separation dec1 ra1 dec2 ra2 <= 1.
Proof.
  unfold vincenty, dist_vincenty_helper, cos_separation.
  set (c1 := cos dec1). set (s1 := sin dec1).
  set (c2 := cos dec2). set (s2 := sin dec2).
  set (c := cos (ra2 - ra1)). set (s := sin (ra2 - ra1)).
  pose proof (vincenty_unit c1 s1 c2 s2 c s (sin_cos_sq dec1) (sin_cos_sq dec2)
                (sin_cos_sq (ra2 - ra1))) as Hu. simpl in Hu.
  set (y1 := c1 * s) in *. set (y2 := c2 * s1 - s2 * c1 * c) in *.
  set (x := s2 * s1 + c2 * c1 * c) in *.
  assert (Hq : 0 <= y1 * y1 + y2 * y2) by nra.
  replace (s1 * s2 + c1 * c2 * c) with x by (unfold x; ring).
  split; [|nra].
  apply cos_atan2; [apply sqrt_pos|]. by rewrite sqrt_sqrt.
Qed.

(** X12. The value that every caller obtains from the helper is the
    great-circle distance of the spherical law of cosines: the angle in
    [[0, PI]] whose cosine is
    [sin dec1 * sin dec2 + cos dec1 * cos dec2 * cos (ra2 - ra1)]. *)
Theorem vincenty_is_great_circle_distance dec1 ra1 dec2 ra2 :
  vincenty dec1 ra1 dec2 ra2 = acos (cos_separation dec1 ra1 dec2 ra2).
Proof.
  destruct (vincenty_cos dec1 ra1 dec2 ra2) as [Hc Hr].
  apply cos_inj; [apply dist_vincenty_helper_range|apply acos_bound|].
  by rewrite cos_acos.
Qed.

Lemma cos_separation_sym dec1 ra1 dec2 ra2 :
  cos_separation dec1 ra1 dec2 ra2 = cos_separation dec2 ra2 dec1 ra1.
Proof.
  unfold cos_separation.
  replace (ra1 - ra2) with (- (ra2 - ra1)) by ring. rewrite cos_neg. ring.
Qed.

Lemma vincenty_of_cos dec1 ra1 dec2 ra2 t :
  0 <= t <= PI -> cos_separation dec1 ra1 dec2 ra2 = cos t ->
  vincenty dec1 ra1 dec2 ra2 = t.
Proof.
  intros Ht Hc. destruct (vincenty_cos dec1 ra1 dec2 ra2) as [Hv _].
  apply cos_inj; [apply dist_vincenty_helper_range|done|congruence].
Qed.

(** X13. The distance is symmetric: from the first point to the second as
    from the second to the first. *)
Theorem vincenty_symmetric dec1 ra1 dec2 ra2 :
  vincenty dec1 ra1 dec2 ra2 = vincenty dec2 ra2 dec1 ra1.
Proof.
  destruct (vincenty_cos dec1 ra1 dec2 ra2) as [H1 _].
  destruct (vincenty_cos dec2 ra2 dec1 ra1) as [H2 _].
  apply cos_inj; try apply dist_vincenty_helper_range.
  by rewrite H1, H2, cos_separation_sym.
Qed.

Lemma cos_Rabs t : cos (Rabs t) = cos t.
Proof. unfold Rabs. destruct (Rcase_abs t); [apply cos_neg|done]. Qed.

(** X14. Two points of the same longitude, at latitudes between the
    poles, are at the distance of their latitudes. *)
Theorem vincenty_along_meridian dec1 dec2 ra :
  latitude dec1 -> latitude dec2 ->
  vincenty dec1 ra dec2 ra = Rabs (dec2 - dec1).
Proof.
  unfold latitude. intros Hl1 Hl2. apply vincenty_of_cos.
  - split; [apply Rabs_pos|]. apply Rabs_le. lra.
  - unfold cos_separation. replace (ra - ra) with 0 by ring.
    rewrite cos_0, cos_Rabs, cos_minus. ring.
Qed.

Lemma vincenty_along_meridian_witness :
  vincenty 0 0 (PI / 2) 0 = Rabs (PI / 2 - 0).
Proof.
  apply vincenty_along_meridian; unfold latitude; pose proof PI_RGT_0; lra.
Defined.

(** X15. Two points of the equator whose longitudes differ by at most
    [PI] are at the distance of their longitudes. *)
Theorem vincenty_along_equator ra1 ra2 :
  Rabs (ra2 - ra1) <= PI -> vincenty 0 ra1 0 ra2 = Rabs (ra2 - ra1).
Proof.
  intros Hd. apply vincenty_of_cos; [split; [apply Rabs_pos|done]|].
  unfold cos_separation. rewrite cos_Rabs, sin_0, cos_0. ring.
Qed.

Lemma vincenty_along_equator_witness : vincenty 0 1 0 0 = Rabs (0 - 1).
Proof.
  apply vincenty_along_equator. rewrite Rabs_left by lra.
  pose proof PI2_1 as H. lra.
Defined.

(** X16. A point and its antipode, the point of opposite latitude half a
    turn away, are at distance [PI]. *)
Theorem vincenty_antipode dec ra : vincenty dec ra (- dec) (ra + PI) = PI.
Proof.
  pose proof PI_RGT_0. apply vincenty_of_cos; [lra|].
  unfold cos_separation. replace (ra + PI - ra) with PI by ring.
  rewrite sin_neg, cos_neg, cos_PI. pose proof (sin_cos_sq dec). nra.
Qed.

Lemma cos_separation_dot dec1 ra1 dec2 ra2 :
  cos_separation dec1 ra1 dec2 ra2
  = cos dec1 * cos ra1 * (cos dec2 * cos ra2)
    + cos dec1 * sin ra1 * (cos dec2 * sin ra2)
    + sin dec1 * sin dec2.
Proof. unfold cos_separation. rewrite cos_minus. ring. Qed.

Lemma unit_vector dec ra :
  cos dec * cos ra * (cos dec * cos ra) + cos dec * sin ra * (cos dec * sin ra)
  + sin dec * sin dec = 1.
Proof.
  pose proof (sin_cos_sq dec) as Hd. pose proof (sin_cos_sq ra) as Hr.
  replace (cos dec * cos ra * (cos dec * cos ra)
           + cos dec * sin ra * (cos dec * sin ra) + sin dec * sin dec)
    with (cos dec * cos dec * (sin ra * sin ra + cos ra * cos ra)
          + sin dec * sin dec) by ring.
  rewrite Hr. lra.
Qed.

(** The Gram determinant of three unit vectors is a square. *)
Lemma gram_nonneg a1 a2 a3 b1 b2 b3 c1 c2 c3 :
  a1 * a1 + a2 * a2 + a3 * a3 = 1 ->
  b1 * b1 + b2 * b2 + b3 * b3 = 1 ->
  c1 * c1 + c2 * c2 + c3 * c3 = 1 ->
  let ab := a1 * b1 + a2 * b2 + a3 * b3 in
  let bc := b1 * c1 + b2 * c2 + b3 * c3 in
  let ac := a1 * c1 + a2 * c2 + a3 * c3 in
  0 <= 1 - ab * ab - bc * bc - ac * ac + 2 * (ab * bc * ac).
Proof.
  intros Ha Hb Hc ab bc ac.
  set (det := a1 * (b2 * c3 - b3 * c2) - a2 * (b1 * c3 - b3 * c1)
              + a3 * (b1 * c2 - b2 * c1)).
  assert (H : (a1 * a1 + a2 * a2 + a3 * a3) * (b1 * b1 + b2 * b2 + b3 * b3)
              * (c1 * c1 + c2 * c2 + c3 * c3)
              - (c1 * c1 + c2 * c2 + c3 * c3) * (ab * ab)
              - (a1 * a1 + a2 * a2 + a3 * a3) * (bc * bc)
              - (b1 * b1 + b2 * b2 + b3 * b3) * (ac * ac)
              + 2 * (ab * bc * ac) = det * det)
    by (unfold ab, bc, ac, det; ring).
  rewrite Ha, Hb, Hc in H. pose proof (Rle_0_sqr det) as Hsq.
  unfold Rsqr in Hsq. lra.
Qed.

(** X17. The triangle inequality: by way of a third point the distance
    between two points does not get shorter. *)
Theorem vincenty_triangle dec1 ra1 dec2 ra2 dec3 ra3 :
  vincenty dec1 ra1 dec3 ra3
  <= vincenty dec1 ra1 dec2 ra2 + vincenty dec2 ra2 dec3 ra3.
Proof.
  set (al := vincenty dec1 ra1 dec2 ra2). set (be := vincenty dec2 ra2 dec3 ra3).
  set (ga := vincenty dec1 ra1 dec3 ra3).
  pose proof (dist_vincenty_helper_range ra1 (cos dec1) (sin dec1) ra2
                (cos dec2) (sin dec2)) as Hal.
  pose proof (dist_vincenty_helper_range ra2 (cos dec2) (sin dec2) ra3
                (cos dec3) (sin dec3)) as Hbe.
  pose proof (dist_vincenty_helper_range ra1 (cos dec1) (sin dec1) ra3
                (cos dec3) (sin dec3)) as Hga.
  fold (vincenty dec1 ra1 dec2 ra2) in Hal. fold (vincenty dec2 ra2 dec3 ra3) in Hbe.
  fold (vincenty dec1 ra1 dec3 ra3) in Hga. fold al in Hal. fold be in Hbe.
  fold ga in Hga.
  destruct (Rle_dec (al + be) PI) as [Hsum|Hsum]; [|lra].
  apply cos_decr_0; [lra..|].
  destruct (vincenty_cos dec1 ra1 dec2 ra2) as [Hca _].
  destruct (vincenty_cos dec2 ra2 dec3 ra3) as [Hcb _].
  destruct (vincenty_cos dec1 ra1 dec3 ra3) as [Hcg _].
  fold al in Hca. fold be in Hcb. fold ga in Hcg.
  rewrite cos_separation_dot in Hca, Hcb, Hcg.
  pose proof (gram_nonneg _ _ _ _ _ _ _ _ _ (unit_vector dec1 ra1)
                (unit_vector dec2 ra2) (unit_vector dec3 ra3)) as Hgram.
  cbv zeta in Hgram. rewrite <- Hca, <- Hcb, <- Hcg in Hgram.
  rewrite cos_plus.
  pose proof (sin_ge_0 al ltac:(lra) ltac:(lra)) as Hsa.
  pose proof (sin_ge_0 be ltac:(lra) ltac:(lra)) as Hsb.
  pose proof (sin_cos_sq al) as Hpa. pose proof (sin_cos_sq be) as Hpb.
  set (ca := cos al) in *. set (cb := cos be) in *. set (cg := cos ga) in *.
  set (sa := sin al) in *. set (sb := sin be) in *.
  destruct (Rle_dec (ca * cb - cg) 0) as [Hneg|Hpos]; [nra|].
  assert (Hsq : (ca * cb - cg) * (ca * cb - cg) <= sa * sb * (sa * sb)).
  { replace (sa * sb * (sa * sb)) with ((1 - ca * ca) * (1 - cb * cb)) by nra.
    nra. }
  assert (0 <= sa * sb) by nra.
  destruct (Rle_dec (ca * cb - cg) (sa * sb)); [lra|]. exfalso. nra.
Qed.

End GreatCircle.

(** ** More on the brute-force functions *)

Lemma keep_nearest_frame i j d out out' :
  keep_nearest i j d out = Some out' ->
  same_shape out out'
  /\ forall i', i' <> i ->
       zget out'.1 i' = zget out.1 i' /\ aget out'.2 i' = aget out.2 i'.
Proof.
  destruct out as [ds ar]. unfold keep_nearest. cbn [fst snd].
  set (store := _ ≫= _).
  assert (Hstore : store = Some out' ->
    same_shape (ds, ar) out'
    /\ forall i', i' <> i ->
         zget out'.1 i' = zget ds i' /\ aget out'.2 i' = aget ar i').
  { subst store. destruct (zset ds i d) as [ds'|] eqn:Hds; [|done]. simpl.
    destruct ar as [a|].
    - destruct (zset a i j) as [a'|] eqn:Ha; [|done]. simpl. intros [= <-].
      unfold same_shape. simpl.
      rewrite (zset_length _ _ _ _ Hds), (zset_length _ _ _ _ Ha).
      split; [done|]. intros i' Hne.
      by rewrite (zget_zset_ne _ _ _ _ _ Hds), (zget_zset_ne _ _ _ _ _ Ha).
    - intros [= <-]. unfold same_shape. simpl.
      rewrite (zset_length _ _ _ _ Hds). split; [done|]. intros i' Hne.
      by rewrite (zget_zset_ne _ _ _ _ _ Hds). }
  destruct (j =? 0); [done|].
  destruct (zget ds i) as [cur|]; [|done]. simpl.
  destruct (Rltb d cur); [done|]. intros [= <-].
  split; [apply same_shape_refl|done].
Qed.

Lemma keep_nearest_without_areas i j d out out' :
  keep_nearest i j d out = Some out' ->
  keep_nearest i j d (out.1, None) = Some (out'.1, None).
Proof.
  destruct out as [ds ar]. unfold keep_nearest. cbn [fst snd].
  assert (Hstore : forall out',
    (dists' ← zset ds i d;
     match ar with
     | None => Some (dists', None)
     | Some areas => areas' ← zset areas i j; Some (dists', Some areas')
     end) = Some out' ->
    (dists' ← zset ds i d; Some (dists', @None (list Z))) = Some (out'.1, None)).
  { intros o. destruct (zset ds i d) as [ds'|]; [|done]. simpl.
    destruct ar as [a|]; [|by intros [= <-]].
    destruct (zset a i j); [|done]. by intros [= <-]. }
  destruct (j =? 0); [apply Hstore|].
  destruct (zget ds i) as [cur|]; [|done]. simpl.
  destruct (Rltb d cur); [apply Hstore|]. by intros [= <-].
Qed.

(** Two loops over the same indices whose bodies keep a relation between
    their states: when the first returns, so does the second, in a related
    state. *)
Lemma for_each_sim {I S T} (Rel : S -> T -> Prop) (f : I -> S -> option S)
  (g : I -> T -> option T) idx s t s' :
  (forall i s t s', i ∈ idx -> Rel s t -> f i s = Some s' ->
     exists t', g i t = Some t' /\ Rel s' t') ->
  Rel s t -> for_each f idx s = Some s' ->
  exists t', for_each g idx t = Some t' /\ Rel s' t'.
Proof.
  revert s t. induction idx as [|i idx IH]; intros s t Hstep HR; simpl.
  - intros [= <-]. by exists t.
  - destruct (f i s) as [s1|] eqn:E; [|done]. intros Hrest.
    destruct (Hstep i s t s1) as (t1 & -> & HR1); [by left|done..|].
    apply (IH s1 t1); [|done..]. intros j ? ? ? Hj. apply Hstep. by right.
Qed.

(** X18. The [areas] output is optional: when a call returns, the call
    with a null [areas] and otherwise the same arguments returns the same
    distances. *)
Theorem distance_from_points_without_areas
  npix posmap npoint points dists areas out :
  distance_from_points npix posmap npoint points dists areas = Some out ->
  distance_from_points npix posmap npoint points dists None
    = Some (out.1, None).
Proof.
  unfold distance_from_points.
  destruct (precompute_trig points npoint) as [[cs sn]|]; [|done].
  cbn [mbind option_bind]. intros Hrun.
  set (Rel := fun s t : outputs => t = (s.1, @None (list Z))).
  set (body := fun (i : Z) (out : outputs) => _) in *.
  destruct (for_each_sim Rel body body (range 0 npix 1) (dists, areas)
              (dists, None) out) as (t' & Ht' & ->); [|done|done|exact Ht'].
  intros i s t s' _ -> Hbody. subst body. cbv beta in *.
  destruct (zget posmap i) as [pd|]; [|done].
  destruct (zget posmap (i + npix)) as [pra|]; [|done].
  cbn [mbind option_bind] in *.
  revert Hbody. apply for_each_sim; [|done].
  intros j u v u' _ -> Hj. cbv beta zeta in *.
  destruct (zget points (j + npoint)) as [era|]; [|done].
  destruct (zget cs j) as [ecd|]; [|done].
  destruct (zget sn j) as [esd|]; [|done].
  cbn [mbind option_bind] in *.
  eexists. split; [by apply keep_nearest_without_areas|done].
Qed.

Lemma distance_from_points_without_areas_witness :
  distance_from_points 1 [0%R; 0%R] 1 [0%R; 0%R] [5%R] None
  = Some ([vincenty 0 0 0 0], None).
Proof.
  exact (distance_from_points_without_areas 1 [0%R; 0%R] 1 [0%R; 0%R] [5%R]
           (Some [7]) ([vincenty 0 0 0 0], Some [0]) eq_refl).
Defined.

(** X19. A call that returns has written nothing but the first [npix]
    entries of [dists] and of [areas]: the arrays keep their lengths, and
    every other entry its value. *)
Theorem distance_from_points_writes_pixels_only
  npix posmap npoint points dists areas out :
  distance_from_points npix posmap npoint points dists areas = Some out ->
  same_shape (dists, areas) out
  /\ forall i, ~ 0 <= i < npix ->
       zget out.1 i = zget dists i /\ aget out.2 i = aget areas i.
Proof.
  unfold distance_from_points.
  destruct (precompute_trig points npoint) as [[cs sn]|]; [|done].
  cbn [mbind option_bind].
  set (P := fun t : outputs =>
    same_shape (dists, areas) t
    /\ forall i, ~ 0 <= i < npix ->
         zget t.1 i = zget dists i /\ aget t.2 i = aget areas i).
  apply (for_each_inv P); [|split; [apply same_shape_refl|done]].
  intros i t t' Hi%range_bounds HP; [|lia].
  destruct (zget posmap i) as [pd|]; [|done].
  destruct (zget posmap (i + npix)) as [pra|]; [|done].
  cbn [mbind option_bind]. apply (for_each_inv P); [|done].
  intros j u u' _ [Hsh Hfr].
  destruct (zget points (j + npoint)) as [era|]; [|done].
  destruct (zget cs j) as [ecd|]; [|done].
  destruct (zget sn j) as [esd|]; [|done].
  cbn [mbind option_bind]. intros [Hsh' Hfr']%keep_nearest_frame.
  split; [by apply same_shape_trans with u|].
  intros i' Hi'. destruct (Hfr i' Hi'), (Hfr' i' ltac:(lia)). split; congruence.
Qed.

Lemma distance_from_points_writes_pixels_only_witness :
  same_shape ([5%R; 6%R], Some [7; 8]) ([vincenty 0 0 0 0; 6%R], Some [0; 8])
  /\ forall i, ~ 0 <= i < 1 ->
       zget (([vincenty 0 0 0 0; 6%R], Some [0; 8]) : outputs).1 i
         = zget [5%R; 6%R] i
       /\ aget (([vincenty 0 0 0 0; 6%R], Some [0; 8]) : outputs).2 i
          = aget (Some [7; 8]) i.
Proof.
  exact (distance_from_points_writes_pixels_only 1 [0%R; 0%R] 1 [0%R; 0%R]
           [5%R; 6%R] (Some [7; 8]) ([vincenty 0 0 0 0; 6%R], Some [0; 8])
           eq_refl).
Defined.

(** X20. The position map is read at [i] and at [i + npix] for every
    pixel, whether or not there is a point: with at least one pixel and a
    position map of fewer than [2 * npix] entries the call reads outside
    of it. *)
Theorem distance_from_points_short_posmap
  npix posmap npoint points dists areas :
  1 <= npix -> Z.of_nat (length posmap) < 2 * npix ->
  distance_from_points npix posmap npoint points dists areas = None.
Proof.
  intros Hn Hlen. unfold distance_from_points.
  destruct (precompute_trig points npoint) as [[cs sn]|]; [|done].
  cbn [mbind option_bind].
  apply (for_each_fault _ _ (npix - 1)); [apply range1_elem; lia|].
  intros t. destruct (zget posmap (npix - 1)) as [pd|]; [|done].
  cbn [mbind option_bind].
  by rewrite (proj2 (zget_None posmap (npix - 1 + npix))) by lia.
Qed.

Lemma distance_from_points_short_posmap_witness :
  distance_from_points 1 [0%R] 0 [] [5%R] None = None.
Proof. apply distance_from_points_short_posmap; simpl; lia. Defined.

(** What the brute-force scan leaves for the pixels, with the shape of the
    outputs. *)
Lemma distance_from_points_pixels npix posmap npoint points dists areas :
  0 <= npix -> 1 <= npoint ->
  2 * npix <= Z.of_nat (length posmap) ->
  2 * npoint <= Z.of_nat (length points) ->
  covers npix (dists, areas) ->
  exists out,
    distance_from_points npix posmap npoint points dists areas = Some out
    /\ same_shape (dists, areas) out
    /\ forall i, 0 <= i < npix ->
         exists d jmin, zget out.1 i = Some d
           /\ nearest (pixel_point_dist npix posmap npoint points i) npoint d jmin
           /\ (out.2 <> None -> aget out.2 i = Some jmin).
Proof.
  intros Hnpix Hnpoint Hpm Hpts Hcov. unfold distance_from_points.
  destruct (precompute_trig_is_Some points npoint) as [[cs sn] Hpre]; [lia|].
  rewrite Hpre. cbn [mbind option_bind].
  set (body := fun (i : Z) (out : outputs) => _).
  set (P := fun (m : Z) (out : outputs) =>
    same_shape (dists, areas) out
    /\ forall i, 0 <= i < m ->
         exists d jmin, zget out.1 i = Some d
           /\ nearest (pixel_point_dist npix posmap npoint points i) npoint d jmin
           /\ (out.2 <> None -> aget out.2 i = Some jmin)).
  apply (for_each_range_inv body P npix (dists, areas)); [done| |].
  { split; [apply same_shape_refl|]. intros; lia. }
  intros i out Hi (Hsh & Hres). subst body. cbv beta.
  destruct (zget_is_Some posmap i) as [pd Hpd]; [lia|].
  destruct (zget_is_Some posmap (i + npix)) as [pra Hpra]; [lia|].
  rewrite Hpd, Hpra. cbn [mbind option_bind].
  destruct (nearest_loop i npoint
    (fun j out =>
       edge_ra ← zget points (j + npoint);
       ecd ← zget cs j;
       esd ← zget sn j;
       let dra := (pra - edge_ra)%R in
       let cos_dra := cos dra in
       let sin_dra := sin dra in
       let y1 := (ecd * sin_dra)%R in
       let y2 := (cos pd * esd - sin pd * ecd * cos_dra)%R in
       let y := sqrt (y1 * y1 + y2 * y2) in
       let x := (sin pd * esd + cos pd * ecd * cos_dra)%R in
       let d := atan2 y x in
       keep_nearest i j d out)
    (pixel_point_dist npix posmap npoint points i) out)
    as (out' & Hrun & Hsh' & Hfr & Hnew); [lia| |lia| |].
  { apply covers_same_shape with (dists, areas); [done|].
    destruct Hcov as [Hc1 Hc2]. split; [simpl in *; lia|].
    intros a Ha. specialize (Hc2 a Ha). lia. }
  { by apply distance_from_points_body. }
  exists out'. split; [done|]. split; [by apply same_shape_trans with out|].
  intros i' Hi'. destruct (Z.eq_dec i' i) as [->|Hne]; [done|].
  destruct (Hres i') as (d & jmin & Hd & Hnear & Ha); [lia|].
  destruct (Hfr i' Hne) as [E1 E2]. exists d, jmin.
  split; [congruence|]. split; [done|]. intros Hsome. rewrite E2. apply Ha.
  destruct Hsh' as [_ Hsh']. destruct out.2, out'.2; done.
Qed.

(** The loop [if(mask[i] == 0) dists[i] = 0] over the pixels. *)
Lemma zero_masked_pixels mask n ds :
  0 <= n -> n <= Z.of_nat (length mask) -> n <= Z.of_nat (length ds) ->
  exists ds',
    for_each (fun i ds => m ← zget mask i;
                          if m =? 0 then zset ds i 0%R else Some ds)
             (range 0 n 1) ds = Some ds'
    /\ length ds' = length ds
    /\ forall i, 0 <= i < n ->
         (zget mask i = Some 0 -> zget ds' i = Some 0%R)
         /\ (zget mask i <> Some 0 -> zget ds' i = zget ds i).
Proof.
  intros Hn Hm Hd.
  set (P := fun (k : Z) (t : list R) =>
    length t = length ds
    /\ (forall i, 0 <= i < k ->
          (zget mask i = Some 0 -> zget t i = Some 0%R)
          /\ (zget mask i <> Some 0 -> zget t i = zget ds i))
    /\ forall i, k <= i -> zget t i = zget ds i).
  destruct (for_each_range_inv
              (fun i ds => m ← zget mask i;
                           if m =? 0 then zset ds i 0%R else Some ds)
              P n ds) as (ds' & Hrun & Hlen & Hlow & _); [done| |..].
  - split; [done|]. split; [intros; lia|done].
  - intros k t Hk (Hlen & Hlow & Hhigh).
    destruct (zget_is_Some mask k) as [m Hmk]; [lia|]. rewrite Hmk.
    cbn [mbind option_bind].
    destruct (Z.eqb_spec m 0) as [-> |Hne].
    + pose proof (zset_is_Some t k 0%R ltac:(lia)) as Hset.
      eexists. split; [exact Hset|]. split; [by rewrite length_insert|].
      split.
      * intros i Hi. destruct (Z.eq_dec i k) as [-> |Hik].
        { split; [|done]. intros _. by apply zget_zset_eq with t. }
        rewrite (zget_zset_ne _ _ _ _ _ Hset) by done. apply Hlow. lia.
      * intros i Hi. rewrite (zget_zset_ne _ _ _ _ _ Hset) by lia.
        apply Hhigh. lia.
    + exists t. split; [done|]. split; [done|]. split.
      * intros i Hi. destruct (Z.eq_dec i k) as [-> |Hik].
        { split; [intros ?; congruence|]. intros _. by apply Hhigh. }
        apply Hlow. lia.
      * intros i Hi. apply Hhigh. lia.
  - by exists ds'.
Qed.

Lemma mapM_zget_lookup {A} (arr : list A) (f : Z -> Z) (idx : list Z) vs j e :
  mapM (fun e => zget arr (f e)) idx = Some vs ->
  zget idx j = Some e -> zget vs j = zget arr (f e).
Proof.
  intros Hm%mapM_Some_1 [Hj He]%zget_Some.
  destruct (Forall2_lookup_l _ _ _ _ _ Hm He) as (v & Hv & ->).
  apply zget_Some. by split.
Qed.

(** X21. On a grid with at least as many rows as columns, with a mask of
    [ny * nx] pixels and arrays of the sizes the code indexes,
    [find_edges] and [distance_transform] return; a pixel where the mask
    is 0 gets the distance 0, and every other pixel gets the least
    Vincenty distance from it to a pixel of the edge list, or keeps the
    distance the caller passed when the edge list is empty. *)
Theorem distance_transform_nearest_edge ny nx mask posmap dists :
  1 <= nx <= ny ->
  Z.of_nat (length mask) = ny * nx ->
  2 * (ny * nx) <= Z.of_nat (length posmap) ->
  ny * nx <= Z.of_nat (length dists) ->
  exists edges out,
    find_edges ny nx mask = Some edges
    /\ distance_transform ny nx mask posmap dists = Some out
    /\ length out = length dists
    /\ forall i, 0 <= i < ny * nx ->
         (zget mask i = Some 0 -> zget out i = Some 0%R)
         /\ (zget mask i <> Some 0 ->
             (edges = [] /\ zget out i = zget dists i)
             \/ exists d jmin, zget out i = Some d
                  /\ nearest (pixel_edge_dist (ny * nx) posmap edges i)
                       (Z.of_nat (length edges)) d jmin).
Proof.
  intros Hgrid Hmask Hpm Hds.
  destruct (find_edges_returns ny nx mask Hgrid Hmask) as [edges Hfe].
  exists edges. unfold distance_transform. rewrite Hfe.
  cbn [mbind option_bind]. cbv zeta.
  destruct (decide (edges = [])) as [-> |Hne].
  { cbn [mapM mbind option_bind mret option_ret length app].
    rewrite distance_from_points_zero_points by done.
    cbn [mbind option_bind fst].
    destruct (zero_masked_pixels mask (ny * nx) dists)
      as (ds' & -> & Hlen & Hz); [nia|lia|lia|].
    exists ds'. do 3 (split; [done|]).
    intros i Hi. destruct (Hz i Hi) as [Hz0 Hz1]. split; [done|].
    intros Hnz. left. split; [done|]. by apply Hz1. }
  pose proof (find_edges_sound ny nx mask edges Hfe) as Hsound.
  assert (Hin : forall e, e ∈ edges -> 0 <= e < ny * nx).
  { intros e He. rewrite <- Hmask.
    apply (zget_bounds mask e 0). by apply (proj1 (list.Forall_forall _ _) Hsound). }
  assert (Hpix : 1 <= ny * nx).
  { destruct edges as [|e ?]; [done|]. specialize (Hin e ltac:(by left)). lia. }
  destruct (mapM_is_Some_2 (fun e => zget posmap e) edges) as [decs Hdecs].
  { apply list.Forall_forall. intros e He%Hin.
    destruct (zget_is_Some posmap e) as [v Hv]; [lia|]. simpl. by rewrite Hv. }
  destruct (mapM_is_Some_2 (fun e => zget posmap (e + ny * nx)) edges)
    as [ras Hras].
  { apply list.Forall_forall. intros e He%Hin.
    destruct (zget_is_Some posmap (e + ny * nx)) as [v Hv]; [lia|]. simpl. by rewrite Hv. }
  rewrite Hdecs, Hras. cbn [mbind option_bind].
  pose proof (length_mapM _ _ _ Hdecs) as Hld.
  pose proof (length_mapM _ _ _ Hras) as Hlr.
  set (n := Z.of_nat (length edges)).
  assert (Hn : 1 <= n) by (destruct edges; [done|simpl in *; lia]).
  destruct (distance_from_points_pixels (ny * nx) posmap n (decs ++ ras) dists None)
    as (out & -> & [Hsh _] & Hnear); [lia|done|done| | |].
  { rewrite length_app. lia. }
  { split; [done|]. by intros a [=]. }
  cbn [mbind option_bind]. simpl in Hsh.
  destruct (zero_masked_pixels mask (ny * nx) out.1)
    as (ds' & -> & Hlen & Hz); [lia|lia|lia|].
  exists ds'. split; [done|]. split; [done|]. split; [congruence|].
  intros i Hi. destruct (Hz i Hi) as [Hz0 Hz1]. split; [done|].
  intros Hnz. destruct (Hnear i Hi) as (d & jmin & Hd & (Hj & Hdj & Hall) & _).
  right. exists d, jmin. rewrite Hz1 by done. split; [done|].
  assert (Hsame : forall j, 0 <= j < n ->
            pixel_point_dist (ny * nx) posmap n (decs ++ ras) i j
            = pixel_edge_dist (ny * nx) posmap edges i j).
  { intros j Hj'. unfold pixel_point_dist, pixel_edge_dist.
    destruct (zget_is_Some edges j) as [e He]; [lia|]. rewrite He.
    cbn [mbind option_bind].
    destruct (zget posmap i) as [pd|]; [|done].
    destruct (zget posmap (i + ny * nx)) as [pra|]; [|done].
    cbn [mbind option_bind].
    assert (zget (decs ++ ras) j = zget posmap e) as ->.
    { transitivity (zget decs j);
        [|exact (mapM_zget_lookup posmap (fun e => e) edges decs j e Hdecs He)].
      unfold zget. destruct (j <? 0); [done|]. apply lookup_app_l. lia. }
    assert (zget (decs ++ ras) (j + n) = zget posmap (e + ny * nx)) as ->.
    { transitivity (zget ras j);
        [|exact (mapM_zget_lookup posmap (fun e => e + ny * nx) edges ras j e
                   Hras He)].
      unfold zget. destruct (Z.ltb_spec (j + n) 0); [lia|].
      destruct (Z.ltb_spec j 0); [lia|].
      rewrite lookup_app_r by lia. f_equal. lia. }
    done. }
  split; [done|]. split; [by rewrite <- Hsame|].
  intros j Hj'. rewrite <- Hsame by done. by apply Hall.
Qed.

Lemma distance_transform_nearest_edge_witness :
  exists out,
    find_edges 2 2 [0; 1; 1; 0] = Some [0; 3; 3]
    /\ distance_transform 2 2 [0; 1; 1; 0]
         [0%R; 0%R; 0%R; 0%R; 0%R; 3%R; 2%R; 4%R] (replicate 4 5%R)
       = Some out
    /\ length out = 4%nat
    /\ zget out 0 = Some 0%R /\ zget out 3 = Some 0%R
    /\ forall i, i = 1 \/ i = 2 ->
         exists d jmin, zget out i = Some d
           /\ nearest (pixel_edge_dist (2 * 2)
                         [0%R; 0%R; 0%R; 0%R; 0%R; 3%R; 2%R; 4%R] [0; 3; 3] i)
                3 d jmin.
Proof.
  destruct (distance_transform_nearest_edge 2 2 [0; 1; 1; 0]
              [0%R; 0%R; 0%R; 0%R; 0%R; 3%R; 2%R; 4%R] (replicate 4 5%R))
    as (edges & out & Hfe & Hrun & Hlen & Hall); [lia|reflexivity|simpl; lia..|].
  assert (edges = [0; 3; 3]) as -> by (by injection Hfe as <-).
  exists out. do 3 (split; [done|]).
  split; [by apply (Hall 0)|]. split; [by apply (Hall 3)|].
  intros i Hi.
  assert (Hnz : zget [0; 1; 1; 0] i <> Some 0) by (by destruct Hi as [-> | ->]).
  destruct (Hall i) as [_ Hnear]; [lia|].
  by destruct (Hnear Hnz) as [[? _]|Hd].
Defined.

(** X22. For a grid of [ny] rows and [nx] columns and [npoint >= 1]
    points, [distance_from_points_separable] returns normally and leaves in
    [dists[y*nx+x]] the least Vincenty distance from the pixel at latitude
    [ypos[y]] and longitude [xpos[x]] to a point, and in [areas[y*nx+x]]
    (when [areas] is not null) the least index of a point at that
    distance. *)
Theorem distance_from_points_separable_nearest
  ny nx ypos xpos npoint points dists areas :
  0 <= ny -> 0 <= nx -> 1 <= npoint ->
  ny <= Z.of_nat (length ypos) -> nx <= Z.of_nat (length xpos) ->
  2 * npoint <= Z.of_nat (length points) ->
  covers (ny * nx) (dists, areas) ->
  exists out,
    distance_from_points_separable ny nx ypos xpos npoint points dists areas
      = Some out
    /\ same_shape (dists, areas) out
    /\ forall y x, 0 <= y < ny -> 0 <= x < nx ->
         exists d jmin, zget out.1 (y * nx + x) = Some d
           /\ nearest (grid_point_dist ypos xpos npoint points y x) npoint d jmin
           /\ (out.2 <> None -> aget out.2 (y * nx + x) = Some jmin).
Proof.
  intros Hny Hnx Hnpoint Hly Hlx Hpts Hcov.
  unfold distance_from_points_separable.
  destruct (precompute_trig_is_Some points npoint) as [[cs sn] Hpre]; [lia|].
  rewrite Hpre. cbn [mbind option_bind].
  set (done_at := fun (out : outputs) (y x : Z) =>
    exists d jmin, zget out.1 (y * nx + x) = Some d
      /\ nearest (grid_point_dist ypos xpos npoint points y x) npoint d jmin
      /\ (out.2 <> None -> aget out.2 (y * nx + x) = Some jmin)).
  set (P := fun (y : Z) (out : outputs) =>
    same_shape (dists, areas) out
    /\ forall y' x', 0 <= y' < y -> 0 <= x' < nx -> done_at out y' x').
  apply (for_each_range_inv _ P ny (dists, areas)); [done| |].
  { split; [apply same_shape_refl|]. intros; lia. }
  intros y out Hy (Hsh & Hrows). cbv beta.
  destruct (zget_is_Some ypos y) as [pd Hpd]; [lia|].
  rewrite Hpd. cbn [mbind option_bind].
  set (Q := fun (x : Z) (out : outputs) =>
    same_shape (dists, areas) out
    /\ (forall y' x', 0 <= y' < y -> 0 <= x' < nx -> done_at out y' x')
    /\ forall x', 0 <= x' < x -> done_at out y x').
  destruct (for_each_range_inv
    (fun x out =>
       pix_ra ← zget xpos x;
       for_each (fun j out =>
         edge_ra ← zget points (j + npoint);
         ecd ← zget cs j;
         esd ← zget sn j;
         let dra := (pix_ra - edge_ra)%R in
         let cos_dra := cos dra in
         let sin_dra := sin dra in
         let y1 := (ecd * sin_dra)%R in
         let y2 := (cos pd * esd - sin pd * ecd * cos_dra)%R in
         let wy := sqrt (y1 * y1 + y2 * y2) in
         let wx := (sin pd * esd + cos pd * ecd * cos_dra)%R in
         let d := atan2 wy wx in
         keep_nearest (y * nx + x) j d out)
         (range 0 npoint 1) out)
    Q nx out) as (out' & Hrun & Hsh' & Hrows' & Hrow); [done| | |].
  { split; [done|]. split; [done|]. intros; lia. }
  2:{ exists out'. split; [exact Hrun|]. split; [done|].
      intros y' x' Hy' Hx'. destruct (Z.eq_dec y' y) as [-> |Hne].
      - by apply Hrow.
      - apply Hrows'; [lia|done]. }
  intros x t Hx (Hsht & Hrowst & Hrowt).
  destruct (zget_is_Some xpos x) as [pra Hpra]; [lia|].
  rewrite Hpra. cbn [mbind option_bind].
  destruct (nearest_loop (y * nx + x) npoint
    (fun j out =>
       edge_ra ← zget points (j + npoint);
       ecd ← zget cs j;
       esd ← zget sn j;
       let dra := (pra - edge_ra)%R in
       let cos_dra := cos dra in
       let sin_dra := sin dra in
       let y1 := (ecd * sin_dra)%R in
       let y2 := (cos pd * esd - sin pd * ecd * cos_dra)%R in
       let wy := sqrt (y1 * y1 + y2 * y2) in
       let wx := (sin pd * esd + cos pd * ecd * cos_dra)%R in
       let d := atan2 wy wx in
       keep_nearest (y * nx + x) j d out)
    (grid_point_dist ypos xpos npoint points y x) t)
    as (t' & Hrun & Hsh' & Hfr & Hnew); [nia| |lia| |].
  { apply covers_same_shape with (dists, areas); [done|].
    destruct Hcov as [Hc1 Hc2]. split; [simpl in *; nia|].
    intros a Ha. specialize (Hc2 a Ha). nia. }
  { intros j u Hj.
    destruct (precompute_trig_Some _ _ _ _ Hpre j Hj) as (dec & Hdec & Hc & Hs).
    destruct (zget_is_Some points (j + npoint)) as [ra Hra]; [lia|].
    exists (vincenty dec ra pd pra). unfold grid_point_dist.
    rewrite Hpd, Hpra, Hdec, Hra, Hc, Hs. done. }
  assert (Hkeep : forall y' x', 0 <= x' < nx -> (y', x') <> (y, x) ->
            done_at t y' x' -> done_at t' y' x').
  { intros y' x' Hx' Hne (d & jmin & Hd & Hnear & Ha).
    assert (y' * nx + x' <> y * nx + x) as Hi.
    { intros Heq. apply Hne.
      by destruct (flat_index_inj nx y' x' y x Hx' Hx Heq) as [-> ->]. }
    destruct (Hfr _ Hi) as [E1 E2]. exists d, jmin.
    split; [congruence|]. split; [done|]. intros Hsome. rewrite E2. apply Ha.
    destruct Hsh' as [_ Hsh'']. destruct t.2, t'.2; done. }
  exists t'. split; [done|]. split; [by apply same_shape_trans with t|]. split.
  - intros y' x' Hy' Hx'. apply Hkeep; [done| |by apply Hrowst].
    intros [= -> ->]. lia.
  - intros x' Hx'. destruct (Z.eq_dec x' x) as [-> |Hne]; [exact Hnew|].
    apply Hkeep; [lia| |apply Hrowt; lia]. intros [= ->]. done.
Qed.

Lemma distance_from_points_separable_nearest_witness :
  exists out,
    distance_from_points_separable 1 2 [0%R] [0%R; 1%R] 3
      [0%R; 0%R; 0%R; 1%R; 0%R; 1%R] [5%R; 6%R] (Some [7; 7]) = Some out
    /\ same_shape ([5%R; 6%R], Some [7; 7]) out
    /\ forall y x, 0 <= y < 1 -> 0 <= x < 2 ->
         exists d jmin, zget out.1 (y * 2 + x) = Some d
           /\ nearest (grid_point_dist [0%R] [0%R; 1%R] 3
                         [0%R; 0%R; 0%R; 1%R; 0%R; 1%R] y x) 3 d jmin
           /\ (out.2 <> None -> aget out.2 (y * 2 + x) = Some jmin).
Proof.
  apply distance_from_points_separable_nearest; simpl; try lia.
  split; simpl; [lia|]. intros a [= <-]. simpl. lia.
Defined.

(** ** More on the wavefront propagator *)

(** *** The frontier buffers *)

Lemma update_within_capacity nx y x d i s :
  within_capacity s -> within_capacity (run_state (update nx y x d i s)).
Proof.
  intros (Hc & Hn & Hlc & Hln). unfold update.
  destruct (zget (st_dists s) _); [|done].
  destruct (zset (st_dists s) _ _); [|done].
  destruct (zset (st_domains s) _ _); [|done].
  unfold within_capacity. simpl. rewrite length_app. simpl.
  destruct (Z.geb_spec (Z.of_nat (length (st_next s))) (st_next_cap s)); lia.
Qed.

Lemma relax_within_capacity e y x p off s :
  within_capacity s -> within_capacity (run_state (relax e y x p off s)).
Proof.
  intros Hs. unfold relax. destruct (calc_dist _ _ _ _); [|done].
  destruct (zget _ _); [|done]. destruct (Rltb _ _); [|done].
  by apply update_within_capacity.
Qed.

(** X23. However a call ends, and after every pass of the propagation,
    each of the two frontier buffers holds at most as many entries as its
    capacity: doubling the capacity when the buffer is full keeps up with
    the pushes, and [swap_buffers] exchanges the capacities together with
    the buffers. *)
Theorem treerings_buffers_within_capacity
  ny nx ypos xpos npoint point_pos point_y point_x dists domains fuel :
  within_capacity (final_state
    (distance_from_points_treerings_separable ny nx ypos xpos npoint point_pos
       point_y point_x dists domains fuel)).
Proof.
  unfold distance_from_points_treerings_separable.
  assert (H1 : within_capacity
            (run_state (for_run fill_unvisited (range 0 (int32 (ny * nx)) 1)
                          (entry_state dists domains)))).
  { apply for_run_inv; [unfold within_capacity; simpl; lia|].
    intros i s _ Hs. unfold fill_unvisited.
    destruct (zset (st_dists s) _ _); [|done].
    by destruct (zset (st_domains s) _ _). }
  destruct (for_run fill_unvisited _ _) as [s1|s1]; simpl in *; [|done].
  destruct (precompute_trig point_pos npoint) as [[pc ps]|]; [|done].
  destruct (precompute_trig ypos ny) as [[xc xs]|]; [|done].
  set (e := {| e_ny := ny |}).
  assert (H2 : within_capacity
            (run_state (for_run (seed e point_y point_x) (range 0 npoint 1) s1))).
  { apply for_run_inv; [done|]. intros i s _ Hs. unfold seed.
    destruct (zget point_y i); [|done]. destruct (zget point_x i); [|done].
    destruct (calc_dist _ _ _ _); [|done]. by apply update_within_capacity. }
  destruct (for_run (seed e point_y point_x) _ s1) as [s2|s2]; simpl in H2;
    [|done].
  assert (Hswap : forall s, within_capacity s -> within_capacity (swap_buffers s)).
  { intros s (Hc & Hn & Hlc & Hln). unfold within_capacity. simpl. lia. }
  apply propagate_inv; [by apply Hswap| |done].
  intros s Hs. apply for_run_inv; [done|]. intros yx s' _ Hs'. unfold visit.
  destruct (zget (st_domains s') _); [|done].
  apply for_run_inv; [done|]. intros off s'' _. apply relax_within_capacity.
Qed.

(** *** A call without points *)

(** X24. With [npoint = 0], a grid whose [ny * nx] pixels an [int] can
    count, two output grids of at least [ny * nx] entries and a latitude
    for every row, the call returns without a pass of the propagation,
    whatever the bound on the passes, and leaves every pixel unvisited: the
    sentinel [1e300] as its distance and -1 as its domain. *)
Theorem treerings_no_points
  ny nx ypos xpos point_pos point_y point_x dists domains fuel :
  0 <= ny * nx <= int_max ->
  ny <= Z.of_nat (length ypos) ->
  ny * nx <= Z.of_nat (length dists) -> ny * nx <= Z.of_nat (length domains) ->
  exists s,
    distance_from_points_treerings_separable ny nx ypos xpos 0 point_pos
      point_y point_x dists domains fuel = Finished s
    /\ st_writes s = []
    /\ forall i, 0 <= i < ny * nx ->
         zget (st_dists s) i = Some unvisited /\ zget (st_domains s) i = Some (-1).
Proof.
  intros Hsize Hy Hd Hm. unfold distance_from_points_treerings_separable.
  rewrite (int32_small (ny * nx)) by (unfold int_max in *; lia).
  destruct (fill_unvisited_ok (ny * nx) dists domains Hd Hm) as [s1 Hfill].
  pose proof (fill_unvisited_spec (ny * nx) dists domains) as Hspec.
  rewrite Hfill in Hspec |- *. destruct Hspec as (Hw & Hc & Hn & Hall).
  assert (Hpre : precompute_trig point_pos 0 = Some ([], [])) by done.
  rewrite Hpre.
  destruct (precompute_trig_is_Some ypos ny Hy) as [[xc xs] ->].
  assert (range 0 0 1 = []) as -> by done. cbn [for_run].
  exists (swap_buffers s1). split.
  - destruct fuel; simpl; by rewrite Hn.
  - split; [done|]. apply Hall.
Qed.

Lemma treerings_no_points_witness :
  exists s,
    distance_from_points_treerings_separable 2 3 [0%R; 1%R] [0%R; 1%R; 2%R] 0
      [] [] [] [5%R; 6%R; 5%R; 6%R; 5%R; 6%R] [7; 8; 7; 8; 7; 8] 0 = Finished s
    /\ st_writes s = []
    /\ forall i, 0 <= i < 2 * 3 ->
         zget (st_dists s) i = Some unvisited /\ zget (st_domains s) i = Some (-1).
Proof. apply treerings_no_points; unfold int_max; simpl; lia. Defined.

(** *** The distance of a pixel is the distance to its domain *)

Lemma update_sound e y x d p s :
  sound_state e s -> 0 <= y < e_ny e -> 0 <= x < e_nx e ->
  0 <= p < e_npoint e -> calc_dist e p y x = Some d ->
  sound_state e (run_state (update (e_nx e) y x d p s)).
Proof.
  intros [Hgrid Hfront] Hy Hx Hp Hd. unfold update.
  destruct (zget (st_dists s) (y * e_nx e + x)) as [old|] eqn:Hold; [|done].
  destruct (zset (st_dists s) (y * e_nx e + x) d) as [ds|] eqn:Hds; [|done].
  destruct (zset (st_domains s) (y * e_nx e + x) p) as [dm|] eqn:Hdm; [|done].
  split; simpl.
  - intros y' x' Hy' Hx'.
    destruct (Z.eq_dec (y' * e_nx e + x') (y * e_nx e + x)) as [Heq|Hne].
    + destruct (flat_index_inj _ _ _ _ _ Hx' Hx Heq) as [-> ->].
      exists d, p. rewrite (zget_zset_eq _ _ _ _ Hds), (zget_zset_eq _ _ _ _ Hdm).
      do 2 (split; [done|]). by right.
    + rewrite (zget_zset_ne _ _ _ _ _ Hds), (zget_zset_ne _ _ _ _ _ Hdm) by done.
      by apply Hgrid.
  - intros yx Hyx. rewrite app_assoc in Hyx.
    apply elem_of_app in Hyx as [Hyx|Hyx%list_elem_of_singleton].
    + destruct (Hfront yx Hyx) as (Hy' & Hx' & m & Hm & Hmr).
      do 2 (split; [done|]).
      destruct (Z.eq_dec (yx.1 * e_nx e + yx.2) (y * e_nx e + x)) as [Heq|Hne].
      * exists p. by rewrite Heq, (zget_zset_eq _ _ _ _ Hdm).
      * exists m. by rewrite (zget_zset_ne _ _ _ _ _ Hdm).
    + subst yx. simpl. do 2 (split; [done|]).
      exists p. by rewrite (zget_zset_eq _ _ _ _ Hdm).
Qed.

Lemma relax_sound e y x p off s :
  sound_state e s -> 0 <= y < e_ny e -> 0 <= x < e_nx e ->
  0 <= p < e_npoint e -> off ∈ offsets ->
  sound_state e (run_state (relax e y x p off s)).
Proof.
  intros Hs Hy Hx Hp Hoff%offsets_range. unfold relax.
  destruct (calc_dist e p _ _) as [d|] eqn:Hd; [|done].
  destruct (zget (st_dists s) _) as [cur|]; [|done].
  destruct (Rltb d cur); [|done].
  apply update_sound; [done|apply wrap_range; lia..|done|done].
Qed.

Lemma visit_sound e yx s :
  sound_state e s -> yx ∈ st_curr s ->
  sound_state e (run_state (visit e yx s)).
Proof.
  intros Hs Hyx. unfold visit.
  destruct (proj2 Hs yx) as (Hy & Hx & m & Hm & Hmr);
    [apply elem_of_app; by left|].
  rewrite Hm. apply for_run_inv; [done|].
  intros off s' Hoff Hs'. by apply relax_sound.
Qed.

Lemma pass_sound e s :
  sound_state e s ->
  sound_state e (run_state (for_run (visit e) (st_curr s) s)).
Proof.
  intros Hs.
  apply (for_run_inv (fun s' => sound_state e s' /\ st_curr s' = st_curr s));
    [done|].
  intros yx s' Hyx [Hs' Hcur]. split; [|by rewrite visit_curr].
  apply visit_sound; [done|]. by rewrite Hcur.
Qed.

Lemma swap_sound e s : sound_state e s -> sound_state e (swap_buffers s).
Proof.
  intros [Hgrid Hfront]. split; [done|]. intros yx Hyx. simpl in *.
  rewrite app_nil_r in Hyx. apply Hfront. apply elem_of_app. by right.
Qed.

Lemma seed_sound e point_y point_x i s :
  seeds_in_grid (e_ny e) (e_nx e) (e_npoint e) point_y point_x ->
  sound_state e s -> 0 <= i < e_npoint e ->
  sound_state e (run_state (seed e point_y point_x i s)).
Proof.
  intros Hseeds Hs Hi. unfold seed.
  destruct (Hseeds i Hi) as (y & x & -> & -> & Hy & Hx).
  destruct (calc_dist e i y x) as [d|] eqn:Hd; [|done].
  by apply update_sound.
Qed.

(** The distance of the tables is the distance of the inputs. *)
Lemma calc_dist_grid ny nx ypos xpos npoint point_pos pc ps xc xs p y x :
  precompute_trig point_pos npoint = Some (pc, ps) ->
  precompute_trig ypos ny = Some (xc, xs) ->
  0 <= p < npoint -> 0 <= y < ny ->
  calc_dist (TrEnv ny nx xpos npoint point_pos pc ps xc xs) p y x
  = grid_point_dist ypos xpos npoint point_pos y x p.
Proof.
  intros Hpp Hpy Hp Hy. unfold calc_dist, grid_point_dist. simpl.
  destruct (precompute_trig_Some _ _ _ _ Hpp p Hp) as (dec & -> & -> & ->).
  destruct (precompute_trig_Some _ _ _ _ Hpy y Hy) as (pd & -> & -> & ->).
  cbn [mbind option_bind].
  destruct (zget point_pos (p + npoint)); [|by destruct (zget xpos x)].
  by destruct (zget xpos x).
Qed.

(** The state after the set-up of a call on a grid whose [ny * nx] pixels
    an [int] can count, whose output grids have their [ny * nx] entries
    and whose seed pixels lie in the grid: the call ends
    in a state that every invariant of the seeding and of the passes
    holds in, or faults before the seeding with every pixel unvisited. *)
Lemma treerings_invariant (P : tr_env -> tr_state -> Prop)
  ny nx ypos xpos npoint point_pos point_y point_x dists domains fuel :
  0 <= ny * nx <= int_max ->
  ny * nx <= Z.of_nat (length dists) -> ny * nx <= Z.of_nat (length domains) ->
  (forall e s1, e_ny e = ny -> e_nx e = nx -> e_npoint e = npoint ->
     for_run fill_unvisited (range 0 (ny * nx) 1) (entry_state dists domains)
       = Ok s1 -> P e s1) ->
  (forall e i s, e_ny e = ny -> e_nx e = nx -> e_npoint e = npoint ->
     0 <= i < npoint -> P e s -> P e (run_state (seed e point_y point_x i s))) ->
  (forall e s, e_ny e = ny -> e_nx e = nx -> e_npoint e = npoint ->
     P e s -> P e (run_state (for_run (visit e) (st_curr s) s))) ->
  (forall e s, P e s -> P e (swap_buffers s)) ->
  let s := final_state
    (distance_from_points_treerings_separable ny nx ypos xpos npoint point_pos
       point_y point_x dists domains fuel) in
  (exists pc ps xc xs,
     precompute_trig point_pos npoint = Some (pc, ps)
     /\ precompute_trig ypos ny = Some (xc, xs)
     /\ P (TrEnv ny nx xpos npoint point_pos pc ps xc xs) s)
  \/ ((precompute_trig point_pos npoint = None
       \/ precompute_trig ypos ny = None)
      /\ forall e, e_ny e = ny -> e_nx e = nx -> e_npoint e = npoint -> P e s).
Proof.
  intros Hsize Hd Hm Hfill Hseed Hpass Hswap.
  unfold distance_from_points_treerings_separable.
  rewrite (int32_small (ny * nx)) by (unfold int_max in *; lia).
  destruct (fill_unvisited_ok (ny * nx) dists domains Hd Hm) as [s1 H1].
  rewrite H1.
  destruct (precompute_trig point_pos npoint) as [[pc ps]|];
    [|right; split; [by left|]; intros; by apply Hfill].
  destruct (precompute_trig ypos ny) as [[xc xs]|];
    [|right; split; [by right|]; intros; by apply Hfill].
  left. exists pc, ps, xc, xs. do 2 (split; [done|]).
  set (e := TrEnv ny nx xpos npoint point_pos pc ps xc xs).
  assert (H2 : P e (run_state (for_run (seed e point_y point_x)
                                  (range 0 npoint 1) s1))).
  { apply (for_run_inv (P e)); [by apply Hfill|].
    intros i s Hi%range_bounds Hs; [|lia]. by apply Hseed. }
  destruct (for_run (seed e point_y point_x) _ s1) as [s2|s2]; simpl in H2;
    [|done].
  apply (propagate_inv (P e)); [by apply Hswap| |by apply Hswap].
  intros s Hs. by apply Hpass.
Qed.

Lemma fill_sound e dists domains s1 :
  for_run fill_unvisited (range 0 (e_ny e * e_nx e) 1) (entry_state dists domains)
    = Ok s1 ->
  sound_state e s1.
Proof.
  intros H1. pose proof (fill_unvisited_spec (e_ny e * e_nx e) dists domains) as Hs.
  rewrite H1 in Hs. destruct Hs as (_ & Hc & Hn & Hall). split.
  - intros y x Hy Hx. destruct (Hall (y * e_nx e + x)) as [Hd Hm]; [nia|].
    exists unvisited, (-1). do 2 (split; [done|]). by left.
  - intros yx. rewrite Hc, Hn. by intros ?%elem_of_nil.
Qed.

(** X25. In a call on a grid whose [ny * nx] pixels an [int] can count,
    whose output grids have their [ny * nx] entries and whose seed pixels
    lie in the grid, however it ends: every pixel is
    unvisited, with the sentinel as its distance and -1 as its domain, or
    has the index of a point as its domain and the Vincenty distance from
    that point as its distance. So the distance of a pixel is never below
    the least distance from the pixel to a point. *)
Theorem treerings_distance_is_to_domain
  ny nx ypos xpos npoint point_pos point_y point_x dists domains fuel :
  0 <= ny * nx <= int_max ->
  ny * nx <= Z.of_nat (length dists) -> ny * nx <= Z.of_nat (length domains) ->
  seeds_in_grid ny nx npoint point_y point_x ->
  let s := final_state
    (distance_from_points_treerings_separable ny nx ypos xpos npoint point_pos
       point_y point_x dists domains fuel) in
  forall y x, 0 <= y < ny -> 0 <= x < nx ->
    exists d m, zget (st_dists s) (y * nx + x) = Some d
      /\ zget (st_domains s) (y * nx + x) = Some m
      /\ ((m = -1 /\ d = unvisited)
          \/ (0 <= m < npoint
              /\ grid_point_dist ypos xpos npoint point_pos y x m = Some d))
      /\ forall dmin jmin,
           nearest (grid_point_dist ypos xpos npoint point_pos y x) npoint
             dmin jmin -> (dmin <= d)%R.
Proof.
  intros Hsize Hd Hm Hseeds s y x Hy Hx.
  assert (Hcase : exists d m, zget (st_dists s) (y * nx + x) = Some d
      /\ zget (st_domains s) (y * nx + x) = Some m
      /\ ((m = -1 /\ d = unvisited)
          \/ (0 <= m < npoint
              /\ grid_point_dist ypos xpos npoint point_pos y x m = Some d))).
  { destruct (treerings_invariant sound_state ny nx ypos xpos npoint point_pos
                point_y point_x dists domains fuel Hsize Hd Hm)
      as [(pc & ps & xc & xs & Hpp & Hpy & [Hgrid _])|[_ Hany]].
    - intros e s1 <- <- _. apply fill_sound.
    - intros e i s0 <- <- <- Hi Hs0. by apply seed_sound.
    - intros e s0 _ _ _. apply pass_sound.
    - apply swap_sound.
    - destruct (Hgrid y x Hy Hx) as (d & m & Hdd & Hmm & Hor).
      exists d, m. do 2 (split; [done|]).
      destruct Hor as [?|[Hmr Hc]]; [by left|right]. split; [done|].
      simpl in Hmr. by rewrite <- Hc, (calc_dist_grid _ _ _ _ _ _ _ _ _ _ _ _ _ Hpp Hpy).
    - destruct (Hany (TrEnv ny nx xpos npoint point_pos [] [] [] [])
                  eq_refl eq_refl eq_refl) as [Hgrid _].
      destruct (Hgrid y x Hy Hx) as (d & m & Hdd & Hmm & Hor).
      exists d, m. do 2 (split; [done|]).
      destruct Hor as [?|[_ Hc]]; [by left|].
      unfold calc_dist in Hc. simpl in Hc.
      destruct (zget point_pos (m + npoint)); simpl in Hc; [|done].
      unfold zget in Hc. by destruct (m <? 0). }
  destruct Hcase as (d & m & Hdd & Hmm & Hor). exists d, m.
  do 3 (split; [done|]). intros dmin jmin (Hj & Hdj & Hall).
  destruct Hor as [[_ ->]|[Hmr Hc]].
  - unfold grid_point_dist in Hdj.
    destruct (zget ypos y); simpl in Hdj; [|done].
    destruct (zget xpos x); simpl in Hdj; [|done].
    destruct (zget point_pos jmin); simpl in Hdj; [|done].
    destruct (zget point_pos (jmin + npoint)); simpl in Hdj; [|done].
    injection Hdj as <-.
    pose proof (dist_vincenty_helper_range r2 (cos r1) (sin r1) r0 (cos r) (sin r)).
    pose proof PI_lt_unvisited. unfold vincenty. lra.
  - destruct (Hall m Hmr) as (dj & Hdj' & Hle & _).
    assert (dj = d) as -> by congruence. done.
Qed.

Lemma treerings_distance_is_to_domain_witness :
  let s := final_state
    (distance_from_points_treerings_separable 2 2 [0%R; 1%R] [0%R; 1%R] 2
       [0%R; 1%R; 0%R; 1%R] [0; 1] [0; 1] (replicate 4 5%R) (replicate 4 7)
       3) in
  exists d m, zget (st_dists s) (0 * 2 + 1) = Some d
    /\ zget (st_domains s) (0 * 2 + 1) = Some m
    /\ ((m = -1 /\ d = unvisited)
        \/ (0 <= m < 2
            /\ grid_point_dist [0%R; 1%R] [0%R; 1%R] 2 [0%R; 1%R; 0%R; 1%R]
                 0 1 m = Some d))
    /\ forall dmin jmin,
         nearest (grid_point_dist [0%R; 1%R] [0%R; 1%R] 2
                    [0%R; 1%R; 0%R; 1%R] 0 1) 2 dmin jmin ->
         (dmin <= d)%R.
Proof.
  apply (treerings_distance_is_to_domain 2 2 [0%R; 1%R] [0%R; 1%R] 2
           [0%R; 1%R; 0%R; 1%R] [0; 1] [0; 1] (replicate 4 5%R)
           (replicate 4 7) 3); unfold int_max; simpl; try lia.
  intros i Hi. assert (i = 0 \/ i = 1) as [-> | ->] by lia.
  - exists 0, 0. simpl. repeat split; lia.
  - exists 1, 1. simpl. repeat split; lia.
Defined.

(** *** Writes stay in the grid *)

(** An invariant of the fill loop that [update] on a pixel of the grid and
    [swap_buffers] keep holds however the call ends. *)
Lemma treerings_update_invariant (Q : tr_state -> Prop)
  ny nx ypos xpos npoint point_pos point_y point_x dists domains fuel :
  0 <= ny * nx <= int_max ->
  ny * nx <= Z.of_nat (length dists) -> ny * nx <= Z.of_nat (length domains) ->
  seeds_in_grid ny nx npoint point_y point_x ->
  (forall s1,
     for_run fill_unvisited (range 0 (ny * nx) 1) (entry_state dists domains)
       = Ok s1 -> Q s1) ->
  (forall y x d p s, 0 <= y < ny -> 0 <= x < nx ->
     Q s -> Q (run_state (update nx y x d p s))) ->
  (forall s, Q s -> Q (swap_buffers s)) ->
  Q (final_state
       (distance_from_points_treerings_separable ny nx ypos xpos npoint
          point_pos point_y point_x dists domains fuel)).
Proof.
  intros Hsize Hd Hm Hseeds Hfill Hup Hswap.
  assert (Hrelax : forall e y x p off s,
            e_ny e = ny -> e_nx e = nx ->
            0 <= y < ny -> 0 <= x < nx -> off ∈ offsets ->
            Q s -> Q (run_state (relax e y x p off s))).
  { intros e y x p off s Hny Hnx Hy Hx Hoff%offsets_range Hs. unfold relax.
    destruct (calc_dist e p _ _); [|done].
    destruct (zget (st_dists s) _); [|done].
    destruct (Rltb _ _); [|done]. rewrite Hny, Hnx.
    apply Hup; [apply wrap_range; lia..|done]. }
  destruct (treerings_invariant (fun e s => sound_state e s /\ Q s)
              ny nx ypos xpos npoint point_pos point_y point_x dists domains
              fuel Hsize Hd Hm)
    as [(pc & ps & xc & xs & _ & _ & _ & HQ)|[_ Hany]];
    [| | | |done|].
  - intros e s1 <- <- _ H1. split; [by apply (fill_sound e dists domains)|].
    by apply Hfill.
  - intros e i s <- <- <- Hi [Hso Hs]. split; [by apply seed_sound|].
    unfold seed. destruct (Hseeds i Hi) as (y & x & -> & -> & Hy & Hx).
    destruct (calc_dist e i y x); [|done]. by apply Hup.
  - intros e s Hny Hnx _ [Hso Hs].
    apply (for_run_inv (fun s' => (sound_state e s' /\ Q s')
                                  /\ st_curr s' = st_curr s)); [done|].
    intros yx s' Hyx [[Hso' Hs'] Hcur]. split; [|by rewrite visit_curr].
    split; [apply visit_sound; [done|by rewrite Hcur]|].
    destruct (proj2 Hso' yx) as (Hy & Hx & _);
      [apply elem_of_app; left; by rewrite Hcur|].
    unfold visit. destruct (zget (st_domains s') _) as [p|]; [|done].
    apply for_run_inv; [done|]. intros off s'' Hoff Hs''.
    apply Hrelax; (done || lia).
  - intros e s [Hso Hs]. split; [by apply swap_sound|by apply Hswap].
  - by destruct (Hany (TrEnv ny nx xpos npoint point_pos [] [] [] [])
                   eq_refl eq_refl eq_refl).
Qed.

Lemma fill_unvisited_frame n dists domains k :
  n <= k ->
  let s := run_state (for_run fill_unvisited (range 0 n 1)
                        (entry_state dists domains)) in
  zget (st_dists s) k = zget dists k /\ zget (st_domains s) k = zget domains k.
Proof.
  intros Hk.
  apply (for_run_inv (fun s => zget (st_dists s) k = zget dists k
                               /\ zget (st_domains s) k = zget domains k));
    [done|].
  intros i s Hi%range_bounds [Hd Hm]; [|lia]. unfold fill_unvisited.
  destruct (zset (st_dists s) i unvisited) as [ds|] eqn:Hds; [|done].
  rewrite <- Hd, <- (zget_zset_ne _ _ _ _ _ Hds) by lia.
  destruct (zset (st_domains s) i (-1)) as [dm|] eqn:Hdm; simpl; [|done].
  split; [done|]. rewrite <- Hm. apply (zget_zset_ne _ _ _ _ _ Hdm). lia.
Qed.

(** X26. In a call on a grid whose [ny * nx] pixels an [int] can count,
    whose output grids have at least [ny * nx] entries and whose seed
    pixels lie in the grid, however it ends, every [update]
    wrote at a flat index of the grid; the two arrays keep their lengths,
    and their entries from [ny * nx] on keep the values the caller
    passed. *)
Theorem treerings_writes_inside_grid
  ny nx ypos xpos npoint point_pos point_y point_x dists domains fuel :
  0 <= ny * nx <= int_max ->
  ny * nx <= Z.of_nat (length dists) -> ny * nx <= Z.of_nat (length domains) ->
  seeds_in_grid ny nx npoint point_y point_x ->
  let s := final_state
    (distance_from_points_treerings_separable ny nx ypos xpos npoint point_pos
       point_y point_x dists domains fuel) in
  Forall (fun w => 0 <= w_pix w < ny * nx) (st_writes s)
  /\ length (st_dists s) = length dists
  /\ length (st_domains s) = length domains
  /\ forall k, ny * nx <= k ->
       zget (st_dists s) k = zget dists k
       /\ zget (st_domains s) k = zget domains k.
Proof.
  intros Hsize Hd Hm Hseeds.
  apply (treerings_update_invariant (fun s =>
    Forall (fun w => 0 <= w_pix w < ny * nx) (st_writes s)
    /\ length (st_dists s) = length dists
    /\ length (st_domains s) = length domains
    /\ forall k, ny * nx <= k ->
         zget (st_dists s) k = zget dists k
         /\ zget (st_domains s) k = zget domains k)); [done..| | |done].
  - intros s1 H1.
    pose proof (fill_unvisited_spec (ny * nx) dists domains) as Hspec.
    pose proof (fill_unvisited_lengths (range 0 (ny * nx) 1) dists domains) as Hl.
    rewrite H1 in Hspec, Hl. destruct Hspec as (-> & _). simpl in Hl.
    split; [constructor|]. split; [apply Hl|]. split; [apply Hl|].
    intros k Hk. pose proof (fill_unvisited_frame (ny * nx) dists domains k Hk) as Hf.
    by rewrite H1 in Hf.
  - intros y x d p s Hy Hx (Hw & Hld & Hlm & Hfr). unfold update.
    destruct (zget (st_dists s) _) as [old|]; [|done].
    destruct (zset (st_dists s) _ _) as [ds|] eqn:Hds; [|done].
    destruct (zset (st_domains s) _ _) as [dm|] eqn:Hdm; [|done]. simpl.
    split; [|split; [|split]].
    + apply Forall_app. split; [done|]. constructor; [simpl; nia|done].
    + by rewrite (zset_length _ _ _ _ Hds).
    + by rewrite (zset_length _ _ _ _ Hdm).
    + intros k Hk.
      rewrite (zget_zset_ne _ _ _ _ _ Hds), (zget_zset_ne _ _ _ _ _ Hdm) by nia.
      by apply Hfr.
Qed.

Lemma treerings_writes_inside_grid_witness :
  let s := final_state
    (distance_from_points_treerings_separable 2 2 [0%R; 1%R] [0%R; 1%R] 1
       [0%R; 0%R] [0] [0] [5%R; 5%R; 5%R; 5%R; 6%R] [7; 7; 7; 7; 8] 3) in
  Forall (fun w => 0 <= w_pix w < 2 * 2) (st_writes s)
  /\ length (st_dists s) = length [5%R; 5%R; 5%R; 5%R; 6%R]
  /\ length (st_domains s) = length [7; 7; 7; 7; 8]
  /\ forall k, 2 * 2 <= k ->
       zget (st_dists s) k = zget [5%R; 5%R; 5%R; 5%R; 6%R] k
       /\ zget (st_domains s) k = zget [7; 7; 7; 7; 8] k.
Proof.
  apply (treerings_writes_inside_grid 2 2 [0%R; 1%R] [0%R; 1%R] 1 [0%R; 0%R]
           [0] [0] [5%R; 5%R; 5%R; 5%R; 6%R] [7; 7; 7; 7; 8] 3);
    unfold int_max; simpl; try lia.
  intros i Hi. assert (i = 0) as -> by lia. exists 0, 0. simpl.
  repeat split; lia.
Defined.

(** *** The result on a square grid *)

Lemma advances_refl e s : advances e s s.
Proof.
  split; [|split].
  - intros k cur H. exists cur. split; [done|lra].
  - intros. by left.
  - done.
Qed.

Lemma advances_trans e s1 s2 s3 :
  advances e s1 s2 -> advances e s2 s3 -> advances e s1 s3.
Proof.
  intros (Ha1 & Ha2 & Ha3) (Hb1 & Hb2 & Hb3). split; [|split].
  - intros k cur H. destruct (Ha1 k cur H) as (c2 & H2 & Hle2).
    destruct (Hb1 k c2 H2) as (c3 & H3 & Hle3). exists c3. split; [done|lra].
  - intros y x Hy Hx. destruct (Hb2 y x Hy Hx) as [Heq|Hin]; [|by right].
    destruct (Ha2 y x Hy Hx) as [Heq'|Hin']; [left; congruence|right; auto].
  - auto.
Qed.

Lemma neighbour_done_advances e s s' m yx off :
  advances e s s' -> neighbour_done e s m yx off -> neighbour_done e s' m yx off.
Proof.
  intros (Ha & _) (cand & cur & Hc & Hcur & Hle).
  destruct (Ha _ _ Hcur) as (cur' & Hcur' & Hle').
  exists cand, cur'. do 2 (split; [done|]). lra.
Qed.

Lemma all_settled_advances e pending s s' :
  advances e s s' ->
  all_settled e (pending ++ st_next s) s ->
  all_settled e (pending ++ st_next s') s'.
Proof.
  intros Hadv Hall y x Hy Hx. pose proof Hadv as (_ & Hdom & Hnext).
  destruct (Hall y x Hy Hx) as [[Hin|Hin]%elem_of_app|Hset].
  - left. apply elem_of_app. by left.
  - left. apply elem_of_app. right. by apply Hnext.
  - destruct (Hdom y x Hy Hx) as [Heq|Hin];
      [|left; apply elem_of_app; by right].
    right. intros m Hm Hm1 off Hoff. simpl in *. rewrite Heq in Hm.
    apply (neighbour_done_advances e s); [done|]. by apply Hset.
Qed.

Section SquareResult.
Variables (n : Z) (e : tr_env).
Hypothesis (Henv : square_env n e).
Hypothesis (Hsize : n * n <= int_max).

Lemma square_update_advances y x d p s cur :
  grid_inv n e s -> 0 <= y < n -> 0 <= x < n -> 0 <= p < e_npoint e ->
  calc_dist e p y x = Some d ->
  zget (st_dists s) (y * n + x) = Some cur -> (d <= cur)%R ->
  exists s', update n y x d p s = Ok s' /\ grid_inv n e s'
    /\ st_curr s' = st_curr s /\ advances e s s'
    /\ zget (st_dists s') (y * n + x) = Some d.
Proof.
  intros [Hsq Hso] Hy Hx Hp Hd Hcur Hle.
  pose proof Henv as (Hny & Hnx & _).
  pose proof (update_sound e y x d p s Hso) as Hso'.
  rewrite Hny, Hnx in Hso'. specialize (Hso' Hy Hx Hp Hd).
  destruct (square_update n e y x d p s Hsq Hy Hx Hp)
    as (s' & Hup & Hsq' & Hc & Hn & _).
  rewrite Hup in Hso'. simpl in Hso'.
  exists s'. split; [done|]. split; [done|]. split; [done|].
  pose proof (update_elsewhere n y x d p s) as Hel. rewrite Hup in Hel.
  simpl in Hel.
  assert (Hnew : zget (st_dists s') (y * n + x) = Some d).
  { revert Hup. unfold update. rewrite Hcur.
    destruct (zset (st_dists s) _ _) as [ds|] eqn:Hds; [|done].
    destruct (zset (st_domains s) _ _) as [dm|] eqn:Hdm; [|done].
    intros [= <-]. simpl. by apply zget_zset_eq with (st_dists s). }
  split; [|done]. split; [|split].
  - intros k c Hk. destruct (Z.eq_dec (y * n + x) k) as [<-|Hne].
    + exists d. split; [done|]. assert (c = cur) as -> by congruence. done.
    + exists c. destruct (Hel k Hne) as (-> & _). split; [done|lra].
  - intros y' x' Hy' Hx'. rewrite Hnx.
    destruct (Z.eq_dec (y * n + x) (y' * n + x')) as [Heq|Hne].
    + right. rewrite Hny, Hnx in *.
      destruct (flat_index_inj n y x y' x' Hx Hx' Heq) as [-> ->].
      rewrite Hn. apply elem_of_app. right. by apply list_elem_of_singleton.
    + left. by destruct (Hel _ Hne) as (_ & -> & _).
  - intros yx Hyx. rewrite Hn. apply elem_of_app. by left.
Qed.

Lemma square_relax_settles y x p off s :
  grid_inv n e s -> 0 <= y < n -> 0 <= x < n -> 0 <= p < e_npoint e ->
  off ∈ offsets ->
  exists s', relax e y x p off s = Ok s' /\ grid_inv n e s'
    /\ st_curr s' = st_curr s /\ advances e s s'
    /\ neighbour_done e s' p (y, x) off.
Proof.
  intros Hs Hy Hx Hp Hoff. pose proof Henv as (Hny & Hnx & Hcalc).
  destruct (offsets_range off Hoff) as [Ho1 Ho2].
  destruct (neighbour_in_square n y x off Hsize Hy Hx Hoff) as (_ & _ & H32).
  unfold relax, neighbour_done. simpl. rewrite Hny, Hnx, H32.
  pose proof (wrap_range (y + off.1) n ltac:(lia) ltac:(lia)) as Hy2.
  pose proof (wrap_range (x + off.2) n ltac:(lia) ltac:(lia)) as Hx2.
  set (y2 := wrap (y + off.1) n) in *. set (x2 := wrap (x + off.2) n) in *.
  destruct (Hcalc p y2 x2) as [cand Hcand]; [done..|]. rewrite Hcand.
  pose proof Hs as [(Hd & _) _].
  destruct (zget_is_Some (st_dists s) (y2 * n + x2)) as [cur Hcur]; [nia|].
  rewrite Hcur. destruct (Rltb cand cur) eqn:Hlt.
  - apply Rltb_true in Hlt.
    destruct (square_update_advances y2 x2 cand p s cur)
      as (s' & -> & Hs' & Hc & Hadv & Hnew); [done..|lra|].
    exists s'. do 4 (split; [done|]). exists cand, cand.
    do 2 (split; [done|]). lra.
  - apply Rltb_false in Hlt. exists s. do 3 (split; [done|]).
    split; [apply advances_refl|]. by exists cand, cur.
Qed.

Lemma square_relaxes_settle y x p offs s :
  (forall off, off ∈ offs -> off ∈ offsets) ->
  grid_inv n e s -> 0 <= y < n -> 0 <= x < n -> 0 <= p < e_npoint e ->
  exists s', for_run (relax e y x p) offs s = Ok s' /\ grid_inv n e s'
    /\ st_curr s' = st_curr s /\ advances e s s'
    /\ forall off, off ∈ offs -> neighbour_done e s' p (y, x) off.
Proof.
  intros Hoffs Hs Hy Hx Hp. revert s Hs Hoffs.
  induction offs as [|off offs IH]; intros s Hs Hoffs.
  - exists s. do 3 (split; [done|]). split; [apply advances_refl|].
    by intros off ?%elem_of_nil.
  - destruct (square_relax_settles y x p off s)
      as (s1 & H1 & Hs1 & Hc1 & Ha1 & Hn1); [done..|apply Hoffs; by left|].
    destruct (IH s1 Hs1) as (s2 & H2 & Hs2 & Hc2 & Ha2 & Hn2).
    { intros. apply Hoffs. by right. }
    exists s2. rewrite for_run_cons, H1. split; [done|]. split; [done|].
    split; [congruence|]. split; [by apply advances_trans with s1|].
    intros off' [-> |Hin]%elem_of_cons; [|by apply Hn2].
    by apply (neighbour_done_advances e s1).
Qed.

Lemma square_visit_settles yx s :
  grid_inv n e s -> yx ∈ st_curr s ->
  exists s', visit e yx s = Ok s' /\ grid_inv n e s'
    /\ st_curr s' = st_curr s /\ advances e s s'
    /\ (yx ∈ st_next s' \/ settled e s' yx).
Proof.
  intros Hs Hyx. pose proof Hs as [(_ & _ & Hfr) _].
  pose proof Henv as (Hny & Hnx & _).
  destruct (Hfr yx) as (Hy & Hx & p & Hdom & Hp); [apply elem_of_app; by left|].
  unfold visit. rewrite Hnx, Hdom.
  destruct (square_relaxes_settle yx.1 yx.2 p offsets s)
    as (s' & -> & Hs' & Hc & Hadv & Hdone); [done..|].
  exists s'. do 4 (split; [done|]).
  destruct Hadv as (_ & Hd & _).
  destruct (Hd yx.1 yx.2) as [Heq|Hin]; [lia..| |left; by destruct yx].
  right. intros m Hm _ off Hoff. rewrite Hnx in Heq. rewrite Hnx, Heq, Hdom in Hm.
  injection Hm as <-. destruct yx. by apply Hdone.
Qed.

Lemma square_pass_settles l s :
  (forall yx, yx ∈ l -> yx ∈ st_curr s) ->
  grid_inv n e s -> all_settled e (l ++ st_next s) s ->
  exists s', for_run (visit e) l s = Ok s' /\ grid_inv n e s'
    /\ st_curr s' = st_curr s /\ advances e s s'
    /\ all_settled e (st_next s') s'.
Proof.
  revert s. induction l as [|yx l IH]; intros s Hl Hs Hall.
  - exists s. do 3 (split; [done|]). split; [apply advances_refl|done].
  - destruct (square_visit_settles yx s Hs) as (s1 & H1 & Hs1 & Hc1 & Ha1 & Hyx);
      [apply Hl; by left|].
    destruct (IH s1) as (s2 & H2 & Hs2 & Hc2 & Ha2 & Hall2); [|done|..].
    { intros yx' Hin. rewrite Hc1. apply Hl. by right. }
    { pose proof (all_settled_advances e (yx :: l) s s1 Ha1 Hall) as Hall1.
      intros y x Hy Hx. destruct (Hall1 y x Hy Hx) as [Hin|Hset]; [|by right].
      simpl in Hin. apply elem_of_cons in Hin as [-> |Hin]; [|by left].
      destruct Hyx as [Hin|Hset]; [|by right].
      left. apply elem_of_app. by right. }
    exists s2. rewrite for_run_cons, H1. split; [done|]. split; [done|].
    split; [congruence|]. split; [by apply advances_trans with s1|done].
Qed.

Lemma some_assigned_advances s s' :
  square_inv n (e_npoint e) s' -> advances e s s' ->
  some_assigned e s -> some_assigned e s'.
Proof.
  intros (_ & _ & Hfr) (_ & Hdom & _) (y & x & m & Hy & Hx & Hm & Hmr).
  pose proof Henv as (Hny & Hnx & _).
  destruct (Hdom y x Hy Hx) as [Heq|Hin].
  - exists y, x, m. rewrite Heq. done.
  - destruct (Hfr (y, x)) as (_ & _ & m' & Hm' & Hmr');
      [apply elem_of_app; by right|].
    simpl in Hm'. exists y, x, m'. rewrite Hnx.
    split; [done|]. split; [lia|done].
Qed.

Lemma square_propagate_settles fuel s s' :
  between_passes n e s -> propagate e fuel s = Finished s' ->
  between_passes n e s' /\ st_curr s' = [].
Proof.
  revert s. induction fuel as [|fuel IH]; intros s Hs; simpl.
  - destruct (st_curr s) eqn:Hc; [|done]. intros [= <-]. done.
  - destruct (st_curr s) eqn:Hc; [by intros [= <-]|]. rewrite <- Hc.
    destruct Hs as (Hg & Hn & Hall & Hsome).
    destruct (square_pass_settles (st_curr s) s) as (s1 & -> & Hg1 & Hc1 & Ha1 & Hall1);
      [done|done|by rewrite Hn, app_nil_r|].
    apply IH. split; [|split; [done|split]].
    + destruct Hg1 as [Hsq Hso]. split; [by apply (square_swap n e)|].
      by apply swap_sound.
    + intros y x Hy Hx. destruct (Hall1 y x Hy Hx) as [Hin|Hset]; [by left|].
      by right.
    + destruct Hg1 as [Hsq _].
      destruct (some_assigned_advances s s1 Hsq Ha1 Hsome)
        as (y & x & m & ?). by exists y, x, m.
Qed.

Lemma wrap_succ y : 0 <= y < n -> wrap (y + 1) n = (y + 1) mod n.
Proof.
  intros Hy. unfold wrap. destruct (Z.ltb_spec (y + 1) 0); [lia|].
  destruct (Z.geb_spec (y + 1) n).
  - assert (y + 1 = n) as -> by lia. rewrite Z.mod_same by lia. lia.
  - by rewrite Z.mod_small by lia.
Qed.

Lemma wrap_same x : 0 <= x < n -> wrap (x + 0) n = x.
Proof.
  intros Hx. unfold wrap. rewrite Z.add_0_r.
  destruct (Z.ltb_spec x 0); [lia|]. destruct (Z.geb_spec x n); lia.
Qed.

(** A set of pixels that holds a pixel and is closed under the steps to the
    next row and to the next column, both with the wrap, holds the grid. *)
Lemma wrap_closure (V : Z -> Z -> Prop) y0 x0 :
  0 <= y0 < n -> 0 <= x0 < n -> V y0 x0 ->
  (forall y x, 0 <= y < n -> 0 <= x < n -> V y x -> V (wrap (y + 1) n) x) ->
  (forall y x, 0 <= y < n -> 0 <= x < n -> V y x -> V y (wrap (x + 1) n)) ->
  forall y x, 0 <= y < n -> 0 <= x < n -> V y x.
Proof.
  intros Hy0 Hx0 H0 Hrow Hcol.
  assert (Hrows : forall k : nat, V ((y0 + Z.of_nat k) mod n) x0).
  { induction k as [|k IH]; [by rewrite Z.add_0_r, Z.mod_small|].
    pose proof (Z.mod_pos_bound (y0 + Z.of_nat k) n ltac:(lia)) as Hb.
    apply Hrow in IH; [|done..]. rewrite wrap_succ in IH by done.
    rewrite Z.add_mod_idemp_l in IH by lia.
    by replace (y0 + Z.of_nat (S k)) with (y0 + Z.of_nat k + 1) by lia. }
  assert (Hall_rows : forall y, 0 <= y < n -> V y x0).
  { intros y Hy. specialize (Hrows (Z.to_nat (y - y0 + n))).
    rewrite Z2Nat.id in Hrows by lia.
    replace (y0 + (y - y0 + n)) with (y + 1 * n) in Hrows by lia.
    by rewrite Z.mod_add, Z.mod_small in Hrows by lia. }
  intros y x Hy Hx.
  assert (Hcols : forall k : nat, V y ((x0 + Z.of_nat k) mod n)).
  { induction k as [|k IH]; [rewrite Z.add_0_r, Z.mod_small by lia; auto|].
    pose proof (Z.mod_pos_bound (x0 + Z.of_nat k) n ltac:(lia)) as Hb.
    apply Hcol in IH; [|done..]. rewrite wrap_succ in IH by done.
    rewrite Z.add_mod_idemp_l in IH by lia.
    by replace (x0 + Z.of_nat (S k)) with (x0 + Z.of_nat k + 1) by lia. }
  specialize (Hcols (Z.to_nat (x - x0 + n))).
  rewrite Z2Nat.id in Hcols by lia.
  replace (x0 + (x - x0 + n)) with (x + 1 * n) in Hcols by lia.
  by rewrite Z.mod_add, Z.mod_small in Hcols by lia.
Qed.

Lemma square_settled_all_assigned s :
  sound_state e s -> all_settled e [] s -> some_assigned e s ->
  forall y x, 0 <= y < n -> 0 <= x < n ->
    exists d m, zget (st_dists s) (y * n + x) = Some d
      /\ zget (st_domains s) (y * n + x) = Some m
      /\ 0 <= m < e_npoint e /\ calc_dist e m y x = Some d
      /\ forall off, off ∈ offsets -> neighbour_done e s m (y, x) off.
Proof.
  intros [Hgrid _] Hall (y0 & x0 & m0 & Hy0 & Hx0 & Hm0 & Hmr0).
  pose proof Henv as (Hny & Hnx & _). rewrite Hny, Hnx in *.
  set (V := fun y x => exists m, zget (st_domains s) (y * n + x) = Some m
                                 /\ 0 <= m < e_npoint e).
  assert (Hstep : forall y x off, 0 <= y < n -> 0 <= x < n -> off ∈ offsets ->
            V y x -> V (wrap (y + off.1) n) (wrap (x + off.2) n)).
  { intros y x off Hy Hx Hoff (m & Hm & Hmr).
    destruct (Hall y x) as [?%elem_of_nil|Hset]; [lia..|done|].
    assert (Hm1 : zget (st_domains s) ((y, x).1 * e_nx e + (y, x).2) = Some m)
      by (simpl; by rewrite Hnx).
    destruct (Hset m Hm1 ltac:(lia) off Hoff) as (cand & cur & Hcand & Hcur & Hle).
    simpl in *. rewrite Hny, Hnx in *.
    destruct (offsets_range off Hoff) as [Ho1 Ho2].
    pose proof (wrap_range (y + off.1) n ltac:(lia) ltac:(lia)) as Hy2.
    pose proof (wrap_range (x + off.2) n ltac:(lia) ltac:(lia)) as Hx2.
    destruct (Hgrid _ _ Hy2 Hx2) as (d & m' & Hd & Hm' & [[-> ->]|[Hmr' _]]).
    - exfalso. assert (cur = unvisited) as -> by congruence.
      pose proof (calc_dist_range _ _ _ _ _ Hcand).
      pose proof PI_lt_unvisited. lra.
    - by exists m'. }
  assert (HV : forall y x, 0 <= y < n -> 0 <= x < n -> V y x).
  { apply (wrap_closure V y0 x0); [done..|by exists m0| |].
    - intros y x Hy Hx Hv.
      pose proof (Hstep y x (1, 0) Hy Hx) as H. simpl in H.
      rewrite wrap_same in H by done. apply H; [|done].
      apply list_elem_of_In. simpl. auto.
    - intros y x Hy Hx Hv.
      pose proof (Hstep y x (0, 1) Hy Hx) as H. simpl in H.
      rewrite wrap_same in H by done. apply H; [|done].
      apply list_elem_of_In. simpl. auto. }
  intros y x Hy Hx. destruct (HV y x Hy Hx) as (m & Hm & Hmr).
  destruct (Hgrid y x Hy Hx) as (d & m' & Hd & Hm' & Hor).
  assert (m' = m) as -> by congruence.
  destruct Hor as [[-> _]|[_ Hc]]; [lia|].
  exists d, m. do 4 (split; [done|]).
  destruct (Hall y x) as [?%elem_of_nil|Hset]; [lia..|done|].
  intros off Hoff. apply Hset; [simpl; by rewrite Hnx|lia|done].
Qed.

End SquareResult.

Lemma square_seed_assigns n e point_y point_x i s :
  square_env n e -> seeds_in_grid n n (e_npoint e) point_y point_x ->
  0 <= i < e_npoint e ->
  grid_inv n e s -> st_curr s = [] ->
  (forall y x, 0 <= y < n -> 0 <= x < n ->
     (y, x) ∈ st_next s \/ zget (st_domains s) (y * n + x) = Some (-1)) ->
  exists s', seed e point_y point_x i s = Ok s'
    /\ grid_inv n e s' /\ st_curr s' = []
    /\ (forall y x, 0 <= y < n -> 0 <= x < n ->
          (y, x) ∈ st_next s' \/ zget (st_domains s') (y * n + x) = Some (-1))
    /\ some_assigned e s'.
Proof.
  intros Henv Hseeds Hi [Hsq Hso] Hcurr Hfresh.
  pose proof Henv as (Hny & Hnx & Hcalc). unfold seed.
  destruct (Hseeds i Hi) as (y & x & -> & -> & Hy & Hx).
  destruct (Hcalc i y x) as [d Hd]; [done..|]. rewrite Hd, Hnx.
  destruct (square_update n e y x d i s Hsq Hy Hx Hi)
    as (s' & Hup & Hsq' & Hc & Hn & _).
  pose proof (update_sound e y x d i s Hso) as Hso'.
  rewrite Hny, Hnx, Hup in Hso'. specialize (Hso' Hy Hx Hi Hd).
  pose proof (update_elsewhere n y x d i s) as Hel. rewrite Hup in Hel.
  simpl in *.
  exists s'. split; [done|]. split; [done|]. split; [congruence|]. split.
  - intros y' x' Hy' Hx'. rewrite Hn.
    destruct (Z.eq_dec (y * n + x) (y' * n + x')) as [Heq|Hne].
    + left. destruct (flat_index_inj n y x y' x' Hx Hx' Heq) as [-> ->].
      apply elem_of_app. right. by apply list_elem_of_singleton.
    + destruct (Hel _ Hne) as (_ & -> & _).
      destruct (Hfresh y' x' Hy' Hx') as [Hin|Hm]; [left|by right].
      apply elem_of_app. by left.
  - destruct Hsq' as (_ & _ & Hfr).
    destruct (Hfr (y, x)) as (_ & _ & m & Hm & Hmr).
    { rewrite Hn. apply elem_of_app. right. apply elem_of_app. right.
      by apply list_elem_of_singleton. }
    exists y, x, m. rewrite Hny, Hnx. done.
Qed.

(** X27. On a square grid whose [n * n] pixels an [int] can count, with
    at least one point, arrays of the sizes the code indexes and the seed
    pixels in the grid, the call returns (some bound on the number of
    passes is enough for the run to finish), and a call that returns has
    assigned every pixel: its domain is the index of a point and its
    distance is the Vincenty distance from that point. And no assigned
    pixel could improve a 4-neighbour any more: the distance of a neighbour
    (taken with the wrap at the border) is at most the distance from the
    pixel's own point to that neighbour. *)
Theorem treerings_square_result
  n ypos xpos npoint point_pos point_y point_x dists domains :
  1 <= npoint -> n * n <= int_max ->
  n <= Z.of_nat (length ypos) -> n <= Z.of_nat (length xpos) ->
  2 * npoint <= Z.of_nat (length point_pos) ->
  n * n <= Z.of_nat (length dists) -> n * n <= Z.of_nat (length domains) ->
  seeds_in_grid n n npoint point_y point_x ->
  (exists fuel s,
     distance_from_points_treerings_separable n n ypos xpos npoint point_pos
       point_y point_x dists domains fuel = Finished s)
  /\ forall fuel s,
       distance_from_points_treerings_separable n n ypos xpos npoint point_pos
         point_y point_x dists domains fuel = Finished s ->
       forall y x, 0 <= y < n -> 0 <= x < n ->
         exists d m, zget (st_dists s) (y * n + x) = Some d
           /\ zget (st_domains s) (y * n + x) = Some m
           /\ 0 <= m < npoint
           /\ grid_point_dist ypos xpos npoint point_pos y x m = Some d
           /\ forall off, off ∈ offsets ->
                let y2 := wrap (y + off.1) n in
                let x2 := wrap (x + off.2) n in
                exists cand cur,
                  grid_point_dist ypos xpos npoint point_pos y2 x2 m
                    = Some cand
                  /\ zget (st_dists s) (y2 * n + x2) = Some cur
                  /\ (cur <= cand)%R.
Proof.
  intros Hnp Hsize Hly Hlx Hlp Hld Hlm Hseeds. split.
  { destruct (square_setup n ypos xpos npoint point_pos point_y point_x dists
                domains Hsize Hly Hlx Hlp Hld Hlm Hseeds)
      as (pc & ps & xc & xs & s2 & Henv & Hrun & H2 & _).
    set (e := TrEnv n n xpos npoint point_pos pc ps xc xs) in *.
    destruct (square_propagate n e Henv Hsize
                (potential (candidates e) (st_dists (swap_buffers s2)))
                (swap_buffers s2)) as [s' Hs'];
      [by apply (square_swap n e)|done|done|].
    exists (S (potential (candidates e) (st_dists (swap_buffers s2)))), s'.
    by rewrite Hrun. }
  intros fuel s Hrun.
  destruct (fill_unvisited_ok (n * n) dists domains Hld Hlm) as [s1 Hfill].
  assert (Hfill' : for_run fill_unvisited (range 0 (int32 (n * n)) 1)
                     (entry_state dists domains) = Ok s1)
    by (rewrite int32_small by (unfold int_max in *; nia); exact Hfill).
  pose proof (fill_unvisited_lengths (range 0 (n * n) 1) dists domains) as Hlen.
  pose proof (fill_unvisited_spec (n * n) dists domains) as Hspec.
  rewrite Hfill in Hlen, Hspec. simpl in Hlen.
  destruct Hlen as [Hl1 Hl1']. destruct Hspec as (_ & Hc1 & Hn1 & Hall1).
  destruct (precompute_trig_is_Some point_pos npoint) as [[pc ps] Hpp]; [lia|].
  destruct (precompute_trig_is_Some ypos n) as [[xc xs] Hpy]; [lia|].
  set (e := TrEnv n n xpos npoint point_pos pc ps xc xs).
  assert (Henv : square_env n e).
  { do 2 (split; [done|]). intros p y x Hp Hy Hx. unfold e in *.
    rewrite (calc_dist_grid _ _ _ _ _ _ _ _ _ _ _ _ _ Hpp Hpy) by done.
    unfold grid_point_dist.
    destruct (zget_is_Some ypos y) as [? ->]; [lia|].
    destruct (zget_is_Some xpos x) as [? ->]; [lia|].
    destruct (zget_is_Some point_pos p) as [? ->]; [simpl in Hp; lia|].
    destruct (zget_is_Some point_pos (p + npoint)) as [? ->];
      [simpl in Hp; lia|].
    by eexists. }
  set (fresh := fun s : tr_state =>
    grid_inv n e s /\ st_curr s = []
    /\ forall y x, 0 <= y < n -> 0 <= x < n ->
         (y, x) ∈ st_next s \/ zget (st_domains s) (y * n + x) = Some (-1)).
  assert (H1 : fresh s1).
  { split; [split|split; [done|]].
    - split; [lia|]. split; [lia|]. intros yx. rewrite Hc1, Hn1.
      by intros ?%elem_of_nil.
    - by apply (fill_sound e dists domains).
    - intros y x Hy Hx. right. apply Hall1. nia. }
  assert (Hsplit : range 0 npoint 1 = range 0 (npoint - 1) 1 ++ [npoint - 1]).
  { rewrite !range_0. replace npoint with (Z.of_nat (S (Z.to_nat (npoint - 1))))
      at 1 by lia.
    rewrite seqZ_S. f_equal; [f_equal; lia|]. f_equal. lia. }
  destruct (for_run_ok fresh (seed e point_y point_x) (range 0 (npoint - 1) 1)
              s1 H1) as (s2' & Hseed' & H2').
  { intros i s0 Hi%range_bounds (Hg & Hc & Hf); [|lia].
    destruct (square_seed_assigns n e point_y point_x i s0)
      as (s' & ? & ? & ? & ? & _); [done|done|simpl; lia|done..|].
    by exists s'. }
  destruct H2' as (Hg2' & Hcu2' & Hf2').
  destruct (square_seed_assigns n e point_y point_x (npoint - 1) s2')
    as (s2 & Hlast & Hg2 & Hcu2 & Hf2 & Hsome2); [done|done|simpl; lia|done..|].
  assert (Hseed : for_run (seed e point_y point_x) (range 0 npoint 1) s1 = Ok s2).
  { by rewrite Hsplit, for_run_app, Hseed', for_run_cons, Hlast. }
  rewrite (treerings_after_setup n n ypos xpos npoint point_pos point_y
             point_x dists domains _ s1 pc ps xc xs s2 Hfill' Hpp Hpy Hseed)
    in Hrun.
  destruct (square_propagate_settles n e Henv Hsize fuel (swap_buffers s2) s)
    as [(Hg & Hnext & Hall & Hsome) Hcurr]; [|done|].
  { split; [|split; [done|split]].
    - destruct Hg2 as [Hsq Hso]. split; [by apply (square_swap n e)|].
      by apply swap_sound.
    - intros y x Hy Hx. destruct (Hf2 y x Hy Hx) as [Hin|Hm]; [by left|].
      right. intros m Hm' Hne. simpl in Hm'. congruence.
    - destruct Hsome2 as (y & x & m & ?). by exists y, x, m. }
  rewrite Hcurr in Hall. destruct Hg as [_ Hso].
  intros y x Hy Hx.
  destruct (square_settled_all_assigned n e Henv s Hso Hall Hsome y x Hy Hx)
    as (d & m & Hd & Hm & Hmr & Hc & Hnb).
  exists d, m. do 3 (split; [done|]).
  unfold e in Hc. simpl in Hmr.
  rewrite (calc_dist_grid _ _ _ _ _ _ _ _ _ _ _ _ _ Hpp Hpy) in Hc by done.
  split; [done|]. intros off Hoff y2 x2.
  destruct (Hnb off Hoff) as (cand & cur & Hcand & Hcur & Hle).
  simpl in Hcand, Hcur. fold y2 x2 in Hcand, Hcur.
  destruct (offsets_range off Hoff) as [Ho1 Ho2].
  pose proof (wrap_range (y + off.1) n ltac:(lia) ltac:(lia)) as Hy2.
  unfold e in Hcand.
  rewrite (calc_dist_grid _ _ _ _ _ _ _ _ _ _ _ _ _ Hpp Hpy) in Hcand by done.
  by exists cand, cur.
Qed.

Lemma treerings_square_result_witness :
  exists fuel s,
    distance_from_points_treerings_separable 2 2 [0%R; 1%R] [0%R; 1%R] 2
      [0%R; 1%R; 0%R; 1%R] [0; 1] [0; 1] (replicate 4 5%R) (replicate 4 7)
      fuel = Finished s
    /\ exists d m, zget (st_dists s) (0 * 2 + 1) = Some d
      /\ zget (st_domains s) (0 * 2 + 1) = Some m
      /\ 0 <= m < 2
      /\ grid_point_dist [0%R; 1%R] [0%R; 1%R] 2 [0%R; 1%R; 0%R; 1%R] 0 1 m
         = Some d
      /\ forall off, off ∈ offsets ->
           let y2 := wrap (0 + off.1) 2 in
           let x2 := wrap (1 + off.2) 2 in
           exists cand cur,
             grid_point_dist [0%R; 1%R] [0%R; 1%R] 2 [0%R; 1%R; 0%R; 1%R]
               y2 x2 m = Some cand
             /\ zget (st_dists s) (y2 * 2 + x2) = Some cur /\ (cur <= cand)%R.
Proof.
  destruct (treerings_square_result 2 [0%R; 1%R] [0%R; 1%R] 2
              [0%R; 1%R; 0%R; 1%R] [0; 1] [0; 1] (replicate 4 5%R)
              (replicate 4 7)) as [(fuel & s & Hrun) Hres];
    try (unfold int_max; simpl; lia).
  - intros i Hi. assert (i = 0 \/ i = 1) as [-> | ->] by lia.
    + exists 0, 0. simpl. repeat split; lia.
    + exists 1, 1. simpl. repeat split; lia.
  - exists fuel, s. split; [done|]. apply (Hres fuel s Hrun 0 1); lia.
Defined.
